(** * DiCharts: layout, animation, hit-testing and theme resolution

    A shallow embedding of the algorithmic core of the chart widgets
    ([Heatmap.ts], [BarChart.ts], [Sparkline.ts] and the area chart), with
    the properties of the design document stated and settled against it.

    Numbers.  The widgets compute on JavaScript numbers.  Code that only
    uses [+ - * /], comparisons, [Math.max], [Math.min] and [Math.abs] is
    embedded over [JS.num]: exact rationals extended with [+Infinity],
    [-Infinity] and [NaN], so that rounding is abstracted away while
    division by zero and the [Infinity] sentinels behave as in the source
    (the sign of a zero is not tracked: a zero divisor counts as [+0]).
    Code that calls [Math.exp], [Math.cos], [Math.sqrt] or [Math.atan2]
    is embedded over the real numbers. *)

From Stdlib Require Import QArith Qabs Qminmax Lia Lra Lqa List Bool ZArith.
From Stdlib Require Import String Ascii Permutation Sorted Reals.
From Stdlib Require Import DecimalString DecimalNat Qround.
From Stdlib Require DecimalFacts.
From Equations Require Import Equations.
Import ListNotations.

Set Implicit Arguments.

(* ===================================================================== *)
(** ** JavaScript numbers over exact rationals *)
(* ===================================================================== *)

Module JS.

Local Open Scope Q_scope.

Inductive num : Type :=
| Fin (q : Q)
| PInf
| NInf
| NaN.

Definition zero : num := Fin 0.

(** Sign of a rational, as a comparison with 0. *)
Definition sgn (q : Q) : comparison := q ?= 0.

Definition neg (a : num) : num :=
  match a with
  | Fin q => Fin (- q)
  | PInf => NInf
  | NInf => PInf
  | NaN => NaN
  end.

Definition add (a b : num) : num :=
  match a, b with
  | NaN, _ | _, NaN => NaN
  | Fin p, Fin q => Fin (p + q)
  | PInf, NInf | NInf, PInf => NaN
  | PInf, _ | _, PInf => PInf
  | NInf, _ | _, NInf => NInf
  end.

Definition sub (a b : num) : num := add a (neg b).

(** An infinity of the sign given by a comparison with 0; [0 * Infinity]
    is [NaN]. *)
Definition inf_of (c : comparison) : num :=
  match c with
  | Gt => PInf
  | Lt => NInf
  | Eq => NaN
  end.

Definition mul (a b : num) : num :=
  match a, b with
  | NaN, _ | _, NaN => NaN
  | Fin p, Fin q => Fin (p * q)
  | Fin p, PInf | PInf, Fin p => inf_of (sgn p)
  | Fin p, NInf | NInf, Fin p => inf_of (CompOpp (sgn p))
  | PInf, PInf | NInf, NInf => PInf
  | PInf, NInf | NInf, PInf => NInf
  end.

Definition div (a b : num) : num :=
  match a, b with
  | NaN, _ | _, NaN => NaN
  | Fin p, Fin q =>
      match sgn q with
      | Eq => inf_of (sgn p)
      | _ => Fin (p / q)
      end
  | Fin _, (PInf | NInf) => Fin 0
  | PInf, Fin q => match sgn q with Lt => NInf | _ => PInf end
  | NInf, Fin q => match sgn q with Lt => PInf | _ => NInf end
  | (PInf | NInf), (PInf | NInf) => NaN
  end.

(** [a < b]; every comparison with [NaN] is false. *)
Definition lt (a b : num) : bool :=
  match a, b with
  | NaN, _ | _, NaN => false
  | Fin p, Fin q => match p ?= q with Lt => true | _ => false end
  | NInf, (Fin _ | PInf) => true
  | Fin _, PInf => true
  | _, _ => false
  end.

Definition eq (a b : num) : bool :=
  match a, b with
  | Fin p, Fin q => Qeq_bool p q
  | PInf, PInf | NInf, NInf => true
  | _, _ => false
  end.

Definition le (a b : num) : bool := lt a b || eq a b.
Definition gt (a b : num) : bool := lt b a.
Definition ge (a b : num) : bool := le b a.

(** [Math.max(a, b)] and [Math.min(a, b)]: [NaN] if either is. *)
Definition max (a b : num) : num :=
  match a, b with
  | NaN, _ | _, NaN => NaN
  | _, _ => if lt a b then b else a
  end.

Definition min (a b : num) : num :=
  match a, b with
  | NaN, _ | _, NaN => NaN
  | _, _ => if lt b a then b else a
  end.

Definition abs (a : num) : num :=
  match a with
  | Fin q => Fin (Qabs q)
  | PInf | NInf => PInf
  | NaN => NaN
  end.

(** The integer [n] as a number. *)
Definition of_Z (n : Z) : num := Fin (inject_Z n).
Definition of_nat (n : nat) : num := of_Z (Z.of_nat n).

(** Finite numbers, and relations on them up to equality of fractions. *)
Definition finite (a : num) : Prop :=
  match a with Fin _ => True | _ => False end.

Definition val (a : num) : Q :=
  match a with Fin q => q | _ => 0 end.

(** [a] is the finite number [q] (as a fraction, not as a representation). *)
Definition is_q (a : num) (q : Q) : Prop :=
  match a with Fin p => p == q | _ => False end.

End JS.

Declare Scope js_scope.
Delimit Scope js_scope with js.
Bind Scope js_scope with JS.num.
Infix "+" := JS.add : js_scope.
Infix "-" := JS.sub : js_scope.
Infix "*" := JS.mul : js_scope.
Infix "/" := JS.div : js_scope.
Infix "<?" := JS.lt : js_scope.
Infix "<=?" := JS.le : js_scope.
Infix ">?" := JS.gt : js_scope.
Infix ">=?" := JS.ge : js_scope.

(* ===================================================================== *)
(** ** Heatmap.ts: the squarified treemap *)
(* ===================================================================== *)

Module Heatmap.


Record HeatmapItem : Type := {
  id : option string;
  label : string;
  weight : JS.num;
  change : JS.num;
  sublabel : option string;
  group : option string
}.

Record LayoutRect : Type := {
  r_x : JS.num;
  r_y : JS.num;
  r_w : JS.num;
  r_h : JS.num;
  r_item : HeatmapItem
}.

(** [row.reduce((s, i) => s + i.weight, 0)] *)
Definition sumWeight (row : list HeatmapItem) : JS.num :=
  fold_left (fun s i => (s + weight i)%js) row JS.zero.

(** [items.slice().sort((a, b) => b.weight - a.weight)]: the sort is
    stable, so it is the stable insertion of each item by the comparator;
    an item moves behind a later one only where the comparator is
    positive ([NaN] counts as 0). *)
Definition cmpWeight (a b : HeatmapItem) : JS.num := (weight b - weight a)%js.

Fixpoint insertSorted (a : HeatmapItem) (l : list HeatmapItem)
  : list HeatmapItem :=
  match l with
  | [] => [a]
  | b :: l' =>
      if (cmpWeight a b >? JS.zero)%js then b :: insertSorted a l'
      else a :: b :: l'
  end.

Definition sortByWeight (items : list HeatmapItem) : list HeatmapItem :=
  fold_right insertSorted [] items.

Definition worst (row : list HeatmapItem) (w h area totalArea : JS.num) : JS.num :=
  let rowWeight := sumWeight row in
  let fraction := (rowWeight / totalArea)%js in
  let isWide := (w >=? h)%js in
  let side := if isWide then (fraction * w)%js else (fraction * h)%js in
  if (side <=? JS.zero)%js then JS.PInf
  else
    fold_left
      (fun maxR item =>
         let itemFrac := (weight item / rowWeight)%js in
         let other := if isWide then (itemFrac * h)%js else (itemFrac * w)%js in
         let r := JS.max (side / other)%js (other / side)%js in
         if (r >? maxR)%js then r else maxR)
      row JS.zero.

(** One iteration of the [for] loop of [layoutRow]: the state is the
    running [offset] and the output array. *)
Definition layoutCell (x y w h gap : JS.num) (isWide : bool) (rowWeight : JS.num)
    (st : JS.num * list LayoutRect) (item : HeatmapItem)
  : JS.num * list LayoutRect :=
  let '(offset, out) := st in
  let frac := (weight item / rowWeight)%js in
  let '(rx, ry, rw, rh, offset') :=
    if isWide then
      let rh := (frac * h)%js in
      (x, (y + offset)%js, w, rh, (offset + rh)%js)
    else
      let rw := (frac * w)%js in
      ((x + offset)%js, y, rw, h, (offset + rw)%js) in
  let g := (gap / JS.Fin 2)%js in
  (offset',
   out ++ [ {| r_x := (rx + g)%js;
               r_y := (ry + g)%js;
               r_w := JS.max JS.zero (rw - gap)%js;
               r_h := JS.max JS.zero (rh - gap)%js;
               r_item := item |} ]).

Definition layoutRow (row : list HeatmapItem) (x y w h totalArea : JS.num)
    (out : list LayoutRect) (gap : JS.num) : list LayoutRect :=
  match row with
  | [] => out
  | _ =>
      let rowWeight := sumWeight row in
      let isWide := (w >=? h)%js in
      snd (fold_left (layoutCell x y w h gap isWide rowWeight) row (JS.zero, out))
  end.

(** The recursion of [squarify] either consumes a child or empties a
    non-empty row. *)
Definition squarifyMeasure (children row : list HeatmapItem) : nat :=
  2 * List.length children + match row with [] => 0 | _ => 1 end.

Equations? squarify (children row : list HeatmapItem) (x y w h totalArea : JS.num)
    (out : list LayoutRect) (gap : JS.num) : list LayoutRect
    by wf (squarifyMeasure children row) lt :=
  squarify [] row x y w h totalArea out gap :=
    layoutRow row x y w h totalArea out gap;
  (* [row.length === 0]: the disjunction short-circuits *)
  squarify (c :: rest) [] x y w h totalArea out gap :=
    squarify rest ([] ++ [c]) x y w h totalArea out gap;
  squarify (c :: rest) (r :: row') x y w h totalArea out gap :=
    let row := r :: row' in
    let area := (w * h)%js in
    let newRow := row ++ [c] in
    if (worst newRow w h area totalArea <=? worst row w h area totalArea)%js
    then squarify rest newRow x y w h totalArea out gap
    else
      let rowWeight := sumWeight row in
      let fraction := (rowWeight / totalArea)%js in
      let isWide := (w >=? h)%js in
      if isWide then
        let rowW := (fraction * w)%js in
        squarify (c :: rest) [] (x + rowW)%js y (w - rowW)%js h
          (totalArea - rowWeight)%js
          (layoutRow row x y rowW h totalArea out gap) gap
      else
        let rowH := (fraction * h)%js in
        squarify (c :: rest) [] x (y + rowH)%js w (h - rowH)%js
          (totalArea - rowWeight)%js
          (layoutRow row x y w rowH totalArea out gap) gap.
Proof.
  all: unfold squarifyMeasure; cbn; lia.
Qed.

Definition layoutTreemap (items : list HeatmapItem) (x y w h gap : JS.num)
  : list LayoutRect :=
  match items with
  | [] => []
  | _ =>
      let sorted := sortByWeight items in
      let totalWeight := sumWeight sorted in
      if (totalWeight <=? JS.zero)%js then []
      else squarify sorted [] x y w h totalWeight [] gap
  end.

(** [Math.pow(x, 3)] *)
Definition pow3 (x : JS.num) : JS.num := (x * x * x)%js.

(** [ease(t, type)], which [Sparkline.ts] has too: a type that is neither
    ['easeOut'] nor ['easeInOut'] is linear. *)
Definition ease (t : JS.num) (type : string) : JS.num :=
  if String.eqb type "easeOut" then (JS.Fin 1 - pow3 (JS.Fin 1 - t))%js
  else if String.eqb type "easeInOut" then
    if (t <? JS.Fin (1 # 2))%js then (JS.Fin 4 * t * t * t)%js
    else (JS.Fin 1 - pow3 (JS.Fin (-2) * t + JS.Fin 2) / JS.Fin 2)%js
  else t.

Record HeatmapAnimationConfig : Type := {
  a_duration : option JS.num;
  a_easing : option string;
  a_style : option string
}.

(** One frame of [tick], [elapsed] after the start: the progress values
    [draw] is called with, in order, and whether another frame is
    requested. *)
Definition tick (cfg : HeatmapAnimationConfig) (elapsed : JS.num)
  : list JS.num * bool :=
  let duration := match a_duration cfg with Some d => d | None => JS.Fin 500 end in
  let raw := JS.min (JS.Fin 1) (elapsed / duration)%js in
  let prog :=
    ease raw (match a_easing cfg with Some e => e | None => "easeOut"%string end) in
  let first := if (prog <? JS.Fin 1)%js then prog else JS.PInf in
  if (prog >=? JS.Fin 1)%js then ([first; JS.PInf], false)
  else ([first], true).

(** The click listener: the item [onClick] is called with, if any; the
    first rectangle whose closed bounds hold the pointer wins. *)
Fixpoint clickedItem (rects : list LayoutRect) (cx cy : JS.num)
  : option HeatmapItem :=
  match rects with
  | [] => None
  | r :: rest =>
      if (cx >=? r_x r)%js && (cx <=? r_x r + r_w r)%js
         && (cy >=? r_y r)%js && (cy <=? r_y r + r_h r)%js
      then Some (r_item r)
      else clickedItem rest cx cy
  end.

End Heatmap.

(* ===================================================================== *)
(** ** The area chart: stacking and the hovered index *)
(* ===================================================================== *)

Module AreaChart.

(** [row[i] ?? 0]: an index past the end of the array reads [undefined]. *)
Definition at0 (row : list JS.num) (i : nat) : JS.num := nth i row JS.zero.

(** [vals[0]?.length ?? 0] *)
Definition width (vals : list (list JS.num)) : nat :=
  match vals with
  | [] => 0
  | row :: _ => List.length row
  end.

(** The outer loop of [computeStacked], from series [si] on: [prev] is
    [result[si - 1]], absent for the first series. *)
Fixpoint stackRows (n : nat) (prev : option (list JS.num))
    (vals : list (list JS.num)) : list (list JS.num) :=
  match vals with
  | [] => []
  | row :: rest =>
      let cur :=
        map (fun i =>
               ((match prev with Some p => at0 p i | None => JS.zero end)
                + at0 row i)%js)
            (seq 0 n) in
      cur :: stackRows n (Some cur) rest
  end.

Definition computeStacked (vals : list (list JS.num)) : list (list JS.num) :=
  stackRows (width vals) None vals.

Definition computeStackedExpanded (vals : list (list JS.num))
  : list (list JS.num) :=
  let cumulative := computeStacked vals in
  let n := width vals in
  map (fun crow =>
         map (fun i =>
                let total := at0 (last cumulative []) i in
                if (total >? JS.zero)%js
                then (at0 crow i / total * JS.Fin 100)%js
                else JS.zero)
             (seq 0 n))
      cumulative.

(** The state [findHoveredIndex] reads: the number of x labels, whether
    the y axis is shown, the device pixel ratio and the canvas width. *)
Record Plot : Type := {
  labels : nat;
  showYAxis : bool;
  dpr : JS.num;
  canvasWidth : JS.num
}.

Definition mLeft (p : Plot) : JS.num :=
  if showYAxis p then (JS.Fin 50 * dpr p)%js else (JS.Fin 16 * dpr p)%js.

Definition mRight (p : Plot) : JS.num := (JS.Fin 16 * dpr p)%js.

Definition plotW (p : Plot) : JS.num :=
  (canvasWidth p - mLeft p - mRight p)%js.

(** [Math.max(n - 1, 1)] on the label count. *)
Definition spans (p : Plot) : nat := Nat.max (labels p - 1) 1.

Definition toX (p : Plot) (i : nat) : JS.num :=
  (mLeft p + JS.of_nat i / JS.of_nat (spans p) * plotW p)%js.

Definition slotW (p : Plot) : JS.num :=
  if (1 <? labels p)%nat then (plotW p / JS.of_nat (labels p - 1))%js
  else plotW p.

(** The distance of the pointer from data point [i], in device pixels. *)
Definition distTo (p : Plot) (mx : JS.num) (i : nat) : JS.num :=
  JS.abs (mx * dpr p - toX p i)%js.

(** One iteration of the loop: the state is [(closestIdx, closestDist)]. *)
Definition hoverStep (p : Plot) (mx : JS.num) (st : Z * JS.num) (i : nat)
  : Z * JS.num :=
  let '(closestIdx, closestDist) := st in
  let dist := distTo p mx i in
  if (dist <? closestDist)%js && (dist <? slotW p * JS.Fin (6 # 10))%js
  then (Z.of_nat i, dist)
  else (closestIdx, closestDist).

Definition findHoveredIndex (p : Plot) (mx : JS.num) : Z :=
  match labels p with
  | O => (-1)%Z
  | _ => fst (fold_left (hoverStep p mx) (seq 0 (labels p)) ((-1)%Z, JS.PInf))
  end.

End AreaChart.

(* ===================================================================== *)
(** ** Theme: is the background light? *)
(* ===================================================================== *)

(** [isLightBg], [hexLuminance] and [parseLuminance] of [Heatmap.ts]; the
    other widgets carry the same three functions.  Strings are strings of
    bytes, and white space is the ASCII white space. *)
Module Theme.

Local Open Scope string_scope.
Local Open Scope Z_scope.

Definition code (c : ascii) : Z := Z.of_nat (nat_of_ascii c).

Definition isWhite (c : ascii) : bool :=
  let n := code c in ((9 <=? n) && (n <=? 13)) || (n =? 32).

Definition decDigit (c : ascii) : option Z :=
  let n := code c in
  if (48 <=? n) && (n <=? 57) then Some (n - 48) else None.

Definition hexDigit (c : ascii) : option Z :=
  let n := code c in
  if (48 <=? n) && (n <=? 57) then Some (n - 48)
  else if (65 <=? n) && (n <=? 70) then Some (n - 55)
  else if (97 <=? n) && (n <=? 102) then Some (n - 87)
  else None.

Fixpoint skipWhite (s : string) : string :=
  match s with
  | String c s' => if isWhite c then skipWhite s' else s
  | EmptyString => s
  end.

(** The value of the longest prefix of digits of [s], and what follows
    it; [acc] is [None] until a digit has been read. *)
Fixpoint readDigits (digit : ascii -> option Z) (radix : Z) (acc : option Z)
    (s : string) : option Z * string :=
  match s with
  | String c s' =>
      match digit c with
      | Some v =>
          readDigits digit radix
            (Some (match acc with Some a => a | None => 0 end * radix + v)) s'
      | None => (acc, s)
      end
  | EmptyString => (acc, s)
  end.

(** [parseInt(s, 16)]: leading white space, a sign, an optional [0x], then
    the longest run of hexadecimal digits; [NaN] when there is none. *)
Definition parseInt16 (s : string) : JS.num :=
  let s1 := skipWhite s in
  let '(sign, s2) :=
    match s1 with
    | String "-"%char r => (-1, r)
    | String "+"%char r => (1, r)
    | _ => (1, s1)
    end in
  let s3 :=
    match s2 with
    | String "0"%char (String "x"%char r) => r
    | String "0"%char (String "X"%char r) => r
    | _ => s2
    end in
  match fst (readDigits hexDigit 16 None s3) with
  | Some v => JS.of_Z (sign * v)
  | None => JS.NaN
  end.

(** [a || 0] on a number: [NaN] and [0] are falsy. *)
Definition orZero (a : JS.num) : JS.num :=
  match a with
  | JS.NaN => JS.zero
  | JS.Fin q => if Qeq_bool q 0 then JS.zero else a
  | _ => a
  end.

(** [s.startsWith('#')] *)
Definition startsWithHash (s : string) : bool := prefix "#" s.

(** [s.replace('#', '')]: the first occurrence only. *)
Fixpoint removeFirstHash (s : string) : string :=
  match s with
  | String c s' =>
      if Ascii.eqb c "#"%char then s' else String c (removeFirstHash s')
  | EmptyString => EmptyString
  end.

(** [s.substring(a, b)] for [a <= b]. *)
Definition substring (a b : nat) (s : string) : string :=
  String.substring a (b - a) s.

(** [(r * 299 + g * 587 + b * 114) / 1000 > 150] *)
Definition luminanceAbove150 (r g b : JS.num) : bool :=
  ((r * JS.Fin 299 + g * JS.Fin 587 + b * JS.Fin 114) / JS.Fin 1000
   >? JS.Fin 150)%js.

Definition hexLuminance (bg : string) : bool :=
  if startsWithHash bg then
    let hex := removeFirstHash bg in
    let r := orZero (parseInt16 (substring 0 2 hex)) in
    let g := orZero (parseInt16 (substring 2 4 hex)) in
    let b := orZero (parseInt16 (substring 4 6 hex)) in
    luminanceAbove150 r g b
  else false.

(** [\d+]: at least one decimal digit, as many as there are. *)
Definition digits (s : string) : option (Z * string) :=
  match readDigits decDigit 10 None s with
  | (Some v, rest) => Some (v, rest)
  | (None, _) => None
  end.

(** [/rgba?\(\s*(\d+),\s*(\d+),\s*(\d+)/] anchored at the start of [s]:
    the three captured numbers. *)
Definition matchRgbAt (s : string) : option (Z * Z * Z) :=
  match s with
  | String "r"%char (String "g"%char (String "b"%char t)) =>
      let t1 := match t with String "a"%char t' => t' | _ => t end in
      match t1 with
      | String "("%char t2 =>
          match digits (skipWhite t2) with
          | Some (r, String ","%char t3) =>
              match digits (skipWhite t3) with
              | Some (g, String ","%char t4) =>
                  match digits (skipWhite t4) with
                  | Some (b, _) => Some (r, g, b)
                  | None => None
                  end
              | _ => None
              end
          | _ => None
          end
      | _ => None
      end
  | _ => None
  end.

(** [color.match(...)]: the leftmost match. *)
Fixpoint matchRgb (s : string) : option (Z * Z * Z) :=
  match matchRgbAt s with
  | Some m => Some m
  | None =>
      match s with
      | String _ s' => matchRgb s'
      | EmptyString => None
      end
  end.

Definition parseLuminance (color : string) : bool :=
  if startsWithHash color then hexLuminance color
  else
    match matchRgb color with
    | Some (r, g, b) =>
        luminanceAbove150 (JS.of_Z r) (JS.of_Z g) (JS.of_Z b)
    | None => false
    end.

(** The walk up the ancestors: [chain] lists the computed background
    colour of the element, then of its parent, and so on to the root. *)
Fixpoint ambientLuminance (chain : list string) : bool :=
  match chain with
  | [] => false
  | c :: ancestors =>
      if negb (String.eqb c EmptyString)
         && negb (String.eqb c "transparent")
         && negb (String.eqb c "rgba(0, 0, 0, 0)")
      then parseLuminance c
      else ambientLuminance ancestors
  end.

(** [el] is the chain of the optional element. *)
Definition isLightBg (bg : string) (el : option (list string)) : bool :=
  match el with
  | Some chain =>
      if String.eqb bg "transparent" then ambientLuminance chain
      else hexLuminance bg
  | None => hexLuminance bg
  end.

End Theme.

(* ===================================================================== *)
(** ** Heatmap.ts: colours *)
(* ===================================================================== *)

Module HeatmapColor.

Import Theme.
Local Open Scope string_scope.
Local Open Scope Z_scope.

(** The conversion to a signed 32-bit integer that [>>] and [&] apply to
    their operands. *)
Definition toInt32 (a : JS.num) : Z :=
  match a with
  | JS.Fin q =>
      (Z.quot (Qnum q) (Z.pos (Qden q)) + 2 ^ 31) mod 2 ^ 32 - 2 ^ 31
  | _ => 0
  end.

(** [if (h.length === 3) h = h[0] + h[0] + h[1] + h[1] + h[2] + h[2]] *)
Definition expand3 (h : string) : string :=
  match h with
  | String a (String b (String c EmptyString)) =>
      String a (String a (String b (String b (String c (String c EmptyString)))))
  | _ => h
  end.

Definition parseHex (hex : string) : Z * Z * Z :=
  let h := expand3 (removeFirstHash hex) in
  let n := toInt32 (parseInt16 h) in
  (Z.land (Z.shiftr n 16) 255, Z.land (Z.shiftr n 8) 255, Z.land n 255).

(** The values of [Math.round]: an integer, an infinity or [NaN]. *)
Inductive rounded : Type :=
| RInt (z : Z)
| RPInf
| RNInf
| RNaN.

(** [Math.round(x)]: the nearest integer, a half rounding up. *)
Definition round (a : JS.num) : rounded :=
  match a with
  | JS.Fin q => RInt (Qfloor (q + (1 # 2)))
  | JS.PInf => RPInf
  | JS.NInf => RNInf
  | JS.NaN => RNaN
  end.

(** A natural number in decimal. *)
Definition natStr (n : nat) : string :=
  DecimalString.NilZero.string_of_uint (Nat.to_uint n).

(** A rounded number in a template literal (an integer of 21 digits or
    more prints with an exponent, which is not modelled). *)
Definition roundedStr (r : rounded) : string :=
  match r with
  | RInt z =>
      if z <? 0 then "-" ++ natStr (Z.to_nat (- z)) else natStr (Z.to_nat z)
  | RPInf => "Infinity"
  | RNInf => "-Infinity"
  | RNaN => "NaN"
  end.

(** [Math.round(ca + (cb - ca) * t)] *)
Definition lerpChannel (ca cb : Z) (t : JS.num) : rounded :=
  round (JS.of_Z ca + (JS.of_Z cb - JS.of_Z ca) * t)%js.

(** [`rgb(${r},${g},${bl})`] *)
Definition rgbStr (r g b : rounded) : string :=
  "rgb(" ++ roundedStr r ++ "," ++ roundedStr g ++ "," ++ roundedStr b ++ ")".

Definition lerpColor (a b : string) (t : JS.num) : string :=
  let '(a0, a1, a2) := parseHex a in
  let '(b0, b1, b2) := parseHex b in
  rgbStr (lerpChannel a0 b0 t) (lerpChannel a1 b1 t) (lerpChannel a2 b2 t).

Definition changeToColor (change maxChange : JS.num)
    (posColor negColor neutralColor : string) : string :=
  let t := JS.min (JS.Fin 1) (JS.abs change / maxChange)%js in
  let target := if (change >=? JS.zero)%js then posColor else negColor in
  lerpColor neutralColor target t.

End HeatmapColor.

(* ===================================================================== *)
(** ** Heatmap.ts: what [draw] paints *)
(* ===================================================================== *)

Module HeatmapDraw.

Import Heatmap HeatmapColor.
Local Open Scope string_scope.

Record Options : Type := {
  data : list HeatmapItem;
  maxChange : JS.num;
  positiveColor : string;
  negativeColor : string;
  neutralColor : string;
  gap : JS.num;
  borderRadius : JS.num;
  animation : option HeatmapAnimationConfig
}.

(** [cfg && (cfg.style === 'fade' || cfg.style === 'grow')] *)
Definition styled (cfg : option HeatmapAnimationConfig) : bool :=
  match cfg with
  | Some a =>
      match a_style a with
      | Some s => String.eqb s "fade" || String.eqb s "grow"
      | None => false
      end
  | None => false
  end.

(** [cfg!.style === 'grow'] *)
Definition growing (cfg : option HeatmapAnimationConfig) : bool :=
  match cfg with
  | Some a =>
      match a_style a with
      | Some s => String.eqb s "grow"
      | None => false
      end
  | None => false
  end.

(** The text of a cell: none; the label in a large font, with the change
    below it when [hasSub] and the sublabel below that when [third]; or
    the label alone in a small font.  Each has its font size, the centre
    of the label and the greatest width of the text. *)
Inductive Label : Type :=
| NoLabel
| Large (fontSize centerX centerY maxWidth : JS.num) (hasSub third : bool)
| Small (fontSize centerX centerY maxWidth : JS.num).

Record Cell : Type := {
  cell_x : JS.num;
  cell_y : JS.num;
  cell_w : JS.num;
  cell_h : JS.num;
  cell_alpha : JS.num;
  cell_color : string;
  cell_label : Label;
  cell_item : HeatmapItem
}.

(** A string is truthy when there is one and it is not empty. *)
Definition truthy (s : option string) : bool :=
  match s with
  | Some t => negb (String.eqb t EmptyString)
  | None => false
  end.

Section Draw.

Variable opts : Options.
Variable dpr : JS.num.
Variable animProgress : JS.num.

Definition isAnimating : bool :=
  (animProgress <? JS.Fin 1)%js && styled (animation opts).

Definition labelOf (r : LayoutRect) : Label :=
  let minW := (JS.Fin 40 * dpr)%js in
  let minH := (JS.Fin 28 * dpr)%js in
  if (r_w r >=? minW)%js && (r_h r >=? minH)%js then
    let fontSize :=
      JS.min (JS.min (JS.Fin 14 * dpr)%js (r_w r / JS.Fin 4)%js)
             (r_h r / JS.Fin 3)%js in
    let centerX := (r_x r + r_w r / JS.Fin 2)%js in
    let centerY := (r_y r + r_h r / JS.Fin 2)%js in
    let hasSub := (r_h r >=? minH * JS.Fin (15 # 10))%js in
    let centerY :=
      if hasSub then (centerY - fontSize * JS.Fin (4 # 10))%js
      else centerY in
    Large fontSize centerX centerY (r_w r - JS.Fin 8 * dpr)%js hasSub
          (truthy (sublabel (r_item r))
           && (r_h r >=? minH * JS.Fin 2)%js)
  else if (r_w r >=? JS.Fin 20 * dpr)%js && (r_h r >=? JS.Fin 14 * dpr)%js
  then
    Small (JS.min (JS.min (JS.Fin 9 * dpr)%js (r_w r / JS.Fin 3)%js)
                  (r_h r * JS.Fin (7 # 10))%js)
          (r_x r + r_w r / JS.Fin 2)%js (r_y r + r_h r / JS.Fin 2)%js
          (r_w r - JS.Fin 4 * dpr)%js
  else NoLabel.

(** The body of the loop over the rectangles: nothing for a rectangle
    less than one pixel wide or high. *)
Definition drawCell (r : LayoutRect) : option Cell :=
  if (r_w r <? JS.Fin 1)%js || (r_h r <? JS.Fin 1)%js then None
  else
    let prog := animProgress in
    let grown := isAnimating && growing (animation opts) in
    let drawW := if grown then (r_w r * prog)%js else r_w r in
    let drawH := if grown then (r_h r * prog)%js else r_h r in
    let drawX :=
      if grown then (r_x r + r_w r / JS.Fin 2 - drawW / JS.Fin 2)%js
      else r_x r in
    let drawY :=
      if grown then (r_y r + r_h r / JS.Fin 2 - drawH / JS.Fin 2)%js
      else r_y r in
    let alpha :=
      if isAnimating && negb (growing (animation opts)) then prog
      else JS.Fin 1 in
    let showLabels := negb isAnimating || (animProgress >=? JS.Fin 1)%js in
    Some {| cell_x := drawX; cell_y := drawY;
            cell_w := drawW; cell_h := drawH;
            cell_alpha := alpha;
            cell_color :=
              changeToColor (change (r_item r)) (maxChange opts)
                (positiveColor opts) (negativeColor opts)
                (neutralColor opts);
            cell_label := if showLabels then labelOf r else NoLabel;
            cell_item := r_item r |}.

Fixpoint cells (rects : list LayoutRect) : list Cell :=
  match rects with
  | [] => []
  | r :: rest =>
      match drawCell r with
      | Some cl => cl :: cells rest
      | None => cells rest
      end
  end.

(** [draw(animProgress)] on a canvas of [w] by [h]: the rectangles it
    stores for the click listener and the cells it paints. *)
Definition draw (w h : JS.num) : list LayoutRect * list Cell :=
  let rects :=
    layoutTreemap (data opts) (JS.Fin 0) (JS.Fin 0) w h (gap opts * dpr)%js in
  (rects, cells rects).

End Draw.

(** [startAnimation], and what the factory, [setData] and [setOptions] do
    before it: without a style ['fade'] or ['grow'] the chart is drawn
    once, complete; otherwise frames run. *)
Definition startAnimation (opts : Options) : bool :=
  styled (animation opts).

End HeatmapDraw.

(* ===================================================================== *)
(** ** BarChart.ts: the staggered animation *)
(* ===================================================================== *)

(** The easings call [Math.exp] and [Math.cos], so this part is over the
    real numbers.  An elapsed time is a real or the [Infinity] that
    [drawStatic] and the last frame pass to [draw]. *)
Module BarChart.

Local Open Scope string_scope.
Local Open Scope R_scope.

Inductive Elapsed : Type :=
| Finite (e : R)
| Infinity.

Definition linear (t : R) : R := t.

Definition easeOut (t : R) : R := 1 - (1 - t) ^ 3.

Definition easeInOut (t : R) : R :=
  if Rlt_dec t (1 / 2) then 4 * t * t * t else 1 - (-2 * t + 2) ^ 3 / 2.

Definition spring (t : R) : R := 1 - exp (-6 * t) * cos (65 / 10 * t).

(** The table [EASINGS], by name; a name of none of the four easings has
    no entry. *)
Definition EASINGS (name : string) : option (R -> R) :=
  if String.eqb name "linear" then Some linear
  else if String.eqb name "easeOut" then Some easeOut
  else if String.eqb name "easeInOut" then Some easeInOut
  else if String.eqb name "spring" then Some spring
  else None.

Record BarAnimationConfig : Type := {
  cfg_duration : option R;
  cfg_easing : option string;
  cfg_delay : option R;
  cfg_style : option string
}.

(** The argument of [resolveAnim]: absent or [false], [true], or a
    configuration. *)
Inductive RawAnim : Type :=
| RawOff
| RawTrue
| RawConfig (cfg : BarAnimationConfig).

Record ResolvedAnim : Type := {
  enabled : bool;
  duration : R;
  easing : R -> R;
  delay : R;
  style : string
}.

(** [a ?? b] *)
Definition orElse {A : Type} (a : option A) (b : A) : A :=
  match a with Some v => v | None => b end.

Definition resolveAnim (raw : RawAnim) : ResolvedAnim :=
  match raw with
  | RawOff =>
      {| enabled := false; duration := 0; easing := linear; delay := 0;
         style := "none" |}
  | _ =>
      let cfg :=
        match raw with
        | RawConfig c => c
        | _ => {| cfg_duration := None; cfg_easing := None;
                  cfg_delay := None; cfg_style := None |}
        end in
      {| enabled := negb (String.eqb (orElse (cfg_style cfg) "grow") "none");
         duration := orElse (cfg_duration cfg) 600;
         easing := orElse (EASINGS (orElse (cfg_easing cfg) "easeOut")) easeOut;
         delay := orElse (cfg_delay cfg) 30;
         style := orElse (cfg_style cfg) "grow" |}
  end.

(** [anim.duration + anim.delay * Math.max(0, numBars - 1)] *)
Definition totalTime (anim : ResolvedAnim) (numBars : nat) : R :=
  duration anim + delay anim * INR (Nat.max 0 (numBars - 1)).

Definition globalDone (anim : ResolvedAnim) (numBars : nat) (elapsed : R)
  : bool :=
  if Rge_dec elapsed (totalTime anim numBars) then true else false.

(** One frame of [tick]: the elapsed times [draw] is called with, in
    order, and whether another frame is requested. *)
Definition tick (anim : ResolvedAnim) (numBars : nat) (elapsed : R)
  : list Elapsed * bool :=
  if globalDone anim numBars elapsed
  then ([Finite elapsed; Infinity], false)
  else ([Finite elapsed], true).

(** The division of the reals is total; the quotient stands for the one
    of the source when the duration is not 0. *)
Definition barProgress (anim : ResolvedAnim) (catIdx : nat)
    (elapsed : Elapsed) : R :=
  if negb (enabled anim) then 1
  else
    match elapsed with
    | Infinity => 1
    | Finite e =>
        let barElapsed := Rmax 0 (e - delay anim * INR catIdx) in
        let raw := Rmin 1 (barElapsed / duration anim) in
        easing anim raw
    end.

End BarChart.

(* ===================================================================== *)
(** ** Sparkline.ts: the donut chart *)
(* ===================================================================== *)

Module Donut.

Import BarChart.
Local Open Scope R_scope.

(** [sliceProgress]; the donut resolves its animation into the same
    record as the bar chart. *)
Definition sliceProgress (anim : ResolvedAnim) (sliceIdx : nat)
    (elapsed : Elapsed) : R :=
  if negb (enabled anim) then 1
  else
    match elapsed with
    | Infinity => 1
    | Finite e =>
        let sliceElapsed := Rmax 0 (e - delay anim * INR sliceIdx) in
        let raw := Rmin 1 (sliceElapsed / duration anim) in
        easing anim raw
    end.

(** The geometry cached by the last draw. *)
Record Geometry : Type := {
  chartCx : R;
  chartCy : R;
  outerR : R;
  innerR : R;
  dpr : R;
  sliceAngles : list (R * R)
}.

(** [Math.atan2(y, x)], the angle of the point [(x, y)] in [(-PI, PI]];
    the sign of a zero is not distinguished. *)
Definition atan2 (y x : R) : R :=
  if Rlt_dec 0 x then atan (y / x)
  else if Rlt_dec x 0 then
    if Rle_dec 0 y then atan (y / x) + PI else atan (y / x) - PI
  else if Rlt_dec 0 y then PI / 2
  else if Rlt_dec y 0 then - (PI / 2)
  else 0.

(** The slice angles [drawPrimaryRing] computes from the values, which it
    does when there are values and their total is positive: they start
    at [-PI / 2], and each slice sweeps its share of the turn. *)
Fixpoint slicesFrom (angle total : R) (values : list R) : list (R * R) :=
  match values with
  | [] => []
  | v :: rest =>
      let sweep := v / total * PI * 2 in
      (angle, angle + sweep) :: slicesFrom (angle + sweep) total rest
  end.

Definition total (values : list R) : R :=
  fold_left (fun s v => s + v) values 0.

Definition computeSliceAngles (values : list R) : list (R * R) :=
  slicesFrom (- PI / 2) (total values) values.

Definition distance (g : Geometry) (x y : R) : R :=
  let dx := x - chartCx g in
  let dy := y - chartCy g in
  sqrt (dx * dx + dy * dy).

(** The pointer angle after [if (angle < -Math.PI / 2) angle += Math.PI * 2]. *)
Definition pointerAngle (g : Geometry) (x y : R) : R :=
  let angle := atan2 (y - chartCy g) (x - chartCx g) in
  if Rlt_dec angle (- PI / 2) then angle + PI * 2 else angle.

(** The [for] loop of [hitTest], from index [i] on. *)
Fixpoint findSlice (angle : R) (slices : list (R * R)) (i : nat) : Z :=
  match slices with
  | [] => (-1)%Z
  | (s, e) :: rest =>
      if Rge_dec angle s then
        if Rlt_dec angle e then Z.of_nat i else findSlice angle rest (S i)
      else findSlice angle rest (S i)
  end.

Definition hitTest (g : Geometry) (x y : R) : Z :=
  let dist := distance g x y in
  if Rlt_dec dist (innerR g) then (-1)%Z
  else if Rgt_dec dist (outerR g + 8 * dpr g) then (-1)%Z
  else findSlice (pointerAngle g x y) (sliceAngles g) 0.

End Donut.

(* ===================================================================== *)
(** ** Sparkline.ts: the layout of the donut chart *)
(* ===================================================================== *)

Module DonutRing.

Import Donut.
Local Open Scope R_scope.

(** The options [drawPrimaryRing] reads: the values of the slices, the
    ratio of the inner radius, whether the legend is shown, and whether
    labels are drawn outside the ring
    ([labelPosition === 'outside' && labelType !== 'none']). *)
Record Chart : Type := {
  values : list R;
  innerRadiusRatio : R;
  showLegend : bool;
  outsideLabels : bool
}.

Section Ring.

Variable c : Chart.
Variables w h : R.
Variable g : Geometry.

(** [Math.ceil(Math.min(data.length, 12) / 6)], on natural numbers. *)
Definition legendRows : nat :=
  if showLegend c then (Nat.min (List.length (values c)) 12 + 5) / 6
  else 0%nat.

Definition legendRowH : R := 18 * dpr g.
Definition legendGap : R := if showLegend c then 10 * dpr g else 0.
Definition legendBlockH : R := INR legendRows * legendRowH.
Definition outsideLabelPad : R := if outsideLabels c then 60 * dpr g else 0.
Definition hoverPad : R := 8 * dpr g.
Definition availH : R := h - legendGap - legendBlockH - hoverPad * 2.
Definition availW : R := w - hoverPad * 2 - outsideLabelPad * 2.
Definition diameter : R := Rmin availW availH.
Definition compositionH : R := diameter + legendGap + legendBlockH.
Definition topOffset : R := (h - compositionH) / 2.
Definition legendTop : R := topOffset + diameter + legendGap.

(** The geometry that [drawPrimaryRing] leaves for [hitTest]: it returns
    before it touches it when there are no data or their total is not
    positive. *)
Definition drawPrimaryRing : Geometry :=
  match values c with
  | [] => g
  | _ =>
      if Rle_dec (total (values c)) 0 then g
      else
        let outer := Rmax (diameter / 2) 10 in
        {| chartCx := w / 2;
           chartCy := topOffset + outer;
           outerR := outer;
           innerR := outer * innerRadiusRatio c;
           dpr := dpr g;
           sliceAngles := computeSliceAngles (values c) |}
  end.

(** [drawLegend]: the centre of the dot of the legend item [i]. *)
Definition legendItem (i : nat) : R * R :=
  let colsPerRow := Nat.min (List.length (values c)) 6 in
  let itemW := Rmin (110 * dpr g) ((w - 24 * dpr g) / INR colsPerRow) in
  let totalLegendW := itemW * INR colsPerRow in
  let startX := (w - totalLegendW) / 2 in
  let col := (i mod colsPerRow)%nat in
  let row := (i / colsPerRow)%nat in
  let x := startX + INR col * itemW in
  let y := legendTop + INR row * legendRowH + legendRowH / 2 in
  (x + 4 * dpr g, y).

(** The items of the legend, when it is drawn. *)
Definition legend : list (R * R) :=
  if showLegend c && (0 <? legendRows)%nat
  then map legendItem (seq 0 (Nat.min (List.length (values c)) 12))
  else [].

End Ring.

End DonutRing.

(* ===================================================================== *)
(** ** Sparkline.ts: the nested rings of the donut chart *)
(* ===================================================================== *)

Module DonutStacked.

Import Donut.
Local Open Scope R_scope.

Section Rings.

(** The values of the slices of each ring, the outermost ring first. *)
Variable rings : list (list R).
Variable showLegend : bool.
Variables w h : R.
Variable g : Geometry.

Definition numRings : nat := List.length rings.

(** [rings[0]] *)
Definition outerRingSlices : list R := hd [] rings.

Definition legendRows : nat :=
  if showLegend then (Nat.min (List.length outerRingSlices) 12 + 5) / 6
  else 0%nat.

Definition legendGap : R := if showLegend then 10 * dpr g else 0.
Definition legendBlockH : R := INR legendRows * (18 * dpr g).
Definition hoverPad : R := 8 * dpr g.
Definition availH : R := h - legendGap - legendBlockH - hoverPad * 2.
Definition availW : R := w - hoverPad * 2.
Definition diameter : R := Rmin availW availH.
Definition maxR : R := Rmax (diameter / 2) 10.
Definition compositionH : R := diameter + legendGap + legendBlockH.
Definition topOffset : R := (h - compositionH) / 2.

Definition ringGap : R := 3 * dpr g.
Definition totalRingSpace : R := maxR - maxR * (3 / 10).
Definition ringWidth : R :=
  (totalRingSpace - ringGap * (INR numRings - 1)) / INR numRings.

Definition ringOuterR (ri : nat) : R := maxR - INR ri * (ringWidth + ringGap).
Definition ringInnerR (ri : nat) : R := ringOuterR ri - ringWidth.

(** The geometry that [drawStackedRings] leaves for [hitTest]: the
    centre and the radii always, the slice angles of the outermost ring
    when its total is positive. *)
Definition drawStackedRings : Geometry :=
  match rings with
  | [] => g
  | ring0 :: _ =>
      {| chartCx := w / 2;
         chartCy := topOffset + maxR;
         outerR := maxR;
         innerR := maxR * (3 / 10);
         dpr := dpr g;
         sliceAngles :=
           if Rle_dec (total ring0) 0 then sliceAngles g
           else computeSliceAngles ring0 |}
  end.

End Rings.

End DonutStacked.

(* ===================================================================== *)
(** ** BarChart.ts: the simple (single-value) chart *)
(* ===================================================================== *)

(** The geometry of the bars and the rectangles they register for the
    pointer, over the real numbers as the animation is. *)
Module BarSimple.

Import BarChart.
Local Open Scope string_scope.
Local Open Scope R_scope.

Record BarDataPoint : Type := {
  label : string;
  value : R;
  color : option string
}.

Record HitRect : Type := {
  hit_x : R;
  hit_y : R;
  hit_w : R;
  hit_h : R;
  catIdx : nat;
  seriesIdx : Z;
  hit_label : string;
  hit_value : R;
  hit_color : string;
  seriesKey : string
}.

(** The options and the state that the simple chart reads;
    [measureText] is the width the canvas reports for a label. *)
Record Chart : Type := {
  data : list BarDataPoint;
  horizontal : bool;
  gap : R;
  dpr : R;
  showLabels : bool;
  autoColor : bool;
  positiveColor : string;
  negativeColor : string;
  barColor : string;
  anim : ResolvedAnim;
  measureText : string -> R
}.

(** A string is truthy when it is not empty. *)
Definition resolveBarColor (c : Chart) (d : BarDataPoint) : string :=
  match color d with
  | Some s =>
      if negb (String.eqb s EmptyString) then s
      else if autoColor c then
        if Rge_dec (value d) 0 then positiveColor c else negativeColor c
      else barColor c
  | None =>
      if autoColor c then
        if Rge_dec (value d) 0 then positiveColor c else negativeColor c
      else barColor c
  end.

(** The loop over the values, from [vMin = 0, vMax = 0]. *)
Definition valueLoop (ds : list BarDataPoint) (acc : R * R) : R * R :=
  fold_left
    (fun (mm : R * R) (d : BarDataPoint) =>
       let vMin := if Rlt_dec (value d) (fst mm) then value d else fst mm in
       let vMax := if Rgt_dec (value d) (snd mm) then value d else snd mm in
       (vMin, vMax))
    ds acc.

Record Scale : Type := {
  vMin : R;
  vMax : R;
  totalRange : R
}.

(** The value range of [drawSimpleChart], with its tenth of headroom at
    each end. *)
Definition valueScale (ds : list BarDataPoint) : Scale :=
  let '(lo, hi) := valueLoop ds (0, 0) in
  let lo := if Rgt_dec lo 0 then 0 else lo in
  let hi := if Rlt_dec hi 0 then 0 else hi in
  let vRange := if Req_dec_T (hi - lo) 0 then 1 else hi - lo in
  let hi' := hi + vRange * (1 / 10) in
  let lo' := lo - vRange * (1 / 10) in
  {| vMin := lo'; vMax := hi'; totalRange := hi' - lo' |}.

Record Margins : Type := {
  mLeft : R;
  mRight : R;
  mTop : R;
  mBottom : R
}.

(** [Math.max(...ws)] of a list that is not empty. *)
Definition maxOf (ws : list R) : R :=
  match ws with
  | [] => 0
  | w :: rest => fold_left Rmax rest w
  end.

Definition margins (c : Chart) : Margins :=
  if horizontal c then
    let maxLabelW :=
      if showLabels c
      then maxOf (map (fun d => measureText c (label d)) (data c)) + 8 * dpr c
      else 0 in
    {| mLeft := Rmax maxLabelW (30 * dpr c);
       mRight := 16 * dpr c;
       mTop := 16 * dpr c;
       mBottom := 28 * dpr c |}
  else
    {| mLeft := 50 * dpr c;
       mRight := 16 * dpr c;
       mTop := 20 * dpr c;
       mBottom := (if showLabels c then 36 * dpr c else 12 * dpr c) + 0 |}.

Definition plotW (c : Chart) (w : R) : R :=
  w - mLeft (margins c) - mRight (margins c).

Definition plotH (c : Chart) (h : R) : R :=
  h - mTop (margins c) - mBottom (margins c).

Section Bars.

Variable c : Chart.
Variables w h : R.
Variable elapsed : Elapsed.

Let m : Margins := margins c.
Let s : Scale := valueScale (data c).
Let n : nat := List.length (data c).

(** [toY] of [drawVerticalSimple] and [toX] of [drawHorizontalSimple]. *)
Definition toY (v : R) : R :=
  mTop m + (1 - (v - vMin s) / totalRange s) * plotH c h.

Definition toX (v : R) : R :=
  mLeft m + (v - vMin s) / totalRange s * plotW c w.

(** The rectangle that the loop of [drawVerticalSimple] pushes for the
    bar [i]. *)
Definition verticalBar (i : nat) (d : BarDataPoint) : HitRect :=
  let zeroY := toY 0 in
  let totalBarW := plotW c w / INR n in
  let gapPx := totalBarW * gap c in
  let barW := totalBarW - gapPx in
  let prog := barProgress (anim c) i elapsed in
  let animVal := value d * prog in
  let x := mLeft m + INR i * totalBarW + gapPx / 2 in
  let valY := toY animVal in
  let barTop := if Rge_dec animVal 0 then valY else zeroY in
  let barH := Rmax 0 (Rabs (valY - zeroY)) in
  {| hit_x := x; hit_y := barTop; hit_w := barW; hit_h := barH;
     catIdx := i; seriesIdx := (-1)%Z; hit_label := label d;
     hit_value := value d; hit_color := resolveBarColor c d;
     seriesKey := EmptyString |}.

(** The same for [drawHorizontalSimple]. *)
Definition horizontalBar (i : nat) (d : BarDataPoint) : HitRect :=
  let zeroX := toX 0 in
  let totalSlotH := plotH c h / INR n in
  let gapPx := totalSlotH * gap c in
  let barH := totalSlotH - gapPx in
  let prog := barProgress (anim c) i elapsed in
  let animVal := value d * prog in
  let y := mTop m + INR i * totalSlotH + gapPx / 2 in
  let valX := toX animVal in
  let barLeft := if Rge_dec animVal 0 then zeroX else valX in
  let barW := Rmax 0 (Rabs (valX - zeroX)) in
  {| hit_x := barLeft; hit_y := y; hit_w := barW; hit_h := barH;
     catIdx := i; seriesIdx := (-1)%Z; hit_label := label d;
     hit_value := value d; hit_color := resolveBarColor c d;
     seriesKey := EmptyString |}.

(** The loop [for (let i = 0; i < n; i++)], from the bar [i] on. *)
Fixpoint bars (i : nat) (ds : list BarDataPoint) : list HitRect :=
  match ds with
  | [] => []
  | d :: rest =>
      (if horizontal c then horizontalBar i d else verticalBar i d)
      :: bars (S i) rest
  end.

(** The rectangles [hits] holds after [drawSimpleChart]: it returns
    before it resets them when there are no data. *)
Definition drawSimpleChart (hits : list HitRect) : list HitRect :=
  match data c with
  | [] => hits
  | _ => bars 0 (data c)
  end.

End Bars.

(** The test of [onMouseMove] and [onMouseClick] for one rectangle. *)
Definition contains (r : HitRect) (mx my : R) : bool :=
  if Rge_dec mx (hit_x r) then
    if Rle_dec mx (hit_x r + hit_w r) then
      if Rge_dec my (hit_y r) then
        if Rle_dec my (hit_y r + hit_h r) then true else false
      else false
    else false
  else false.

(** The index [hit] that [onMouseMove] finds, from the index [i] on. *)
Fixpoint hitFrom (hits : list HitRect) (mx my : R) (i : nat) : Z :=
  match hits with
  | [] => (-1)%Z
  | r :: rest =>
      if contains r mx my then Z.of_nat i else hitFrom rest mx my (S i)
  end.

(** The arguments [onMouseClick] passes to [onClick], if it calls it:
    the item and its category index. *)
Fixpoint onMouseClick (hits : list HitRect) (mx my : R)
  : option (string * R * string * nat) :=
  match hits with
  | [] => None
  | r :: rest =>
      if contains r mx my
      then Some (hit_label r, hit_value r, hit_color r, catIdx r)
      else onMouseClick rest mx my
  end.

(** [positionTooltip]: the left and top of a tooltip of size [tw] by
    [th] for the pointer [(cx, cy)] in a container of width [cw]. *)
Definition positionTooltip (tw th cw cx cy : R) : R * R :=
  let left := cx - tw / 2 in
  let top := cy - th - 12 in
  let left := if Rlt_dec left 4 then 4 else left in
  let left := if Rgt_dec (left + tw) (cw - 4) then cw - tw - 4 else left in
  let top := if Rlt_dec top 4 then cy + 16 else top in
  (left, top).

End BarSimple.

(* ===================================================================== *)
(** ** BarChart.ts: the series chart, grouped or stacked *)
(* ===================================================================== *)

Module BarSeries.

Import BarChart BarSimple.
Local Open Scope string_scope.
Local Open Scope R_scope.

(** A data point of a series chart; [values] and [colors] list the
    properties of the objects in the order [Object.keys] gives them, and
    [colors] is empty when the object is absent. *)
Record BarSeriesDataPoint : Type := {
  s_label : string;
  values : list (string * R);
  colors : list (string * string)
}.

Definition PALETTE : list string :=
  [ "#2962ff"; "#26a69a"; "#ef5350"; "#FFD700"; "#A78BFA"; "#F472B6";
    "#4ECDC4"; "#FF6B6B"; "#38bdf8"; "#fb923c"; "#a3e635"; "#e879f9" ].

(** [m[k]] *)
Fixpoint lookup {A : Type} (k : string) (m : list (string * A)) : option A :=
  match m with
  | [] => None
  | (k', v) :: rest => if String.eqb k k' then Some v else lookup k rest
  end.

(** [d.values[k] ?? 0] *)
Definition valueOf (d : BarSeriesDataPoint) (k : string) : R :=
  match lookup k (values d) with Some v => v | None => 0 end.

(** [d.colors?.[k] ?? PALETTE[ki % PALETTE.length]] *)
Definition colorOf (d : BarSeriesDataPoint) (k : string) (ki : nat) : string :=
  match lookup k (colors d) with
  | Some c => c
  | None => nth (ki mod List.length PALETTE) PALETTE EmptyString
  end.

(** [s.add(k)] on a set kept in insertion order. *)
Definition addKey (s : list string) (k : string) : list string :=
  if existsb (String.eqb k) s then s else s ++ [k].

(** [seriesKeys]: the keys of all the data points, each once, in the
    order they first appear. *)
Definition seriesKeys (ds : list BarSeriesDataPoint) : list string :=
  fold_left (fun s d => fold_left addKey (map fst (values d)) s) ds [].

Record Chart : Type := {
  seriesData : list BarSeriesDataPoint;
  horizontal : bool;
  stacked : bool;
  gap : R;
  dpr : R;
  showLabels : bool;
  showLegend : bool;
  anim : ResolvedAnim;
  measureText : string -> R
}.

Section Series.

Variable c : Chart.
Variables w h : R.
Variable elapsed : Elapsed.

Definition keys : list string := seriesKeys (seriesData c).
Definition n : nat := List.length (seriesData c).

(** [Math.ceil(Math.min(keys.length, 12) / 6)], on natural numbers. *)
Definition legendRows : nat :=
  if showLegend c then (Nat.min (List.length keys) 12 + 5) / 6 else 0%nat.

Definition legendBlockH : R := INR legendRows * (22 * dpr c).
Definition legendGap : R := if showLegend c then 6 * dpr c else 0.

Definition margins : Margins :=
  if horizontal c then
    let maxLabelW :=
      if showLabels c
      then maxOf (map (fun d => measureText c (s_label d)) (seriesData c))
           + 8 * dpr c
      else 0 in
    {| mLeft := Rmax maxLabelW (30 * dpr c);
       mRight := 16 * dpr c;
       mTop := 16 * dpr c;
       mBottom := 28 * dpr c + legendGap + legendBlockH |}
  else
    {| mLeft := 50 * dpr c;
       mRight := 16 * dpr c;
       mTop := 20 * dpr c;
       mBottom := (if showLabels c then 36 * dpr c else 12 * dpr c)
                  + legendGap + legendBlockH |}.

Definition plotW : R := w - mLeft margins - mRight margins.
Definition plotH : R := h - mTop margins - mBottom margins.

(** The sums of the positive and of the negative values of a data
    point: the inner loop of the stacked range. *)
Definition sums (d : BarSeriesDataPoint) : R * R :=
  fold_left
    (fun (pn : R * R) (k : string) =>
       let v := valueOf d k in
       if Rge_dec v 0 then (fst pn + v, snd pn) else (fst pn, snd pn + v))
    keys (0, 0).

(** The loops over the values, from [vMin = 0, vMax = 0]. *)
Definition rangeLoop : R * R :=
  if stacked c then
    fold_left
      (fun (mm : R * R) (d : BarSeriesDataPoint) =>
         let '(posSum, negSum) := sums d in
         let vMax := if Rgt_dec posSum (snd mm) then posSum else snd mm in
         let vMin := if Rlt_dec negSum (fst mm) then negSum else fst mm in
         (vMin, vMax))
      (seriesData c) (0, 0)
  else
    fold_left
      (fun (mm : R * R) (d : BarSeriesDataPoint) =>
         fold_left
           (fun (mm : R * R) (k : string) =>
              let v := valueOf d k in
              let vMin := if Rlt_dec v (fst mm) then v else fst mm in
              let vMax := if Rgt_dec v (snd mm) then v else snd mm in
              (vMin, vMax))
           keys mm)
      (seriesData c) (0, 0).

Definition scale : Scale :=
  let '(lo, hi) := rangeLoop in
  let lo := if Rgt_dec lo 0 then 0 else lo in
  let hi := if Rlt_dec hi 0 then 0 else hi in
  let vRange := if Req_dec_T (hi - lo) 0 then 1 else hi - lo in
  let hi' := hi + vRange * (1 / 10) in
  let lo' := lo - vRange * (1 / 10) in
  {| vMin := lo'; vMax := hi'; totalRange := hi' - lo' |}.

Definition toY (v : R) : R :=
  mTop margins + (1 - (v - vMin scale) / totalRange scale) * plotH.

Definition toX (v : R) : R :=
  mLeft margins + (v - vMin scale) / totalRange scale * plotW.

(** The stacked bars of the category [i] in [drawVertSeries], from the
    key of index [ki] on, with the sums so far. *)
Fixpoint stackedV (i : nat) (d : BarSeriesDataPoint) (slotX slotW prog : R)
    (ki : nat) (ks : list string) (posAcc negAcc : R) : list HitRect :=
  match ks with
  | [] => []
  | k :: rest =>
      let rawV := valueOf d k in
      let v := rawV * prog in
      if Rge_dec v 0 then
        let base := posAcc in
        let posAcc := posAcc + v in
        let barTop := toY posAcc in
        let barH := toY base - barTop in
        {| hit_x := slotX; hit_y := barTop; hit_w := slotW;
           hit_h := Rmax barH 0; catIdx := i; seriesIdx := Z.of_nat ki;
           hit_label := s_label d; hit_value := rawV;
           hit_color := colorOf d k ki; seriesKey := k |}
        :: stackedV i d slotX slotW prog (S ki) rest posAcc negAcc
      else
        let base := negAcc in
        let negAcc := negAcc + v in
        let barTop := toY base in
        let barH := toY negAcc - barTop in
        {| hit_x := slotX; hit_y := barTop; hit_w := slotW;
           hit_h := Rmax barH 0; catIdx := i; seriesIdx := Z.of_nat ki;
           hit_label := s_label d; hit_value := rawV;
           hit_color := colorOf d k ki; seriesKey := k |}
        :: stackedV i d slotX slotW prog (S ki) rest posAcc negAcc
  end.

(** The grouped bars of the category [i] in [drawVertSeries]. *)
Fixpoint groupedV (i : nat) (d : BarSeriesDataPoint) (slotX subBarW prog : R)
    (ki : nat) (ks : list string) : list HitRect :=
  match ks with
  | [] => []
  | k :: rest =>
      let rawV := valueOf d k in
      let v := rawV * prog in
      let x := slotX + INR ki * subBarW in
      let valY := toY v in
      let barTop := if Rge_dec v 0 then valY else toY 0 in
      let barH := Rmax 0 (Rabs (valY - toY 0)) in
      {| hit_x := x; hit_y := barTop; hit_w := subBarW; hit_h := barH;
         catIdx := i; seriesIdx := Z.of_nat ki; hit_label := s_label d;
         hit_value := rawV; hit_color := colorOf d k ki; seriesKey := k |}
      :: groupedV i d slotX subBarW prog (S ki) rest
  end.

(** The stacked bars of the category [i] in [drawHorizSeries]. *)
Fixpoint stackedH (i : nat) (d : BarSeriesDataPoint) (slotY slotH prog : R)
    (ki : nat) (ks : list string) (posAcc negAcc : R) : list HitRect :=
  match ks with
  | [] => []
  | k :: rest =>
      let rawV := valueOf d k in
      let v := rawV * prog in
      if Rge_dec v 0 then
        let base := posAcc in
        let posAcc := posAcc + v in
        let barLeft := toX base in
        let barW := toX posAcc - barLeft in
        {| hit_x := barLeft; hit_y := slotY; hit_w := Rmax barW 0;
           hit_h := slotH; catIdx := i; seriesIdx := Z.of_nat ki;
           hit_label := s_label d; hit_value := rawV;
           hit_color := colorOf d k ki; seriesKey := k |}
        :: stackedH i d slotY slotH prog (S ki) rest posAcc negAcc
      else
        let base := negAcc in
        let negAcc := negAcc + v in
        let barLeft := toX negAcc in
        let barW := toX base - barLeft in
        {| hit_x := barLeft; hit_y := slotY; hit_w := Rmax barW 0;
           hit_h := slotH; catIdx := i; seriesIdx := Z.of_nat ki;
           hit_label := s_label d; hit_value := rawV;
           hit_color := colorOf d k ki; seriesKey := k |}
        :: stackedH i d slotY slotH prog (S ki) rest posAcc negAcc
  end.

(** The grouped bars of the category [i] in [drawHorizSeries]. *)
Fixpoint groupedH (i : nat) (d : BarSeriesDataPoint) (slotY subBarH prog : R)
    (ki : nat) (ks : list string) : list HitRect :=
  match ks with
  | [] => []
  | k :: rest =>
      let rawV := valueOf d k in
      let v := rawV * prog in
      let y := slotY + INR ki * subBarH in
      let valX := toX v in
      let barLeft := if Rge_dec v 0 then toX 0 else valX in
      let barW := Rmax 0 (Rabs (valX - toX 0)) in
      {| hit_x := barLeft; hit_y := y; hit_w := barW; hit_h := subBarH;
         catIdx := i; seriesIdx := Z.of_nat ki; hit_label := s_label d;
         hit_value := rawV; hit_color := colorOf d k ki; seriesKey := k |}
      :: groupedH i d slotY subBarH prog (S ki) rest
  end.

(** The rectangles of the category [i]. *)
Definition category (i : nat) (d : BarSeriesDataPoint) : list HitRect :=
  let prog := barProgress (anim c) i elapsed in
  if horizontal c then
    let totalSlotH := plotH / INR n in
    let gapPx := totalSlotH * gap c in
    let slotH := totalSlotH - gapPx in
    let slotY := mTop margins + INR i * totalSlotH + gapPx / 2 in
    if stacked c then stackedH i d slotY slotH prog 0 keys 0 0
    else groupedH i d slotY (slotH / INR (List.length keys)) prog 0 keys
  else
    let totalSlotW := plotW / INR n in
    let gapPx := totalSlotW * gap c in
    let slotW := totalSlotW - gapPx in
    let slotX := mLeft margins + INR i * totalSlotW + gapPx / 2 in
    if stacked c then stackedV i d slotX slotW prog 0 keys 0 0
    else groupedV i d slotX (slotW / INR (List.length keys)) prog 0 keys.

(** The loop over the categories, from the index [i] on. *)
Fixpoint categories (i : nat) (ds : list BarSeriesDataPoint) : list HitRect :=
  match ds with
  | [] => []
  | d :: rest => category i d ++ categories (S i) rest
  end.

(** The rectangles [hits] holds after [drawSeriesChart]. *)
Definition drawSeriesChart (hits : list HitRect) : list HitRect :=
  match seriesData c with
  | [] => hits
  | _ =>
      match keys with
      | [] => []
      | _ => categories 0 (seriesData c)
      end
  end.

End Series.

End BarSeries.

(* ===================================================================== *)
(** ** Sparkline.ts: the sparkline *)
(* ===================================================================== *)

Module Sparkline.

Local Open Scope string_scope.

(** [ease] is the function of [Heatmap.ts], character for character. *)
Definition ease (t : JS.num) (type : string) : JS.num := Heatmap.ease t type.

Record SparklineAnimationConfig : Type := {
  s_duration : option JS.num;
  s_easing : option string
}.

(** [a || 1] on a number: [NaN] and [0] are falsy. *)
Definition orOne (a : JS.num) : JS.num :=
  match a with
  | JS.NaN => JS.Fin 1
  | JS.Fin q => if Qeq_bool q 0 then JS.Fin 1 else a
  | _ => a
  end.

(** The loop over the values, from [vMin = Infinity, vMax = -Infinity]. *)
Definition extentLoop (data : list JS.num) (acc : JS.num * JS.num)
  : JS.num * JS.num :=
  fold_left
    (fun (mm : JS.num * JS.num) (v : JS.num) =>
       (if (v <? fst mm)%js then v else fst mm,
        if (v >? snd mm)%js then v else snd mm))
    data acc.

Record Canvas : Type := {
  width : JS.num;
  height : JS.num;
  dpr : JS.num
}.

(** What [draw] hands to the canvas for the line: the clip rectangle, if
    it clips, and the points of the path. *)
Record Drawing : Type := {
  clip : option (JS.num * JS.num * JS.num * JS.num);
  path : list (JS.num * JS.num)
}.

Section Draw.

Variable cv : Canvas.
Variable data : list JS.num.

Definition vMin : JS.num := fst (extentLoop data (JS.PInf, JS.NInf)).
Definition vMax : JS.num := snd (extentLoop data (JS.PInf, JS.NInf)).
Definition range : JS.num := orOne (vMax - vMin)%js.
Definition padX : JS.num := (JS.Fin 2 * dpr cv)%js.
Definition padY : JS.num := (JS.Fin 2 * dpr cv)%js.
Definition plotW : JS.num := (width cv - padX * JS.Fin 2)%js.
Definition plotH : JS.num := (height cv - padY * JS.Fin 2)%js.

Definition toX (i : nat) : JS.num :=
  (padX
   + JS.of_nat i / (JS.of_nat (List.length data) - JS.Fin 1) * plotW)%js.

Definition toY (v : JS.num) : JS.num :=
  (padY + (JS.Fin 1 - (v - vMin) / range) * plotH)%js.

(** The points of [moveTo(toX(0), toY(data[0]))] and of the [lineTo]
    loop, from the index [i] on. *)
Fixpoint pointsFrom (i : nat) (vs : list JS.num) : list (JS.num * JS.num) :=
  match vs with
  | [] => []
  | v :: rest => (toX i, toY v) :: pointsFrom (S i) rest
  end.

(** [draw(clipProgress)]: nothing is drawn for fewer than two values. *)
Definition draw (clipProgress : JS.num) : option Drawing :=
  if (List.length data <? 2)%nat then None
  else
    let clipW := (plotW * clipProgress)%js in
    Some {| clip :=
              if (clipProgress <? JS.Fin 1)%js
              then Some (padX, JS.Fin 0, (clipW + padX)%js, height cv)
              else None;
            path := pointsFrom 0 data |}.

End Draw.

(** What [runAnimation] does: one [draw(1)], or a run of frames with a
    duration and an easing. *)
Inductive Run : Type :=
| Immediate
| Frames (duration : JS.num) (easingType : string).

Definition runAnimation (anim : option SparklineAnimationConfig) : Run :=
  match anim with
  | None => Immediate
  | Some a =>
      let d := match s_duration a with Some d => d | None => JS.Fin 500 end in
      if (d <=? JS.Fin 0)%js then Immediate
      else
        Frames d (match s_easing a with Some e => e | None => "easeOut" end)
  end.

(** One frame of [tick]: the progress [draw] is called with and whether
    another frame is requested. *)
Definition tick (duration : JS.num) (easingType : string) (elapsed : JS.num)
  : JS.num * bool :=
  let t := JS.min (JS.Fin 1) (elapsed / duration)%js in
  (ease t easingType, (t <? JS.Fin 1)%js).

End Sparkline.

(* ===================================================================== *)
(** ** The area chart: what [draw] computes *)
(* ===================================================================== *)

Module AreaDraw.

Import AreaChart.
Local Open Scope string_scope.

(** The state [draw] reads: the x labels and the series values that
    [getResolvedData] returns, the canvas and the options. *)
Record Chart : Type := {
  xlabels : nat;
  seriesValues : list (list JS.num);
  canvasW : JS.num;
  canvasH : JS.num;
  pixelRatio : JS.num;
  stacked : bool;
  stackedExpanded : bool;
  showLegend : bool;
  showXAxis : bool;
  showYAxisOpt : bool;
  animStyle : string
}.

(** [Math.ceil] *)
Definition ceil (a : JS.num) : JS.num :=
  match a with
  | JS.Fin q => JS.Fin (inject_Z (Qceiling q))
  | _ => a
  end.

(** [l.slice(0, c)]: the end is truncated to an integer, [NaN] counting
    for 0, and a negative end counts from the end of the array. *)
Definition slice0 {A : Type} (c : JS.num) (l : list A) : list A :=
  match c with
  | JS.Fin q =>
      let k := Z.quot (Qnum q) (Z.pos (Qden q)) in
      if (k <? 0)%Z
      then firstn (Z.to_nat (Z.max (Z.of_nat (List.length l) + k) 0)) l
      else firstn (Z.to_nat k) l
  | JS.PInf => l
  | JS.NInf => []
  | JS.NaN => []
  end.

(** [vals[i]] in arithmetic: an index past the end reads [undefined],
    which counts as [NaN]. *)
Definition atNaN (row : list JS.num) (i : nat) : JS.num := nth i row JS.NaN.

Section Draw.

Variable c : Chart.

Definition n : nat := xlabels c.
Definition numSeries : nat := List.length (seriesValues c).
Definition showLeg : bool := showLegend c && (1 <? numSeries)%nat.

Definition mLeft : JS.num :=
  if showYAxisOpt c then (JS.Fin 50 * pixelRatio c)%js
  else (JS.Fin 16 * pixelRatio c)%js.
Definition mRight : JS.num := (JS.Fin 16 * pixelRatio c)%js.
Definition mTop : JS.num := (JS.Fin 16 * pixelRatio c)%js.
Definition legendH : JS.num :=
  if showLeg then (JS.Fin 30 * pixelRatio c)%js else JS.Fin 0.
Definition mBottom : JS.num :=
  ((if showXAxis c then JS.Fin 28 * pixelRatio c
    else JS.Fin 8 * pixelRatio c) + legendH)%js.
Definition plotW : JS.num := (canvasW c - mLeft - mRight)%js.
Definition plotH : JS.num := (canvasH c - mTop - mBottom)%js.

Definition stacking : bool :=
  (stacked c || stackedExpanded c) && (1 <? numSeries)%nat.

Definition drawValues : list (list JS.num) :=
  if stacking then
    if stackedExpanded c then computeStackedExpanded (seriesValues c)
    else computeStacked (seriesValues c)
  else seriesValues c.

(** The two nested loops over the values, from [yMin = 0, yMax = 0]. *)
Definition yStep (mm : JS.num * JS.num) (v : JS.num) : JS.num * JS.num :=
  let yMax := if (v >? snd mm)%js then v else snd mm in
  let yMin := if (v <? fst mm)%js then v else fst mm in
  (yMin, yMax).

Definition yLoop (rows : list (list JS.num)) : JS.num * JS.num :=
  fold_left (fun mm sv => fold_left yStep sv mm) rows (JS.Fin 0, JS.Fin 0).

Definition yMin : JS.num :=
  if stackedExpanded c then JS.Fin 0 else fst (yLoop drawValues).

Definition yMax : JS.num :=
  let lo := yMin in
  let hi := if stackedExpanded c then JS.Fin 100 else snd (yLoop drawValues) in
  if JS.eq hi lo then (lo + JS.Fin 1)%js else hi.

Definition yRange : JS.num := (yMax - yMin)%js.

Definition yPad : JS.num :=
  if stackedExpanded c then JS.Fin 0 else (yRange * JS.Fin (8 # 100))%js.

Definition toX (i : nat) : JS.num :=
  (mLeft + JS.of_nat i / JS.of_nat (Nat.max (n - 1) 1) * plotW)%js.

Definition toY (v : JS.num) : JS.num :=
  (mTop + plotH
   - (v - yMin + yPad) / (yRange + yPad * JS.Fin 2) * plotH)%js.

(** [prog === Infinity ? 1 : Math.max(0, Math.min(prog, 1))] *)
Definition animProg (prog : JS.num) : JS.num :=
  match prog with
  | JS.PInf => JS.Fin 1
  | _ => JS.max (JS.Fin 0) (JS.min prog (JS.Fin 1))
  end.

(** The points of the series [si] and those along its bottom. *)
Definition points (si : nat) : list (JS.num * JS.num) :=
  map (fun i => (toX i, toY (atNaN (nth si drawValues []) i))) (seq 0 n).

Definition bottomPoints (si : nat) : list (JS.num * JS.num) :=
  if (stacked c || stackedExpanded c) && (0 <? si)%nat then
    map (fun i => (toX i, toY (atNaN (nth (si - 1) drawValues []) i)))
        (seq 0 n)
  else
    map (fun i => (toX i, toY yMin)) (seq 0 n).

(** [Math.max(1, Math.ceil(n * animProg))] *)
Definition visibleCount (prog : JS.num) : JS.num :=
  JS.max (JS.Fin 1) (ceil (JS.of_nat n * animProg prog)%js).

Definition growPoint (prog : JS.num) (pt : JS.num * JS.num)
  : JS.num * JS.num :=
  let baseY := toY yMin in
  (fst pt, (baseY + (snd pt - baseY) * animProg prog)%js).

(** The points the curve is traced through and those the area is closed
    along, for the series [si] at the progress [prog]. *)
Definition animPoints (si : nat) (prog : JS.num) : list (JS.num * JS.num) :=
  if String.eqb (animStyle c) "draw" && (animProg prog <? JS.Fin 1)%js
  then slice0 (visibleCount prog) (points si)
  else if String.eqb (animStyle c) "grow" && (animProg prog <? JS.Fin 1)%js
  then map (growPoint prog) (points si)
  else points si.

Definition animBottom (si : nat) (prog : JS.num) : list (JS.num * JS.num) :=
  if String.eqb (animStyle c) "draw" && (animProg prog <? JS.Fin 1)%js
  then slice0 (visibleCount prog) (bottomPoints si)
  else if String.eqb (animStyle c) "grow" && (animProg prog <? JS.Fin 1)%js
  then
    if (stacked c || stackedExpanded c) && (0 <? si)%nat
    then map (growPoint prog) (bottomPoints si)
    else bottomPoints si
  else bottomPoints si.

(** [anim.style === 'fade' && animProg < 1 ? animProg : 1] *)
Definition fadeAlpha (prog : JS.num) : JS.num :=
  if String.eqb (animStyle c) "fade" && (animProg prog <? JS.Fin 1)%js
  then animProg prog else JS.Fin 1.

(** Whether [draw] gets as far as the series: it returns early without
    labels or without a plot area of positive width and height. *)
Definition draws : bool :=
  negb (n =? 0)%nat
  && negb ((plotW <=? JS.Fin 0)%js || (plotH <=? JS.Fin 0)%js).

(** [drawLegendBlock]: the position of the swatch and the name of each
    legend item, for [names] names. *)
Definition legendTop : JS.num :=
  (canvasH c - legendH + JS.Fin 4 * pixelRatio c)%js.

Definition legendItem (names i : nat) : JS.num * JS.num :=
  let rowH := (JS.Fin 20 * pixelRatio c)%js in
  let colsPerRow := Nat.min names 6 in
  let itemW :=
    JS.min (JS.Fin 100 * pixelRatio c)%js
           ((canvasW c - JS.Fin 24 * pixelRatio c) / JS.of_nat colsPerRow)%js in
  let totalLW := (itemW * JS.of_nat colsPerRow)%js in
  let startX := ((canvasW c - totalLW) / JS.Fin 2)%js in
  let col := (i mod colsPerRow)%nat in
  let row := (i / colsPerRow)%nat in
  ((startX + JS.of_nat col * itemW)%js,
   (legendTop + JS.of_nat row * rowH + rowH / JS.Fin 2)%js).

(** The loop [for (i = 0; i < names.length && i < 12; i++)]. *)
Definition drawLegendBlock (names : nat) : list (JS.num * JS.num) :=
  map (legendItem names) (seq 0 (Nat.min names 12)).

(** The legend that [draw] ends with. *)
Definition legend : list (JS.num * JS.num) :=
  if showLeg then drawLegendBlock numSeries else [].

End Draw.

(** One frame of the loop of [startAnimation]: the progress [draw] is
    called with and whether another frame is requested; the easing is a
    function on numbers. *)
Definition frame (duration : JS.num) (easing : JS.num -> JS.num)
    (elapsed : JS.num) : JS.num * bool :=
  let prog := JS.min (elapsed / duration)%js (JS.Fin 1) in
  (easing prog, (prog <? JS.Fin 1)%js).

End AreaDraw.

(* ===================================================================== *)
(** ** Facts about numbers *)
(* ===================================================================== *)

Module JSFacts.

Local Open Scope Q_scope.



Lemma div_fin p q : ~ q == 0 -> JS.div (JS.Fin p) (JS.Fin q) = JS.Fin (p / q).
Proof.
  intro H. unfold JS.div, JS.sgn.
  destruct (q ?= 0) eqn:E; try reflexivity.
  apply Qeq_alt in E. contradiction.
Qed.

Lemma lt_fin p q : JS.lt (JS.Fin p) (JS.Fin q) = true <-> p < q.
Proof.
  unfold JS.lt. rewrite Qlt_alt.
  destruct (p ?= q); split; congruence.
Qed.

Lemma lt_fin_false p q : JS.lt (JS.Fin p) (JS.Fin q) = false <-> q <= p.
Proof.
  rewrite <- not_true_iff_false, lt_fin. split; intro H.
  - apply Qnot_lt_le. exact H.
  - apply Qle_not_lt. exact H.
Qed.

Lemma le_fin p q : JS.le (JS.Fin p) (JS.Fin q) = true <-> p <= q.
Proof.
  unfold JS.le. rewrite orb_true_iff, lt_fin. cbn [JS.eq].
  rewrite Qeq_bool_iff. split.
  - intros [H | H]; [apply Qlt_le_weak; exact H | rewrite H; apply Qle_refl].
  - intro H. apply Qle_lteq in H. exact H.
Qed.

Lemma le_fin_false p q : JS.le (JS.Fin p) (JS.Fin q) = false <-> q < p.
Proof.
  rewrite <- not_true_iff_false, le_fin. split; intro H.
  - apply Qnot_le_lt. exact H.
  - apply Qlt_not_le. exact H.
Qed.

Lemma ge_fin p q : JS.ge (JS.Fin p) (JS.Fin q) = true <-> q <= p.
Proof. unfold JS.ge. apply le_fin. Qed.

Lemma ge_fin_false p q : JS.ge (JS.Fin p) (JS.Fin q) = false <-> p < q.
Proof. unfold JS.ge. apply le_fin_false. Qed.

Lemma gt_fin p q : JS.gt (JS.Fin p) (JS.Fin q) = true <-> q < p.
Proof. unfold JS.gt. apply lt_fin. Qed.

(** [Math.max(0, q)] on a finite number. *)
Lemma max0_fin q :
  exists m, JS.max JS.zero (JS.Fin q) = JS.Fin m /\ m == Qmax 0 q.
Proof.
  unfold JS.max, JS.zero.
  destruct (JS.lt (JS.Fin 0) (JS.Fin q)) eqn:E.
  - apply lt_fin in E. exists q. split; [reflexivity |].
    symmetry. apply Q.max_r. apply Qlt_le_weak. exact E.
  - apply lt_fin_false in E. exists 0. split; [reflexivity |].
    symmetry. apply Q.max_l. exact E.
Qed.


Lemma is_q_val a q : JS.is_q a q -> JS.finite a /\ JS.val a == q.
Proof. destruct a; cbn; intuition. Qed.

End JSFacts.

(* ===================================================================== *)
(** ** The treemap: what a row and a layout look like *)
(* ===================================================================== *)

Module HeatmapFacts.

Import Heatmap.
Local Open Scope Q_scope.

(** An item whose weight is a finite positive number. *)
Definition positiveWeight (i : HeatmapItem) : Prop :=
  match weight i with JS.Fin q => 0 < q | _ => False end.

Definition wq (i : HeatmapItem) : Q := JS.val (weight i).

Fixpoint sumQ (row : list HeatmapItem) : Q :=
  match row with
  | [] => 0
  | i :: row' => wq i + sumQ row'
  end.

(** The rectangle [r] is the cell [(x, y, w, h)] shrunk by [g / 2] on
    every side. *)
Definition shrunk (g : Q) (r : LayoutRect) (x y w h : Q) : Prop :=
  JS.is_q (r_x r) (x + g / 2) /\ JS.is_q (r_y r) (y + g / 2) /\
  JS.is_q (r_w r) (Qmax 0 (w - g)) /\ JS.is_q (r_h r) (Qmax 0 (h - g)).

(** The cells of [items], in order, each of width [w] at abscissa [x] and
    of height [share i], stacked downwards from ordinate [y]: every cell
    starts where the one before it ends. *)
Inductive stackedDown (g x w : Q) (share : HeatmapItem -> Q)
  : Q -> list HeatmapItem -> list LayoutRect -> Prop :=
| sd_nil y : stackedDown g x w share y [] []
| sd_cons y y' i items r rects :
    r_item r = i ->
    shrunk g r x y w (share i) ->
    y' == y + share i ->
    stackedDown g x w share y' items rects ->
    stackedDown g x w share y (i :: items) (r :: rects).

(** The same, side by side from abscissa [x]: every cell has height [h]
    at ordinate [y] and width [share i]. *)
Inductive stackedAcross (g y h : Q) (share : HeatmapItem -> Q)
  : Q -> list HeatmapItem -> list LayoutRect -> Prop :=
| sa_nil x : stackedAcross g y h share x [] []
| sa_cons x x' i items r rects :
    r_item r = i ->
    shrunk g r x y (share i) h ->
    x' == x + share i ->
    stackedAcross g y h share x' items rects ->
    stackedAcross g y h share x (i :: items) (r :: rects).

Lemma positiveWeight_fin i :
  positiveWeight i -> weight i = JS.Fin (wq i) /\ 0 < wq i.
Proof.
  unfold positiveWeight, wq. destruct (weight i); cbn; intuition.
Qed.

Lemma sumQ_nonneg row : Forall positiveWeight row -> 0 <= sumQ row.
Proof.
  induction 1 as [| i row Hi _ IH]; cbn.
  - apply Qle_refl.
  - apply positiveWeight_fin in Hi. destruct Hi as [_ Hi]. lra.
Qed.

Lemma sumQ_pos row : Forall positiveWeight row -> row <> [] -> 0 < sumQ row.
Proof.
  intros H Hne. destruct H as [| i row Hi Hrow]; [congruence |].
  cbn. apply positiveWeight_fin in Hi. destruct Hi as [_ Hi].
  pose proof (sumQ_nonneg Hrow). lra.
Qed.

Lemma sumQ_app r1 r2 : sumQ (r1 ++ r2) == sumQ r1 + sumQ r2.
Proof.
  induction r1 as [| i r1 IH]; cbn.
  - lra.
  - rewrite IH. lra.
Qed.

Lemma sumWeight_from row : Forall positiveWeight row ->
  forall a, exists q,
    fold_left (fun s i => (s + weight i)%js) row (JS.Fin a) = JS.Fin q
    /\ q == a + sumQ row.
Proof.
  induction 1 as [| i row Hi _ IH]; intro a; cbn.
  - exists a. split; [reflexivity | lra].
  - apply positiveWeight_fin in Hi. destruct Hi as [Hw _].
    rewrite Hw. cbn. destruct (IH (a + wq i)) as [q [E Hq]].
    exists q. split; [exact E | lra].
Qed.

Lemma sumWeight_fin row : Forall positiveWeight row ->
  exists q, sumWeight row = JS.Fin q /\ q == sumQ row.
Proof.
  intro H. destruct (sumWeight_from H 0) as [q [E Hq]].
  exists q. split; [exact E | lra].
Qed.

Section Row.

Variables (x y w h g Wt : Q).
Hypothesis Wt_pos : 0 < Wt.

Lemma layoutCell_wide items : Forall positiveWeight items ->
  forall o out, exists o' rects,
    fold_left
      (layoutCell (JS.Fin x) (JS.Fin y) (JS.Fin w) (JS.Fin h) (JS.Fin g) true
         (JS.Fin Wt)) items (JS.Fin o, out) = (JS.Fin o', out ++ rects)
    /\ stackedDown g x w (fun i => wq i / Wt * h) (y + o) items rects.
Proof.
  induction 1 as [| i items Hi _ IH]; intros o out.
  - exists o, []. cbn. rewrite app_nil_r. split; [reflexivity | constructor].
  - apply positiveWeight_fin in Hi. destruct Hi as [Hw Hpos].
    cbn [fold_left]. unfold layoutCell at 2. rewrite Hw.
    rewrite JSFacts.div_fin by lra. cbn [JS.mul JS.add JS.sub JS.neg].
    destruct (JSFacts.max0_fin (w + - g)) as [mw [Emw Hmw]].
    destruct (JSFacts.max0_fin (wq i / Wt * h + - g)) as [mh [Emh Hmh]].
    rewrite Emw, Emh.
    match goal with
    | |- context [fold_left _ items (JS.Fin ?o1, out ++ [?r])] =>
        destruct (IH o1 (out ++ [r])) as [o' [rects [E S]]];
        exists o', (r :: rects)
    end.
    split.
    + rewrite E, <- app_assoc. reflexivity.
    + econstructor; [reflexivity | | | exact S].
      * unfold shrunk. cbn. repeat split; try lra.
        -- rewrite Hmw. reflexivity.
        -- rewrite Hmh. reflexivity.
      * lra.
Qed.

Lemma layoutCell_tall items : Forall positiveWeight items ->
  forall o out, exists o' rects,
    fold_left
      (layoutCell (JS.Fin x) (JS.Fin y) (JS.Fin w) (JS.Fin h) (JS.Fin g) false
         (JS.Fin Wt)) items (JS.Fin o, out) = (JS.Fin o', out ++ rects)
    /\ stackedAcross g y h (fun i => wq i / Wt * w) (x + o) items rects.
Proof.
  induction 1 as [| i items Hi _ IH]; intros o out.
  - exists o, []. cbn. rewrite app_nil_r. split; [reflexivity | constructor].
  - apply positiveWeight_fin in Hi. destruct Hi as [Hw Hpos].
    cbn [fold_left]. unfold layoutCell at 2. rewrite Hw.
    rewrite JSFacts.div_fin by lra. cbn [JS.mul JS.add JS.sub JS.neg].
    destruct (JSFacts.max0_fin (h + - g)) as [mh [Emh Hmh]].
    destruct (JSFacts.max0_fin (wq i / Wt * w + - g)) as [mw [Emw Hmw]].
    rewrite Emw, Emh.
    match goal with
    | |- context [fold_left _ items (JS.Fin ?o1, out ++ [?r])] =>
        destruct (IH o1 (out ++ [r])) as [o' [rects [E S]]];
        exists o', (r :: rects)
    end.
    split.
    + rewrite E, <- app_assoc. reflexivity.
    + econstructor; [reflexivity | | | exact S].
      * unfold shrunk. cbn. repeat split; try lra.
        -- rewrite Hmw. reflexivity.
        -- rewrite Hmh. reflexivity.
      * lra.
Qed.

End Row.

Lemma shrunk_ext g r x y w h x' y' w' h' :
  shrunk g r x y w h -> x == x' -> y == y' -> w == w' -> h == h' ->
  shrunk g r x' y' w' h'.
Proof.
  unfold shrunk, JS.is_q. intros [Hx [Hy [Hw Hh]]] Ex Ey Ew Eh.
  destruct (r_x r), (r_y r), (r_w r), (r_h r); try tauto.
  rewrite <- Ex, <- Ey, <- Ew, <- Eh. tauto.
Qed.

Lemma stackedDown_ext g x w share share' y y' items rects :
  stackedDown g x w share y items rects ->
  (forall i, share i == share' i) -> y == y' ->
  stackedDown g x w share' y' items rects.
Proof.
  intros S Hs. revert y'.
  induction S as [y | y y1 i items r rects Hi Hr Hy _ IH]; intros y' Ey.
  - constructor.
  - apply sd_cons with (y' := y1).
    + exact Hi.
    + apply (shrunk_ext Hr); try reflexivity; [exact Ey | apply Hs].
    + rewrite <- Ey, <- Hs. exact Hy.
    + apply IH. reflexivity.
Qed.

Lemma stackedAcross_ext g y h share share' x x' items rects :
  stackedAcross g y h share x items rects ->
  (forall i, share i == share' i) -> x == x' ->
  stackedAcross g y h share' x' items rects.
Proof.
  intros S Hs. revert x'.
  induction S as [x | x x1 i items r rects Hi Hr Hx _ IH]; intros x' Ex.
  - constructor.
  - apply sa_cons with (x' := x1).
    + exact Hi.
    + apply (shrunk_ext Hr); try reflexivity; [exact Ex | apply Hs].
    + rewrite <- Ex, <- Hs. exact Hx.
    + apply IH. reflexivity.
Qed.

Lemma stackedDown_items g x w share y items rects :
  stackedDown g x w share y items rects -> map r_item rects = items.
Proof. induction 1; cbn; congruence. Qed.

Lemma stackedAcross_items g y h share x items rects :
  stackedAcross g y h share x items rects -> map r_item rects = items.
Proof. induction 1; cbn; congruence. Qed.

(** What [layoutRow] appends for a non-empty row of positive weights: the
    row's cells in the row's order, each with the row's share
    [weight / rowWeight] of one side of the strip and the whole of the
    other side. *)
Lemma layoutRow_cells row x y w h T out g :
  row <> [] -> Forall positiveWeight row ->
  exists rects,
    layoutRow row (JS.Fin x) (JS.Fin y) (JS.Fin w) (JS.Fin h) T out (JS.Fin g)
    = out ++ rects
    /\ (h <= w ->
        stackedDown g x w (fun i => wq i / sumQ row * h) y row rects)
    /\ (w < h ->
        stackedAcross g y h (fun i => wq i / sumQ row * w) x row rects).
Proof.
  intros Hne Hpos.
  destruct (sumWeight_fin Hpos) as [q [Eq Hq]].
  pose proof (sumQ_pos Hpos Hne) as Hsum.
  assert (Hq0 : 0 < q) by lra.
  unfold layoutRow. destruct row as [| i0 row0]; [congruence |].
  rewrite Eq. unfold JS.zero.
  destruct (JS.ge (JS.Fin w) (JS.Fin h)) eqn:Ewide.
  - apply JSFacts.ge_fin in Ewide.
    destruct (layoutCell_wide x y w h g Hq0 Hpos 0 out) as [o' [rects [E S]]].
    exists rects. rewrite E. split; [reflexivity |]. split.
    + intros _. eapply stackedDown_ext; [exact S | |].
      * intro i. cbv beta. rewrite Hq. reflexivity.
      * lra.
    + intro. lra.
  - apply JSFacts.ge_fin_false in Ewide.
    destruct (layoutCell_tall x y w h g Hq0 Hpos 0 out) as [o' [rects [E S]]].
    exists rects. rewrite E. split; [reflexivity |]. split.
    + intro. lra.
    + intros _. eapply stackedAcross_ext; [exact S | |].
      * intro i. cbv beta. rewrite Hq. reflexivity.
      * lra.
Qed.

(** *** Tiling *)

Definition qx (r : LayoutRect) : Q := JS.val (r_x r).
Definition qy (r : LayoutRect) : Q := JS.val (r_y r).
Definition qw (r : LayoutRect) : Q := JS.val (r_w r).
Definition qh (r : LayoutRect) : Q := JS.val (r_h r).

Definition finiteRect (r : LayoutRect) : Prop :=
  JS.finite (r_x r) /\ JS.finite (r_y r) /\
  JS.finite (r_w r) /\ JS.finite (r_h r).

Definition area (r : LayoutRect) : Q := qw r * qh r.

Fixpoint sumArea (rects : list LayoutRect) : Q :=
  match rects with
  | [] => 0
  | r :: rects' => area r + sumArea rects'
  end.

(** [r] is a finite rectangle of non-negative sides inside the region. *)
Definition inside (x y w h : Q) (r : LayoutRect) : Prop :=
  finiteRect r /\ 0 <= qw r /\ 0 <= qh r /\
  x <= qx r /\ qx r + qw r <= x + w /\
  y <= qy r /\ qy r + qh r <= y + h.

(** Two rectangles overlap when their interiors meet. *)
Definition overlap (a b : LayoutRect) : Prop :=
  qx a < qx b + qw b /\ qx b < qx a + qw a /\
  qy a < qy b + qh b /\ qy b < qy a + qh a.

(** The rectangles tile the region: they lie in it, their areas add up
    to its area, and no two of them overlap. *)
Record tiles (rects : list LayoutRect) (x y w h : Q) : Prop := {
  tiles_inside : Forall (inside x y w h) rects;
  tiles_area : sumArea rects == w * h;
  tiles_disjoint : ForallOrdPairs (fun a b => ~ overlap a b) rects
}.

Lemma sumArea_app r1 r2 : sumArea (r1 ++ r2) == sumArea r1 + sumArea r2.
Proof.
  induction r1 as [| r r1 IH]; cbn.
  - lra.
  - rewrite IH. lra.
Qed.

Lemma inside_mono x y w h x' y' w' h' r :
  inside x y w h r ->
  x' <= x -> x + w <= x' + w' -> y' <= y -> y + h <= y' + h' ->
  inside x' y' w' h' r.
Proof. unfold inside. intuition lra. Qed.

Lemma ForallOrdPairs_app (A : Type) (R : A -> A -> Prop) (l1 l2 : list A) :
  ForallOrdPairs R l1 -> ForallOrdPairs R l2 ->
  (forall a b, In a l1 -> In b l2 -> R a b) ->
  ForallOrdPairs R (l1 ++ l2).
Proof.
  intros H1 H2 H12. induction H1 as [| a l1 Ha _ IH]; cbn.
  - exact H2.
  - constructor.
    + apply Forall_app. split; [exact Ha |].
      apply Forall_forall. intros b Hb. apply H12; [left; reflexivity | exact Hb].
    + apply IH. intros a' b Ha' Hb. apply H12; [right; exact Ha' | exact Hb].
Qed.

(** Two tilings of regions that share a vertical edge tile their union. *)
Lemma tiles_beside l1 l2 x y w1 w2 h w :
  tiles l1 x y w1 h -> tiles l2 (x + w1) y w2 h ->
  0 <= w1 -> 0 <= w2 -> w == w1 + w2 ->
  tiles (l1 ++ l2) x y w h.
Proof.
  intros [I1 A1 D1] [I2 A2 D2] Hw1 Hw2 Hw. constructor.
  - apply Forall_app. split.
    + eapply Forall_impl; [| exact I1]. intros r Hr.
      apply (inside_mono Hr); lra.
    + eapply Forall_impl; [| exact I2]. intros r Hr.
      apply (inside_mono Hr); lra.
  - rewrite sumArea_app, A1, A2, Hw. lra.
  - apply ForallOrdPairs_app; [exact D1 | exact D2 |].
    intros a b Ha Hb.
    rewrite Forall_forall in I1, I2.
    specialize (I1 a Ha). specialize (I2 b Hb).
    unfold inside in I1, I2. unfold overlap. lra.
Qed.

(** Two tilings of regions that share a horizontal edge tile their union. *)
Lemma tiles_above l1 l2 x y w h1 h2 h :
  tiles l1 x y w h1 -> tiles l2 x (y + h1) w h2 ->
  0 <= h1 -> 0 <= h2 -> h == h1 + h2 ->
  tiles (l1 ++ l2) x y w h.
Proof.
  intros [I1 A1 D1] [I2 A2 D2] Hh1 Hh2 Hh. constructor.
  - apply Forall_app. split.
    + eapply Forall_impl; [| exact I1]. intros r Hr.
      apply (inside_mono Hr); lra.
    + eapply Forall_impl; [| exact I2]. intros r Hr.
      apply (inside_mono Hr); lra.
  - rewrite sumArea_app, A1, A2, Hh. lra.
  - apply ForallOrdPairs_app; [exact D1 | exact D2 |].
    intros a b Ha Hb.
    rewrite Forall_forall in I1, I2.
    specialize (I1 a Ha). specialize (I2 b Hb).
    unfold inside in I1, I2. unfold overlap. lra.
Qed.

Lemma tiles_ext l x y w h x' y' w' h' :
  tiles l x y w h -> x == x' -> y == y' -> w == w' -> h == h' ->
  tiles l x' y' w' h'.
Proof.
  intros [I A D] Ex Ey Ew Eh. constructor.
  - eapply Forall_impl; [| exact I]. intros r Hr.
    apply (inside_mono Hr); lra.
  - rewrite A, Ew, Eh. reflexivity.
  - exact D.
Qed.

Lemma tiles_nil x y w h : w * h == 0 -> tiles [] x y w h.
Proof.
  intro H. constructor; [constructor | cbn; lra | constructor].
Qed.

(** A cell laid out without gap is a one-rectangle tiling of itself. *)
Lemma shrunk_tiles r x y w h :
  shrunk 0 r x y w h -> 0 <= w -> 0 <= h -> tiles [r] x y w h.
Proof.
  unfold shrunk. intros [Hx [Hy [Hw Hh]]] Pw Ph.
  apply JSFacts.is_q_val in Hx, Hy, Hw, Hh.
  destruct Hx as [Fx Vx], Hy as [Fy Vy], Hw as [Fw Vw], Hh as [Fh Vh].
  rewrite Q.max_r in Vw by lra. rewrite Q.max_r in Vh by lra.
  assert (E0 : 0 / 2 == 0) by reflexivity. rewrite E0 in Vx, Vy.
  constructor.
  - constructor; [| constructor].
    unfold inside, finiteRect, qx, qy, qw, qh. intuition lra.
  - cbn. unfold area, qw, qh. rewrite Vw, Vh. lra.
  - constructor; constructor.
Qed.

Fixpoint sumShare (share : HeatmapItem -> Q) (items : list HeatmapItem) : Q :=
  match items with
  | [] => 0
  | i :: items' => share i + sumShare share items'
  end.

Lemma sumShare_nonneg share items :
  Forall (fun i => 0 <= share i) items -> 0 <= sumShare share items.
Proof. induction 1; cbn; lra. Qed.

Lemma sumShare_scale k items :
  sumShare (fun i => wq i * k) items == sumQ items * k.
Proof.
  induction items as [| i items IH]; cbn.
  - lra.
  - rewrite IH. lra.
Qed.

Lemma stackedDown_tiles x w share y items rects :
  stackedDown 0 x w share y items rects ->
  Forall (fun i => 0 <= share i) items -> 0 <= w ->
  tiles rects x y w (sumShare share items).
Proof.
  intros S Hs Hw.
  induction S as [y | y y1 i items r rects Hi Hr Hy _ IH].
  - apply tiles_nil. cbn. lra.
  - inversion Hs as [| ? ? Hi0 Hrest]; subst.
    specialize (IH Hrest). pose proof (sumShare_nonneg share Hrest) as Hn.
    change (r :: rects) with ([r] ++ rects).
    apply tiles_above with (h1 := share (r_item r))
                           (h2 := sumShare share items).
    + apply shrunk_tiles; assumption.
    + apply (tiles_ext IH); try reflexivity. exact Hy.
    + exact Hi0.
    + exact Hn.
    + cbn. reflexivity.
Qed.

Lemma stackedAcross_tiles y h share x items rects :
  stackedAcross 0 y h share x items rects ->
  Forall (fun i => 0 <= share i) items -> 0 <= h ->
  tiles rects x y (sumShare share items) h.
Proof.
  intros S Hs Hh.
  induction S as [x | x x1 i items r rects Hi Hr Hx _ IH].
  - apply tiles_nil. cbn. lra.
  - inversion Hs as [| ? ? Hi0 Hrest]; subst.
    specialize (IH Hrest). pose proof (sumShare_nonneg share Hrest) as Hn.
    change (r :: rects) with ([r] ++ rects).
    apply tiles_beside with (w1 := share (r_item r))
                            (w2 := sumShare share items).
    + apply shrunk_tiles; assumption.
    + apply (tiles_ext IH); try reflexivity. exact Hx.
    + exact Hi0.
    + exact Hn.
    + cbn. reflexivity.
Qed.

Lemma share_nonneg row k : Forall positiveWeight row -> 0 <= k ->
  Forall (fun i => 0 <= wq i * k) row.
Proof.
  intros H Hk. eapply Forall_impl; [| exact H].
  intros i Hi. cbv beta. apply positiveWeight_fin in Hi. destruct Hi as [_ Hi].
  apply Qmult_le_0_compat; lra.
Qed.

(** Without gap, a row of positive weights tiles the strip it is given. *)
Lemma layoutRow_tiles row x y w h T out :
  row <> [] -> Forall positiveWeight row -> 0 <= w -> 0 <= h ->
  exists rects,
    layoutRow row (JS.Fin x) (JS.Fin y) (JS.Fin w) (JS.Fin h) T out (JS.Fin 0)
    = out ++ rects
    /\ tiles rects x y w h /\ map r_item rects = row.
Proof.
  intros Hne Hpos Hw Hh.
  destruct (layoutRow_cells x y w h T out 0 Hne Hpos) as [rects [E [Hd Ha]]].
  pose proof (sumQ_pos Hpos Hne) as Hsum.
  exists rects. split; [exact E |].
  destruct (Qlt_le_dec w h) as [Hlt | Hle].
  - specialize (Ha Hlt). split; [| exact (stackedAcross_items Ha)].
    assert (S' : stackedAcross 0 y h (fun i => wq i * (w / sumQ row)) x row rects).
    { eapply stackedAcross_ext; [exact Ha | | reflexivity].
      intro i. cbv beta. field. lra. }
    apply stackedAcross_tiles in S'; [| | exact Hh].
    + apply (tiles_ext S'); try reflexivity.
      rewrite sumShare_scale. field. lra.
    + apply share_nonneg; [exact Hpos |].
      apply Qle_shift_div_l; lra.
  - specialize (Hd Hle). split; [| exact (stackedDown_items Hd)].
    assert (S' : stackedDown 0 x w (fun i => wq i * (h / sumQ row)) y row rects).
    { eapply stackedDown_ext; [exact Hd | | reflexivity].
      intro i. cbv beta. field. lra. }
    apply stackedDown_tiles in S'; [| | exact Hw].
    + apply (tiles_ext S'); try reflexivity.
      rewrite sumShare_scale. field. lra.
    + apply share_nonneg; [exact Hpos |].
      apply Qle_shift_div_l; lra.
Qed.

(** [squarify] without gap tiles the region it is given with the cells of
    the pending row followed by those of the children, provided
    [totalArea] is the weight that is still to be laid out. *)
(** Side conditions of the layout invariants. *)
Ltac side :=
  try first
    [ assumption
    | solve [cbn; discriminate]
    | solve [cbn [sumQ] in *; lra] ].

Lemma squarify_tiles children :
  forall row x y w h T out,
    Forall positiveWeight children -> Forall positiveWeight row ->
    row ++ children <> [] -> 0 <= w -> 0 <= h ->
    T == sumQ row + sumQ children ->
    exists rects,
      squarify children row (JS.Fin x) (JS.Fin y) (JS.Fin w) (JS.Fin h)
        (JS.Fin T) out (JS.Fin 0) = out ++ rects
      /\ tiles rects x y w h
      /\ map r_item rects = row ++ children.
Proof.
  induction children as [| c rest IH];
    intros row x y w h T out Hch Hrow Hne Hw Hh HT.
  - rewrite squarify_equation_1. rewrite app_nil_r in *.
    apply layoutRow_tiles; assumption.
  - inversion Hch as [| ? ? Hc Hrest]; subst.
    pose proof (positiveWeight_fin c Hc) as [_ Hcpos].
    pose proof (sumQ_nonneg Hrest) as Hrest0.
    assert (Hone : Forall positiveWeight [c]) by (repeat constructor; exact Hc).
    destruct row as [| r row'].
    + rewrite squarify_equation_2. cbn [app].
      apply IH; side.
    + rewrite squarify_equation_3. cbv zeta.
      set (row := r :: row') in *.
      assert (Hrne : row <> []) by (subst row; discriminate).
      assert (HT' : T == sumQ row + (wq c + sumQ rest)) by exact HT.
      clear HT.
      destruct (JS.le _ _).
      * destruct (IH (row ++ [c]) x y w h T out) as [rects [E [Ht Hi]]]; side.
        -- apply Forall_app. split; assumption.
        -- rewrite sumQ_app. cbn [sumQ]. lra.
        -- exists rects. split; [exact E |]. split; [exact Ht |].
           rewrite Hi, <- app_assoc. reflexivity.
      * destruct (sumWeight_fin Hrow) as [q [Eq Hq]].
        pose proof (sumQ_pos Hrow Hrne) as Hsum.
        assert (HTpos : 0 < T) by lra.
        assert (Hfrac0 : 0 <= q / T) by (apply Qle_shift_div_l; lra).
        assert (Hfrac1 : q / T <= 1) by (apply Qle_shift_div_r; lra).
        rewrite Eq. rewrite JSFacts.div_fin by lra.
        cbn [JS.mul JS.add JS.sub JS.neg].
        destruct (JS.ge (JS.Fin w) (JS.Fin h)).
        -- assert (Hs0 : 0 <= q / T * w) by (apply Qmult_le_0_compat; lra).
           assert (Hs1 : q / T * w <= w) by nra.
           destruct (layoutRow_tiles x y (JS.Fin T) out Hrne Hrow Hs0 Hh)
             as [strip [Es [Ts Is]]].
           rewrite Es, squarify_equation_2. cbn [app].
           destruct (IH [c] (x + q / T * w) y (w + - (q / T * w)) h
                        (T + - q) (out ++ strip))
             as [rects [E [Ht Hi]]]; side.
           exists (strip ++ rects). split; [| split].
           ++ rewrite E, app_assoc. reflexivity.
           ++ apply tiles_beside with (w1 := q / T * w)
                                      (w2 := w + - (q / T * w));
                try assumption; lra.
           ++ rewrite map_app, Is, Hi. reflexivity.
        -- assert (Hs0 : 0 <= q / T * h) by (apply Qmult_le_0_compat; lra).
           assert (Hs1 : q / T * h <= h) by nra.
           destruct (layoutRow_tiles x y (JS.Fin T) out Hrne Hrow Hw Hs0)
             as [strip [Es [Ts Is]]].
           rewrite Es, squarify_equation_2. cbn [app].
           destruct (IH [c] x (y + q / T * h) w (h + - (q / T * h))
                        (T + - q) (out ++ strip))
             as [rects [E [Ht Hi]]]; side.
           exists (strip ++ rects). split; [| split].
           ++ rewrite E, app_assoc. reflexivity.
           ++ apply tiles_above with (h1 := q / T * h)
                                     (h2 := h + - (q / T * h));
                try assumption; lra.
           ++ rewrite map_app, Is, Hi. reflexivity.
Qed.

(** *** Sorting *)

Lemma insertSorted_perm a l : Permutation (insertSorted a l) (a :: l).
Proof.
  induction l as [| b l IH]; cbn.
  - reflexivity.
  - match goal with |- context [if ?b then _ else _] => destruct b end.
    + rewrite IH. apply perm_swap.
    + reflexivity.
Qed.

Lemma sortByWeight_perm items : Permutation (sortByWeight items) items.
Proof.
  induction items as [| a items IH]; cbn.
  - reflexivity.
  - rewrite insertSorted_perm. constructor. exact IH.
Qed.

(** For finite weights the sorted list is in descending order of weight. *)
Definition finiteWeight (i : HeatmapItem) : Prop := JS.finite (weight i).

Definition heavierFirst (a b : HeatmapItem) : Prop := wq b <= wq a.

Lemma cmpWeight_pos a b : finiteWeight a -> finiteWeight b ->
  ((cmpWeight a b >? JS.zero)%js = true <-> wq a < wq b).
Proof.
  unfold finiteWeight, cmpWeight, wq.
  destruct (weight a) as [p | | |], (weight b) as [q | | |]; cbn; try tauto.
  intros _ _. change (JS.lt (JS.Fin 0) (JS.Fin (q + - p)) = true <-> p < q).
  rewrite JSFacts.lt_fin. split; intro; lra.
Qed.

Lemma insertSorted_sorted a l :
  finiteWeight a -> Forall finiteWeight l ->
  StronglySorted heavierFirst l ->
  StronglySorted heavierFirst (insertSorted a l).
Proof.
  intros Ha Hl Hs. induction Hs as [| b l Hs IH Hb]; cbn [insertSorted].
  - repeat constructor.
  - inversion Hl as [| ? ? Hfb Hfl]; subst.
    destruct (JS.gt (cmpWeight a b) JS.zero) eqn:E.
    + apply (cmpWeight_pos a b Ha Hfb) in E. constructor; [apply IH; exact Hfl |].
      apply (Permutation_Forall (Permutation_sym (insertSorted_perm a l))).
      constructor; [unfold heavierFirst; lra | exact Hb].
    + assert (Hle : wq b <= wq a).
      { apply Qnot_lt_le. intro Hlt.
        apply (cmpWeight_pos a b Ha Hfb) in Hlt. congruence. }
      constructor; [constructor; assumption |].
      constructor; [exact Hle |].
      eapply Forall_impl; [| exact Hb]. unfold heavierFirst. intros c Hc. lra.
Qed.

Lemma sortByWeight_descending items : Forall finiteWeight items ->
  StronglySorted heavierFirst (sortByWeight items).
Proof.
  induction 1 as [| a items Ha Hitems IH]; cbn.
  - constructor.
  - apply insertSorted_sorted; [exact Ha | | exact IH].
    apply (Permutation_Forall (Permutation_sym (sortByWeight_perm items))).
    exact Hitems.
Qed.




(** The treemap of three items of weights 50, 30 and 20 in a square of side
    100, where the hypotheses of the tiling theorem hold. *)
Definition item (n : Z) : HeatmapItem :=
  {| id := None; label := EmptyString; weight := JS.of_Z n;
     change := JS.zero; sublabel := None; group := None |}.


(** *** Which items are laid out *)

Lemma layoutCell_item x y w h gap isWide rowWeight st i :
  map r_item (snd (layoutCell x y w h gap isWide rowWeight st i))
  = map r_item (snd st) ++ [i].
Proof.
  destruct st as [offset out], isWide; cbn; rewrite map_app; reflexivity.
Qed.

Lemma layoutCells_items x y w h gap isWide rowWeight row :
  forall st,
    map r_item
      (snd (fold_left (layoutCell x y w h gap isWide rowWeight) row st))
    = map r_item (snd st) ++ row.
Proof.
  induction row as [| i row IH]; intro st; cbn [fold_left].
  - rewrite app_nil_r. reflexivity.
  - rewrite IH, layoutCell_item, <- app_assoc. reflexivity.
Qed.

(** [layoutRow] appends one rectangle per item of the row, whatever the
    weights, the region and the gap are. *)
Lemma layoutRow_items row x y w h T out gap :
  map r_item (layoutRow row x y w h T out gap) = map r_item out ++ row.
Proof.
  unfold layoutRow. destruct row as [| i row].
  - rewrite app_nil_r. reflexivity.
  - apply layoutCells_items.
Qed.





(** *** Flushing a row *)

(** [squarify] flushes the pending row when the row is not empty and
    appending the next child [c] makes the worst ratio larger. *)
Definition flushes (c : HeatmapItem) (row : list HeatmapItem)
    (w h totalArea : JS.num) : Prop :=
  row <> []
  /\ (worst (row ++ [c]) w h (w * h)%js totalArea
      <=? worst row w h (w * h)%js totalArea)%js = false.

(** The cells of [row], in the row's order, laid one after the other along
    one axis of the strip [(x, y, w, h)]: each cell starts where the one
    before it ends, takes the share [weight / rowWeight] of the strip on
    that axis, and spans the strip on the other axis. *)
Definition contiguous (g : Q) (row : list HeatmapItem)
    (strip : list LayoutRect) (x y w h : Q) : Prop :=
  stackedDown g x w (fun i => wq i / sumQ row * h) y row strip
  \/ stackedAcross g y h (fun i => wq i / sumQ row * w) x row strip.

Lemma layoutRow_contiguous row x y w h T out g :
  row <> [] -> Forall positiveWeight row ->
  exists strip,
    layoutRow row (JS.Fin x) (JS.Fin y) (JS.Fin w) (JS.Fin h) T out (JS.Fin g)
    = out ++ strip
    /\ contiguous g row strip x y w h.
Proof.
  intros Hne Hpos.
  destruct (layoutRow_cells x y w h T out g Hne Hpos) as [strip [E [Hd Ha]]].
  exists strip. split; [exact E |].
  destruct (Qlt_le_dec w h) as [Hlt | Hle]; [right | left]; auto.
Qed.

(** C3 (as the code has it).  When [squarify] flushes a row of positive
    weights, with [s] the row's share [rowWeight / totalArea] of the
    weight still to be laid out:
    - in a wide region ([w >= h]) the strip is vertical: it spans the full
      height [h] and the part [s * w] of the width, and [squarify] goes on
      with the region to its right, so successive strips sit side by side;
    - in a tall region ([w < h]) the strip is horizontal: it spans the full
      width [w] and the part [s * h] of the height, and [squarify] goes on
      with the region below it, so successive strips stack top to bottom;
    - in both cases the row's cells are appended to the output in the
      row's order and are contiguous in the strip. *)
Theorem squarify_flush (c : HeatmapItem) (rest row : list HeatmapItem)
    (x y w h T g : Q) (out : list LayoutRect) :
  Forall positiveWeight row -> 0 < T ->
  flushes c row (JS.Fin w) (JS.Fin h) (JS.Fin T) ->
  exists s T',
    s == sumQ row / T /\ T' == T - sumQ row
    /\ (h <= w ->
        exists strip,
          squarify (c :: rest) row (JS.Fin x) (JS.Fin y) (JS.Fin w) (JS.Fin h)
            (JS.Fin T) out (JS.Fin g)
          = squarify (c :: rest) [] (JS.Fin (x + s * w)) (JS.Fin y)
              (JS.Fin (w - s * w)) (JS.Fin h) (JS.Fin T') (out ++ strip)
              (JS.Fin g)
          /\ map r_item strip = row
          /\ contiguous g row strip x y (s * w) h)
    /\ (w < h ->
        exists strip,
          squarify (c :: rest) row (JS.Fin x) (JS.Fin y) (JS.Fin w) (JS.Fin h)
            (JS.Fin T) out (JS.Fin g)
          = squarify (c :: rest) [] (JS.Fin x) (JS.Fin (y + s * h))
              (JS.Fin w) (JS.Fin (h - s * h)) (JS.Fin T') (out ++ strip)
              (JS.Fin g)
          /\ map r_item strip = row
          /\ contiguous g row strip x y w (s * h)).
Proof.
  intros Hpos HT [Hne Hflush].
  destruct (sumWeight_fin Hpos) as [q [Eq Hq]].
  exists (q / T), (T - q). split; [rewrite Hq; reflexivity |].
  split; [rewrite Hq; reflexivity |].
  destruct row as [| r row']; [congruence |].
  rewrite squarify_equation_3. cbv zeta. rewrite Hflush, Eq.
  rewrite JSFacts.div_fin by lra. cbn [JS.mul JS.add JS.sub JS.neg].
  split; intro Hwh.
  - apply JSFacts.ge_fin in Hwh. rewrite Hwh.
    destruct (layoutRow_contiguous x y (q / T * w) h (JS.Fin T) out g Hne Hpos)
      as [strip [E Hc]].
    exists strip. rewrite E. split; [reflexivity |].
    split; [| exact Hc].
    pose proof (layoutRow_items (r :: row') (JS.Fin x) (JS.Fin y)
                  (JS.Fin (q / T * w)) (JS.Fin h) (JS.Fin T) out (JS.Fin g))
      as Hi.
    rewrite E, map_app in Hi. apply app_inv_head in Hi. exact Hi.
  - apply JSFacts.ge_fin_false in Hwh. rewrite Hwh.
    destruct (layoutRow_contiguous x y w (q / T * h) (JS.Fin T) out g Hne Hpos)
      as [strip [E Hc]].
    exists strip. rewrite E. split; [reflexivity |].
    split; [| exact Hc].
    pose proof (layoutRow_items (r :: row') (JS.Fin x) (JS.Fin y)
                  (JS.Fin w) (JS.Fin (q / T * h)) (JS.Fin T) out (JS.Fin g))
      as Hi.
    rewrite E, map_app in Hi. apply app_inv_head in Hi. exact Hi.
Qed.

(** The row [[50]] is flushed before the child 30 in a region 200 wide and
    100 high, with weight 100 to lay out. *)
Lemma squarify_flush_witness :
  exists s T',
    s == sumQ [item 50] / 100 /\ T' == 100 - sumQ [item 50]
    /\ (100 <= 200 ->
        exists strip,
          squarify [item 30; item 20] [item 50] (JS.Fin 0) (JS.Fin 0)
            (JS.Fin 200) (JS.Fin 100) (JS.Fin 100) [] (JS.Fin 0)
          = squarify [item 30; item 20] [] (JS.Fin (0 + s * 200)) (JS.Fin 0)
              (JS.Fin (200 - s * 200)) (JS.Fin 100) (JS.Fin T') ([] ++ strip)
              (JS.Fin 0)
          /\ map r_item strip = [item 50]
          /\ contiguous 0 [item 50] strip 0 0 (s * 200) 100)
    /\ (200 < 100 ->
        exists strip,
          squarify [item 30; item 20] [item 50] (JS.Fin 0) (JS.Fin 0)
            (JS.Fin 200) (JS.Fin 100) (JS.Fin 100) [] (JS.Fin 0)
          = squarify [item 30; item 20] [] (JS.Fin 0) (JS.Fin (0 + s * 100))
              (JS.Fin 200) (JS.Fin (100 - s * 100)) (JS.Fin T') ([] ++ strip)
              (JS.Fin 0)
          /\ map r_item strip = [item 50]
          /\ contiguous 0 [item 50] strip 0 0 200 (s * 100)).
Proof.
  apply (@squarify_flush (item 30) [item 20] [item 50] 0 0 200 100 100 0 []).
  - repeat constructor.
  - reflexivity.
  - split; [discriminate | vm_compute; reflexivity].
Defined.

(** The corners of a rectangle, as reduced fractions. *)
Definition corners (r : LayoutRect) : Q * Q * Q * Q :=
  (Qred (qx r), Qred (qy r), Qred (qw r), Qred (qh r)).

(** The layout of the weights 50, 30 and 20 in a square of side 100: the
    areas are 5000, 3000 and 2000. *)
Example layoutTreemap_50_30_20 :
  map corners
    (layoutTreemap [item 50; item 30; item 20]
       (JS.Fin 0) (JS.Fin 0) (JS.Fin 100) (JS.Fin 100) (JS.Fin 0))
  = [(0, 0, 50, 100); (50, 0, 50, 60); (50, 60, 50, 40)].
Proof. vm_compute. reflexivity. Qed.

(** C3 as it is stated, for a strip of one cell in a wide region: the
    strip spans the full width of the region and the next strip lies
    below it. *)
Definition claimedWideStrip (x w : Q) (strip next : LayoutRect) : Prop :=
  qx strip == x /\ qw strip == w
  /\ qx next == x /\ qy next == qy strip + qh strip.

(** C3 as it is stated, for two consecutive cells [a], [b] of a strip that
    is [sw] wide and [sh] high: [b] follows [a] along the long axis. *)
Definition claimedAlongLongAxis (sw sh : Q) (a b : LayoutRect) : Prop :=
  if Qlt_le_dec sw sh
  then qx b == qx a /\ qy b == qy a + qh a
  else qy b == qy a /\ qx b == qx a + qw a.

(** C3 (as stated) fails on both counts.
    - Weights 50, 30, 20 in the wide region 200 x 100: the row [[50]] is
      flushed, and its strip is the rectangle (0, 0, 100, 100), which
      spans the full height and half of the width; the next strip starts
      beside it at abscissa 100, not below it.
    - Four weights 1 in the region 100 x 100: the row [[1; 1]] is flushed
      into the strip (0, 0, 50, 100), whose long axis is the vertical one,
      and its two cells are 25 wide and 100 high, next to each other along
      the horizontal, short axis. *)
Lemma strip_orientation_counterexample :
  (let rects :=
     layoutTreemap [item 50; item 30; item 20]
       (JS.Fin 0) (JS.Fin 0) (JS.Fin 200) (JS.Fin 100) (JS.Fin 0) in
   flushes (item 30) [item 50] (JS.Fin 200) (JS.Fin 100) (JS.Fin 100)
   /\ map corners rects
      = [(0, 0, 100, 100); (100, 0, 60, 100); (160, 0, 40, 100)]
   /\ exists strip next,
        nth_error rects 0 = Some strip /\ nth_error rects 1 = Some next
        /\ ~ claimedWideStrip 0 200 strip next)
  /\ (let rects :=
        layoutTreemap [item 1; item 1; item 1; item 1]
          (JS.Fin 0) (JS.Fin 0) (JS.Fin 100) (JS.Fin 100) (JS.Fin 0) in
      flushes (item 1) [item 1; item 1] (JS.Fin 100) (JS.Fin 100) (JS.Fin 4)
      /\ map corners rects
         = [(0, 0, 25, 100); (25, 0, 25, 100);
            (50, 0, 50, 50); (50, 50, 50, 50)]
      /\ exists a b,
           nth_error rects 0 = Some a /\ nth_error rects 1 = Some b
           /\ ~ claimedAlongLongAxis 50 100 a b).
Proof.
  split; cbv zeta.
  - split; [split; [discriminate | vm_compute; reflexivity] |].
    split; [vm_compute; reflexivity |].
    eexists. eexists. split; [vm_compute; reflexivity |].
    split; [vm_compute; reflexivity |].
    intros [_ [Hw _]]. vm_compute in Hw. discriminate Hw.
  - split; [split; [discriminate | vm_compute; reflexivity] |].
    split; [vm_compute; reflexivity |].
    eexists. eexists. split; [vm_compute; reflexivity |].
    split; [vm_compute; reflexivity |].
    unfold claimedAlongLongAxis.
    destruct (Qlt_le_dec 50 100) as [_ | Hle].
    + intros [Hx _]. vm_compute in Hx. discriminate Hx.
    + exfalso. vm_compute in Hle. apply Hle. reflexivity.
Qed.

End HeatmapFacts.

(* ===================================================================== *)
(** ** The area chart: percentage stacking *)
(* ===================================================================== *)

Module AreaChartFacts.

Import AreaChart.
Local Open Scope Q_scope.

(** A finite number that is not negative. *)
Definition nonneg (a : JS.num) : Prop :=
  match a with JS.Fin q => 0 <= q | _ => False end.

(** The total of column [i] of the matrix; a series too short to have the
    column counts for 0 there, as in the source. *)
Fixpoint colTotal (vals : list (list JS.num)) (i : nat) : Q :=
  match vals with
  | [] => 0
  | row :: rest => JS.val (at0 row i) + colTotal rest i
  end.

(** Entry [i] of series [si] of a matrix. *)
Definition entry (m : list (list JS.num)) (si i : nat) : JS.num :=
  at0 (nth si m []) i.

Lemma at0_nonneg row i :
  Forall nonneg row -> at0 row i = JS.Fin (JS.val (at0 row i))
                       /\ 0 <= JS.val (at0 row i).
Proof.
  intro H. unfold at0.
  destruct (Nat.lt_ge_cases i (List.length row)) as [Hlt | Hge].
  - rewrite Forall_forall in H. specialize (H (nth i row JS.zero)).
    assert (Hin : In (nth i row JS.zero) row) by (apply nth_In; exact Hlt).
    specialize (H Hin). destruct (nth i row JS.zero); cbn in *; intuition.
  - rewrite nth_overflow by exact Hge. cbn. split; [reflexivity | lra].
Qed.

Lemma colTotal_nonneg vals i :
  Forall (Forall nonneg) vals -> 0 <= colTotal vals i.
Proof.
  induction 1 as [| row rest Hrow _ IH]; cbn.
  - lra.
  - destruct (at0_nonneg i Hrow) as [_ H0]. lra.
Qed.

Lemma colTotal_firstn_le vals i : Forall (Forall nonneg) vals ->
  forall k, colTotal (firstn k vals) i <= colTotal vals i.
Proof.
  induction 1 as [| row rest Hrow Hrest IH]; intro k.
  - rewrite firstn_nil. cbn. lra.
  - destruct k as [| k]; cbn.
    + destruct (at0_nonneg i Hrow) as [_ H0].
      pose proof (colTotal_nonneg i Hrest). lra.
    + specialize (IH k). lra.
Qed.


Lemma at0_map_seq (f : nat -> JS.num) n i :
  (i < n)%nat -> at0 (map f (seq 0 n)) i = f i.
Proof.
  intro H. unfold at0.
  rewrite (nth_indep _ JS.zero (f 0%nat))
    by (rewrite length_map, length_seq; exact H).
  rewrite (map_nth f (seq 0 n) 0%nat i), seq_nth by exact H. reflexivity.
Qed.

Lemma stackRows_length n vals :
  forall prev, List.length (stackRows n prev vals) = List.length vals.
Proof.
  induction vals as [| row rest IH]; intro prev; cbn.
  - reflexivity.
  - rewrite IH. reflexivity.
Qed.


(** The value of series [si] at index [i] after stacking is the total of
    column [i] over the series up to [si], on top of the row [prev]. *)
Lemma stackRows_entry n vals : Forall (Forall nonneg) vals ->
  forall prev (base : nat -> Q),
    (forall i, (i < n)%nat ->
       match prev with Some p => at0 p i | None => JS.zero end
       = JS.Fin (base i)) ->
    forall si i, (si < List.length vals)%nat -> (i < n)%nat ->
      exists c, entry (stackRows n prev vals) si i = JS.Fin c
                /\ c == base i + colTotal (firstn (S si) vals) i.
Proof.
  induction 1 as [| row rest Hrow _ IH]; intros prev base Hprev si i Hsi Hi.
  - cbn in Hsi. lia.
  - destruct (at0_nonneg i Hrow) as [Erow _].
    cbn [stackRows].
    set (cur := map _ (seq 0 n)).
    assert (Hcur : forall j, (j < n)%nat ->
              at0 cur j = JS.Fin (base j + JS.val (at0 row j))).
    { intros j Hj. subst cur. rewrite at0_map_seq by exact Hj.
      rewrite (Hprev j Hj).
      destruct (at0_nonneg j Hrow) as [Ej _]. rewrite Ej at 1. reflexivity. }
    destruct si as [| si].
    + unfold entry. cbn [nth]. rewrite (Hcur i Hi).
      eexists. split; [reflexivity |]. cbn. destruct rest; cbn; lra.
    + cbn in Hsi.
      destruct (IH (Some cur) (fun j => base j + JS.val (at0 row j))
                  Hcur si i) as [c [E Hc]]; [lia | exact Hi |].
      exists c. split; [exact E |].
      change (firstn (S (S si)) (row :: rest))
        with (row :: firstn (S si) rest).
      cbn [colTotal]. rewrite Hc. lra.
Qed.

Lemma computeStacked_entry vals : Forall (Forall nonneg) vals ->
  forall si i, (si < List.length vals)%nat -> (i < width vals)%nat ->
    exists c, entry (computeStacked vals) si i = JS.Fin c
              /\ c == colTotal (firstn (S si) vals) i.
Proof.
  intros H si i Hsi Hi. unfold computeStacked.
  destruct (@stackRows_entry (width vals) vals H None (fun _ => 0)
              (fun _ _ => eq_refl) si i Hsi Hi) as [c [E Hc]].
  exists c. split; [exact E | lra].
Qed.

Lemma last_nth (A : Type) (l : list A) (d : A) :
  last l d = nth (List.length l - 1) l d.
Proof.
  induction l as [| a l IH]; [reflexivity |].
  destruct l as [| b l]; [reflexivity |].
  change (last (a :: b :: l) d) with (last (b :: l) d). rewrite IH.
  cbn [List.length]. replace (S (S (List.length l)) - 1)%nat
    with (S (List.length l - 0)) by lia.
  replace (S (List.length l) - 1)%nat with (List.length l - 0)%nat by lia.
  reflexivity.
Qed.

Lemma Forall_firstn' (A : Type) (P : A -> Prop) (l : list A) :
  Forall P l -> forall k, Forall P (firstn k l).
Proof.
  induction 1 as [| a l Ha _ IH]; intro k.
  - rewrite firstn_nil. constructor.
  - destruct k; cbn; constructor; auto.
Qed.

Lemma computeStacked_length vals :
  List.length (computeStacked vals) = List.length vals.
Proof. apply stackRows_length. Qed.

(** The entry of the percentage matrix, before any arithmetic on it. *)
Lemma expanded_entry vals : Forall (Forall nonneg) vals ->
  forall si i, (si < List.length vals)%nat -> (i < width vals)%nat ->
    exists c T,
      c == colTotal (firstn (S si) vals) i
      /\ T == colTotal vals i
      /\ entry (computeStackedExpanded vals) si i
         = if (JS.Fin T >? JS.zero)%js
           then (JS.Fin c / JS.Fin T * JS.Fin 100)%js
           else JS.zero.
Proof.
  intros H si i Hsi Hi.
  destruct (computeStacked_entry H Hsi Hi) as [c [Ec Hc]].
  assert (Hlast : (List.length vals - 1 < List.length vals)%nat) by lia.
  destruct (computeStacked_entry H Hlast Hi) as [T [ET HT]].
  replace (S (List.length vals - 1)) with (List.length vals) in HT by lia.
  rewrite firstn_all in HT.
  exists c, T. split; [exact Hc |]. split; [exact HT |].
  unfold computeStackedExpanded, entry.
  set (g := fun crow : list JS.num => map _ (seq 0 (width vals))).
  rewrite (nth_indep _ [] (g []))
    by (rewrite length_map, computeStacked_length; exact Hsi).
  rewrite (map_nth g (computeStacked vals) [] si). subst g. cbv beta.
  rewrite at0_map_seq by exact Hi.
  rewrite last_nth, computeStacked_length.
  fold (entry (computeStacked vals) (List.length vals - 1) i).
  fold (entry (computeStacked vals) si i).
  rewrite ET, Ec. reflexivity.
Qed.



(** *** The hovered index *)

Lemma of_nat_nonzero n : (0 < n)%nat -> ~ inject_Z (Z.of_nat n) == 0.
Proof.
  intros Hn E. unfold Qeq in E. cbn in E. lia.
Qed.

(** With a finite pixel ratio, canvas width and pointer abscissa, every
    distance and the slot width are finite. *)
Lemma distTo_finite p d cw m i :
  dpr p = JS.Fin d -> canvasWidth p = JS.Fin cw ->
  distTo p (JS.Fin m) i = JS.Fin (JS.val (distTo p (JS.Fin m) i)).
Proof.
  intros Ed Ecw. unfold distTo, toX, plotW, mLeft, mRight, JS.of_nat, JS.of_Z.
  rewrite Ed, Ecw.
  rewrite JSFacts.div_fin
    by (apply of_nat_nonzero; unfold spans; lia).
  destruct (showYAxis p); reflexivity.
Qed.

Lemma slotW_finite p d cw :
  dpr p = JS.Fin d -> canvasWidth p = JS.Fin cw ->
  slotW p = JS.Fin (JS.val (slotW p)).
Proof.
  intros Ed Ecw. unfold slotW, plotW, mLeft, mRight, JS.of_nat, JS.of_Z.
  rewrite Ed, Ecw.
  destruct (1 <? labels p)%nat eqn:E.
  - apply Nat.ltb_lt in E.
    destruct (showYAxis p); cbn [JS.mul JS.sub JS.add JS.neg];
      rewrite JSFacts.div_fin by (apply of_nat_nonzero; lia); reflexivity.
  - destruct (showYAxis p); reflexivity.
Qed.

(** The loop of [findHoveredIndex] over the first [k] indices, given the
    distances [f] and the acceptance bound [r]: either nothing was
    accepted, and every distance is at least [r]; or the state holds the
    first index of least distance, and that distance is below [r]. *)
Lemma hover_loop p mx (f : nat -> Q) (r : Q) :
  (forall i, distTo p mx i = JS.Fin (f i)) ->
  (slotW p * JS.Fin (6 # 10))%js = JS.Fin r ->
  forall k,
    let st := fold_left (hoverStep p mx) (seq 0 k) ((-1)%Z, JS.PInf) in
    (st = ((-1)%Z, JS.PInf) /\ forall j, (j < k)%nat -> r <= f j)
    \/ (exists i, st = (Z.of_nat i, JS.Fin (f i)) /\ (i < k)%nat /\ f i < r
                  /\ (forall j, (j < k)%nat -> f i <= f j)
                  /\ (forall j, (j < i)%nat -> f i < f j)).
Proof.
  intros Hf Hr k. induction k as [| k IH]; cbv zeta.
  - left. split; [reflexivity |]. intros j Hj. lia.
  - rewrite seq_S, fold_left_app. cbn [fold_left Nat.add].
    cbv zeta in IH. destruct IH as [[E Hall] | [i [E [Hi [Hir [Hmin Hfirst]]]]]];
      rewrite E; unfold hoverStep; rewrite Hf, Hr.
    + change (JS.lt (JS.Fin (f k)) JS.PInf) with true. cbn [andb].
      destruct (JS.lt (JS.Fin (f k)) (JS.Fin r)) eqn:El.
      * apply JSFacts.lt_fin in El. right. exists k.
        split; [reflexivity |]. split; [lia |]. split; [exact El |].
        split; intros j Hj.
        -- destruct (Nat.eq_dec j k) as [-> | Hne]; [lra |].
           assert (Hj' : (j < k)%nat) by lia. specialize (Hall j Hj'). lra.
        -- specialize (Hall j Hj). lra.
      * apply JSFacts.lt_fin_false in El. left.
        split; [reflexivity |]. intros j Hj.
        destruct (Nat.eq_dec j k) as [-> | Hne]; [exact El |].
        apply Hall. lia.
    + destruct (JS.lt (JS.Fin (f k)) (JS.Fin (f i))
                && JS.lt (JS.Fin (f k)) (JS.Fin r)) eqn:El.
      * apply andb_true_iff in El. destruct El as [E1 E2].
        apply JSFacts.lt_fin in E1, E2. right. exists k.
        split; [reflexivity |]. split; [lia |]. split; [exact E2 |].
        split; intros j Hj.
        -- destruct (Nat.eq_dec j k) as [-> | Hne]; [lra |].
           assert (Hj' : (j < k)%nat) by lia. specialize (Hmin j Hj'). lra.
        -- specialize (Hmin j Hj). lra.
      * apply andb_false_iff in El. right. exists i.
        split; [reflexivity |]. split; [lia |]. split; [exact Hir |].
        split; [| exact Hfirst]. intros j Hj.
        destruct (Nat.eq_dec j k) as [-> | Hne]; [| apply Hmin; lia].
        destruct El as [El | El]; apply JSFacts.lt_fin_false in El; lra.
Qed.





End AreaChartFacts.

(* ===================================================================== *)
(** ** Theme: explicit and ambient backgrounds *)
(* ===================================================================== *)

Module ThemeFacts.

Import Theme.
Local Open Scope string_scope.

(** Every byte, to decide a property of characters by enumeration. *)
Definition allAscii : list ascii := map ascii_of_nat (seq 0 256).

Lemma allAscii_complete c : In c allAscii.
Proof.
  unfold allAscii. apply in_map_iff. exists (nat_of_ascii c).
  split; [apply ascii_nat_embedding |].
  apply in_seq. pose proof (nat_ascii_bounded c). lia.
Qed.







Local Open Scope Q_scope.







End ThemeFacts.

(* ===================================================================== *)
(** ** The staggered animation: progress and completion *)
(* ===================================================================== *)

Unset Implicit Arguments.

Module AnimationFacts.

Import BarChart Donut.
Import Lra.
Local Open Scope R_scope.

(** [clamp(x, lo, hi)] *)
Definition clamp (x lo hi : R) : R := Rmax lo (Rmin hi x).

Lemma sliceProgress_barProgress anim i e :
  sliceProgress anim i e = barProgress anim i e.
Proof. reflexivity. Qed.

(** Comparing a quotient by a positive number. *)
Lemma div_le_iff x y d : 0 < d -> (x / d <= y <-> x <= y * d).
Proof.
  intro Hd. assert (E : x / d * d = x) by (field; lra). split; intro H.
  - rewrite <- E. apply Rmult_le_compat_r; lra.
  - apply Rmult_le_reg_r with d; [exact Hd |]. rewrite E. exact H.
Qed.

Lemma div_ge_iff x y d : 0 < d -> (y <= x / d <-> y * d <= x).
Proof.
  intro Hd. assert (E : x / d * d = x) by (field; lra). split; intro H.
  - rewrite <- E. apply Rmult_le_compat_r; lra.
  - apply Rmult_le_reg_r with d; [exact Hd |]. rewrite E. exact H.
Qed.

(** Clamping before or after the division by a positive duration. *)
Lemma raw_clamp x d : 0 < d -> Rmin 1 (Rmax 0 x / d) = clamp (x / d) 0 1.
Proof.
  intro Hd. unfold clamp.
  destruct (Rle_dec x 0) as [Hx | Hx].
  - rewrite (Rmax_left 0 x) by exact Hx.
    assert (E : 0 / d = 0) by (unfold Rdiv; ring). rewrite E.
    assert (Hq : x / d <= 0) by (apply div_le_iff; lra).
    rewrite (Rmin_right 1 0) by lra.
    rewrite (Rmin_right 1 (x / d)) by lra.
    rewrite (Rmax_left 0 (x / d)) by exact Hq. reflexivity.
  - assert (Hx' : 0 < x) by lra.
    rewrite (Rmax_right 0 x) by lra.
    assert (Hq : 0 <= x / d) by (apply div_ge_iff; lra).
    symmetry. apply Rmax_right.
    unfold Rmin. destruct (Rle_dec 1 (x / d)); lra.
Qed.

Lemma barProgress_finite anim i e :
  enabled anim = true -> 0 < duration anim ->
  barProgress anim i (Finite e)
  = easing anim (clamp ((e - delay anim * INR i) / duration anim) 0 1).
Proof.
  intros He Hd. unfold barProgress. rewrite He. cbn [negb].
  cbv zeta. rewrite raw_clamp by exact Hd. reflexivity.
Qed.

Lemma clamp_before x : x <= 0 -> clamp x 0 1 = 0.
Proof.
  intro H. unfold clamp. rewrite (Rmin_right 1 x) by lra.
  apply Rmax_left. exact H.
Qed.


Lemma linear_0 : linear 0 = 0.
Proof. reflexivity. Qed.

Lemma easeOut_0 : easeOut 0 = 0.
Proof. unfold easeOut. ring. Qed.

Lemma easeInOut_0 : easeInOut 0 = 0.
Proof.
  unfold easeInOut. destruct (Rlt_dec 0 (1 / 2)) as [_ | H]; [ring | lra].
Qed.

Lemma spring_0 : spring 0 = 0.
Proof.
  unfold spring. rewrite !Rmult_0_r, exp_0, cos_0. ring.
Qed.






(** The entries of [EASINGS]. *)
Lemma EASINGS_cases name f :
  EASINGS name = Some f ->
  f = linear \/ f = easeOut \/ f = easeInOut \/ f = spring.
Proof.
  unfold EASINGS.
  destruct (String.eqb name "linear"); [intros [= <-]; auto |].
  destruct (String.eqb name "easeOut"); [intros [= <-]; auto |].
  destruct (String.eqb name "easeInOut"); [intros [= <-]; auto |].
  destruct (String.eqb name "spring"); [intros [= <-]; auto | discriminate].
Qed.

Lemma EASINGS_0 name f : EASINGS name = Some f -> f 0 = 0.
Proof.
  intro H. destruct (EASINGS_cases name f H) as [-> | [-> | [-> | ->]]].
  - apply linear_0.
  - apply easeOut_0.
  - apply easeInOut_0.
  - apply spring_0.
Qed.

(** C4.  For an enabled animation of positive duration, an item index [i]
    and a finite elapsed time [e], [barProgress] and [sliceProgress] are
    [easing (clamp ((e - delay * i) / duration, 0, 1))]; before the
    item's offset has elapsed this is [easing 0], which is 0 for each of
    the four easings of [EASINGS]. *)
Theorem progress_formula (anim : ResolvedAnim) (i : nat) (e : R) :
  enabled anim = true -> 0 < duration anim ->
  let t := clamp ((e - delay anim * INR i) / duration anim) 0 1 in
  barProgress anim i (Finite e) = easing anim t
  /\ sliceProgress anim i (Finite e) = easing anim t
  /\ (e <= delay anim * INR i ->
      t = 0
      /\ forall name, EASINGS name = Some (easing anim) ->
           barProgress anim i (Finite e) = 0
           /\ sliceProgress anim i (Finite e) = 0).
Proof.
  intros He Hd. cbv zeta.
  pose proof (barProgress_finite anim i e He Hd) as Hb.
  split; [exact Hb |]. split; [exact Hb |].
  intro Hle.
  assert (Ht : clamp ((e - delay anim * INR i) / duration anim) 0 1 = 0).
  { apply clamp_before. apply div_le_iff; lra. }
  split; [exact Ht |]. intros name Hname.
  change (sliceProgress anim i (Finite e)) with (barProgress anim i (Finite e)).
  rewrite Hb, Ht.
  split; apply (EASINGS_0 name _ Hname).
Qed.

(** The default animation ([true]): easeOut over 600 ms with a stagger of
    30 ms; the third bar, 50 ms after the start. *)
Lemma progress_formula_witness :
  let anim := resolveAnim RawTrue in
  let t := clamp ((50 - delay anim * INR 2) / duration anim) 0 1 in
  barProgress anim 2 (Finite 50) = easing anim t
  /\ sliceProgress anim 2 (Finite 50) = easing anim t
  /\ (50 <= delay anim * INR 2 ->
      t = 0
      /\ forall name, EASINGS name = Some (easing anim) ->
           barProgress anim 2 (Finite 50) = 0
           /\ sliceProgress anim 2 (Finite 50) = 0).
Proof.
  apply (progress_formula (resolveAnim RawTrue) 2 50).
  - reflexivity.
  - cbn. lra.
Defined.

(** *** Completion *)











End AnimationFacts.

(* ===================================================================== *)
(** ** The donut: sector hit-testing *)
(* ===================================================================== *)

Module DonutFacts.

Import Donut.
Import Lra.
Local Open Scope R_scope.

Lemma atan_nonpos t : t <= 0 -> atan t <= 0.
Proof.
  intros [Hlt | ->].
  - left. rewrite <- atan_0. apply atan_increasing. exact Hlt.
  - rewrite atan_0. lra.
Qed.

Lemma atan_pos t : 0 < t -> 0 < atan t.
Proof. intro H. rewrite <- atan_0. apply atan_increasing. exact H. Qed.

(** [Math.atan2] returns an angle of [(-PI, PI]]. *)
Lemma atan2_range y x : - PI < atan2 y x <= PI.
Proof.
  pose proof PI_RGT_0 as Hpi. unfold atan2.
  destruct (Rlt_dec 0 x) as [Hx | Hx].
  - destruct (atan_bound (y / x)). lra.
  - destruct (Rlt_dec x 0) as [Hx' | Hx'].
    + assert (Hinv : / x < 0) by (apply Rinv_lt_0_compat; exact Hx').
      destruct (atan_bound (y / x)) as [Hlo Hhi].
      destruct (Rle_dec 0 y) as [Hy | Hy].
      * assert (Hq : y / x <= 0).
        { unfold Rdiv. rewrite <- (Rmult_0_l (/ x)).
          apply Rmult_le_compat_neg_l with (r := / x) in Hy; [| lra].
          rewrite (Rmult_comm y), (Rmult_comm 0). exact Hy. }
        pose proof (atan_nonpos _ Hq). lra.
      * assert (Hq : 0 < y / x).
        { unfold Rdiv. replace (y * / x) with ((- y) * (- / x)) by ring.
          apply Rmult_lt_0_compat; lra. }
        pose proof (atan_pos _ Hq). lra.
    + destruct (Rlt_dec 0 y); [lra |]. destruct (Rlt_dec y 0); lra.
Qed.

(** After normalisation the pointer angle is in [[-PI / 2, 3 PI / 2)],
    the turn that starts at 12 o'clock. *)
Lemma pointerAngle_range g x y :
  - PI / 2 <= pointerAngle g x y < 3 * PI / 2.
Proof.
  unfold pointerAngle.
  pose proof (atan2_range (y - chartCy g) (x - chartCx g)) as [Hlo Hhi].
  pose proof PI_RGT_0.
  destruct (Rlt_dec _ _); lra.
Qed.







(** A ring of three equal slices around the origin, between the radii 50
    and 100. *)
Definition ring3 : Geometry :=
  {| chartCx := 0; chartCy := 0; outerR := 100; innerR := 50; dpr := 1;
     sliceAngles := computeSliceAngles [1; 1; 1] |}.


End DonutFacts.

(* ===================================================================== *)
(** ** The treemap widget: easing, the frame loop and clicks *)
(* ===================================================================== *)

Module HeatmapExtra.

Import Heatmap HeatmapFacts.
Import Lqa.
Local Open Scope Q_scope.

(** [ease] on a finite argument, as a rational. *)
Definition easeQ (type : string) (t : Q) : Q :=
  if String.eqb type "easeOut" then 1 - (1 - t) * (1 - t) * (1 - t)
  else if String.eqb type "easeInOut" then
    if Qlt_le_dec t (1 # 2) then 4 * t * t * t
    else 1 - ((-2) * t + 2) * ((-2) * t + 2) * ((-2) * t + 2) / 2
  else t.

Lemma ease_fin type t :
  exists q, ease (JS.Fin t) type = JS.Fin q /\ q == easeQ type t.
Proof.
  unfold ease, easeQ, pow3.
  destruct (String.eqb type "easeOut").
  - eexists. split; [reflexivity |]. cbn. ring.
  - destruct (String.eqb type "easeInOut").
    + destruct (JS.lt (JS.Fin t) (JS.Fin (1 # 2))) eqn:E.
      * apply JSFacts.lt_fin in E.
        destruct (Qlt_le_dec t (1 # 2)) as [_ | H]; [| lra].
        eexists. split; [reflexivity |]. ring.
      * apply JSFacts.lt_fin_false in E.
        destruct (Qlt_le_dec t (1 # 2)) as [H | _]; [lra |].
        eexists. split; [reflexivity |]. cbn. field.
    + eexists. split; reflexivity.
Qed.

Lemma cube_nonneg a : 0 <= a -> 0 <= a * a * a.
Proof. intro H. assert (0 <= a * a) by nra. nra. Qed.

Lemma cube_pos a : 0 < a -> 0 < a * a * a.
Proof. intro H. assert (0 < a * a) by nra. nra. Qed.

Lemma cube_le a b : 0 <= a -> a <= b -> a * a * a <= b * b * b.
Proof.
  intros Ha Hab.
  assert (H1 : a * a <= b * b) by nra.
  assert (H2 : a * a * a <= b * b * a) by nra.
  assert (H3 : b * b * a <= b * b * b) by nra.
  lra.
Qed.

Lemma cube_le_1 a : 0 <= a -> a <= 1 -> a * a * a <= 1.
Proof. intros H0 H1. pose proof (cube_le a 1 H0 H1). lra. Qed.

Lemma easeQ_monotone type t u :
  0 <= t -> t <= u -> u <= 1 -> easeQ type t <= easeQ type u.
Proof.
  intros H0 Htu H1. unfold easeQ.
  destruct (String.eqb type "easeOut").
  - pose proof (cube_le (1 - u) (1 - t) ltac:(lra) ltac:(lra)). lra.
  - destruct (String.eqb type "easeInOut"); [| exact Htu].
    unfold Qdiv. change (/ 2) with (1 # 2).
    destruct (Qlt_le_dec t (1 # 2)) as [Ht | Ht],
             (Qlt_le_dec u (1 # 2)) as [Hu | Hu]; try lra.
    + pose proof (cube_le t u H0 Htu). lra.
    + pose proof (cube_le t (1 # 2) H0 ltac:(lra)) as Ha.
      pose proof (cube_le_1 ((-2) * u + 2) ltac:(lra) ltac:(lra)) as Hb.
      lra.
    + pose proof (cube_le ((-2) * u + 2) ((-2) * t + 2)
                    ltac:(lra) ltac:(lra)) as Hc.
      lra.
Qed.

Lemma easeQ_0 type : easeQ type 0 == 0.
Proof.
  unfold easeQ.
  destruct (String.eqb type "easeOut"); [ring |].
  destruct (String.eqb type "easeInOut"); [| reflexivity].
  destruct (Qlt_le_dec 0 (1 # 2)) as [_ | H]; [ring | lra].
Qed.

Lemma easeQ_1 type : easeQ type 1 == 1.
Proof.
  unfold easeQ.
  destruct (String.eqb type "easeOut"); [ring |].
  destruct (String.eqb type "easeInOut"); [| reflexivity].
  destruct (Qlt_le_dec 1 (1 # 2)) as [H | _]; [lra | reflexivity].
Qed.

Lemma easeQ_ext type t u : t == u -> easeQ type t == easeQ type u.
Proof.
  intro E. unfold easeQ.
  destruct (String.eqb type "easeOut"); [rewrite E; reflexivity |].
  destruct (String.eqb type "easeInOut"); [| exact E].
  destruct (Qlt_le_dec t (1 # 2)), (Qlt_le_dec u (1 # 2));
    try lra; rewrite E; reflexivity.
Qed.

(** X1.  Whatever the type string is, [ease] maps the unit interval into
    itself, fixes both ends, and does not decrease: for
    [0 <= t <= u <= 1] the results are numbers with
    [0 <= ease t <= ease u <= 1], [ease 0 = 0] and [ease 1 = 1]. *)
Theorem ease_unit_interval (type : string) (t u : Q) :
  0 <= t -> t <= u -> u <= 1 ->
  exists p q,
    ease (JS.Fin t) type = JS.Fin p /\ ease (JS.Fin u) type = JS.Fin q
    /\ 0 <= p /\ p <= q /\ q <= 1
    /\ (t == 0 -> p == 0) /\ (u == 1 -> q == 1).
Proof.
  intros H0 Htu H1.
  destruct (ease_fin type t) as [p [Ep Hp]].
  destruct (ease_fin type u) as [q [Eq Hq]].
  exists p, q. split; [exact Ep |]. split; [exact Eq |].
  pose proof (easeQ_monotone type 0 t (Qle_refl 0) H0 ltac:(lra)) as Hlo.
  pose proof (easeQ_monotone type t u H0 Htu H1) as Hmid.
  pose proof (easeQ_monotone type u 1 ltac:(lra) H1 (Qle_refl 1)) as Hhi.
  pose proof (easeQ_0 type) as E0. pose proof (easeQ_1 type) as E1.
  repeat split; try lra.
  - intro Ht. rewrite Hp, (easeQ_ext type t 0 Ht). exact E0.
  - intro Hu. rewrite Hq, (easeQ_ext type u 1 Hu). exact E1.
Qed.

Lemma ease_unit_interval_witness :
  exists p q,
    ease (JS.Fin (1 # 4)) "easeInOut" = JS.Fin p
    /\ ease (JS.Fin (3 # 4)) "easeInOut" = JS.Fin q
    /\ 0 <= p /\ p <= q /\ q <= 1
    /\ ((1 # 4) == 0 -> p == 0) /\ ((3 # 4) == 1 -> q == 1).
Proof.
  apply (ease_unit_interval "easeInOut" (1 # 4) (3 # 4)); discriminate.
Defined.

(** *** The frame loop *)

Lemma cube_nonpos a : a <= 0 -> a * a * a <= 0.
Proof. intro H. assert (0 <= a * a) by nra. nra. Qed.

(** Before the end of the animation the eased progress is below 1. *)
Lemma easeQ_lt_1 type r : r < 1 -> easeQ type r < 1.
Proof.
  intro Hr. unfold easeQ.
  destruct (String.eqb type "easeOut").
  - pose proof (cube_pos (1 - r) ltac:(lra)). lra.
  - destruct (String.eqb type "easeInOut"); [| exact Hr].
    unfold Qdiv. change (/ 2) with (1 # 2).
    destruct (Qlt_le_dec r (1 # 2)) as [Hh | Hh].
    + destruct (Qlt_le_dec r 0) as [Hn | Hp].
      * pose proof (cube_nonpos r ltac:(lra)). lra.
      * pose proof (cube_le r (1 # 2) Hp ltac:(lra)). lra.
    + pose proof (cube_pos ((-2) * r + 2) ltac:(lra)). lra.
Qed.

Definition durationOf (cfg : HeatmapAnimationConfig) : JS.num :=
  match a_duration cfg with Some d => d | None => JS.Fin 500 end.

(** X2.  With a positive duration [d] (500 when none is configured), a
    frame of the treemap animation [e] after the start draws an eased
    progress below 1 and requests another frame when [e < d]; when
    [d <= e] it draws the final state twice, with [Infinity], and requests
    no frame: the animation ends exactly at the first frame at or after
    its duration, whatever the easing is. *)
Theorem tick_completion (cfg : HeatmapAnimationConfig) (d e : Q) :
  durationOf cfg = JS.Fin d -> 0 < d ->
  (e < d -> exists p, tick cfg (JS.Fin e) = ([JS.Fin p], true) /\ p < 1)
  /\ (d <= e -> tick cfg (JS.Fin e) = ([JS.PInf; JS.PInf], false)).
Proof.
  intros Hd Hpos. unfold durationOf in Hd. unfold tick. rewrite Hd.
  rewrite JSFacts.div_fin by lra.
  set (type := match a_easing cfg with Some x => x | None => "easeOut"%string end).
  split; intro He.
  - assert (Hq : e / d < 1) by (apply Qlt_shift_div_r; lra).
    assert (Emin : JS.min (JS.Fin 1) (JS.Fin (e / d)) = JS.Fin (e / d)).
    { unfold JS.min.
      destruct (JS.lt (JS.Fin (e / d)) (JS.Fin 1)) eqn:E; [reflexivity |].
      apply JSFacts.lt_fin_false in E. lra. }
    rewrite Emin. destruct (ease_fin type (e / d)) as [p [Ep Hp]].
    rewrite Ep. pose proof (easeQ_lt_1 type (e / d) Hq) as Hlt.
    assert (Hp1 : p < 1) by lra.
    assert (E1 : JS.lt (JS.Fin p) (JS.Fin 1) = true)
      by (apply JSFacts.lt_fin; exact Hp1).
    assert (E2 : JS.ge (JS.Fin p) (JS.Fin 1) = false)
      by (apply JSFacts.ge_fin_false; exact Hp1).
    rewrite E1, E2. exists p. split; [reflexivity | exact Hp1].
  - assert (Hq : 1 <= e / d) by (apply Qle_shift_div_l; lra).
    assert (Emin : JS.min (JS.Fin 1) (JS.Fin (e / d)) = JS.Fin 1).
    { unfold JS.min.
      destruct (JS.lt (JS.Fin (e / d)) (JS.Fin 1)) eqn:E; [| reflexivity].
      apply JSFacts.lt_fin in E. lra. }
    rewrite Emin. destruct (ease_fin type 1) as [p [Ep Hp]].
    rewrite Ep. pose proof (easeQ_1 type) as H1.
    assert (E1 : JS.lt (JS.Fin p) (JS.Fin 1) = false)
      by (apply JSFacts.lt_fin_false; lra).
    assert (E2 : JS.ge (JS.Fin p) (JS.Fin 1) = true)
      by (apply JSFacts.ge_fin; lra).
    rewrite E1, E2. reflexivity.
Qed.

(** The default duration, 250 ms and 500 ms after the start. *)
Lemma tick_completion_witness :
  let cfg := {| a_duration := None; a_easing := None;
                a_style := Some "fade"%string |} in
  (250 < 500 -> exists p, tick cfg (JS.Fin 250) = ([JS.Fin p], true) /\ p < 1)
  /\ (500 <= 500 -> tick cfg (JS.Fin 500) = ([JS.PInf; JS.PInf], false)).
Proof.
  cbv zeta. split.
  - apply (tick_completion _ 500 250); reflexivity.
  - apply (tick_completion _ 500 500); reflexivity.
Defined.

(** *** Clicks *)

(** The pointer is strictly inside the rectangle. *)
Definition interior (r : LayoutRect) (px py : Q) : Prop :=
  qx r < px /\ px < qx r + qw r /\ qy r < py /\ py < qy r + qh r.

(** The test of the click listener on a finite rectangle. *)
Lemma clicked_test r px py :
  finiteRect r ->
  ((JS.Fin px >=? r_x r)%js && (JS.Fin px <=? r_x r + r_w r)%js
   && (JS.Fin py >=? r_y r)%js && (JS.Fin py <=? r_y r + r_h r)%js = true
   <-> qx r <= px /\ px <= qx r + qw r /\ qy r <= py /\ py <= qy r + qh r).
Proof.
  unfold finiteRect, qx, qy, qw, qh.
  destruct (r_x r) as [x | | |], (r_y r) as [y | | |],
           (r_w r) as [w | | |], (r_h r) as [h | | |]; cbn [JS.finite];
    try tauto.
  intros _. cbn [JS.add JS.val].
  rewrite !andb_true_iff, !JSFacts.ge_fin, !JSFacts.le_fin. tauto.
Qed.

(** Among finite rectangles no two of which overlap, a click strictly
    inside one of them reaches that one. *)
Lemma clickedItem_interior rects :
  Forall finiteRect rects ->
  ForallOrdPairs (fun a b => ~ overlap a b) rects ->
  forall k r px py,
    nth_error rects k = Some r -> interior r px py ->
    clickedItem rects (JS.Fin px) (JS.Fin py) = Some (r_item r).
Proof.
  intros Hfin Hdis. induction Hdis as [| a rects Ha Hdis IH];
    intros k r px py Hk Hin.
  - destruct k; discriminate.
  - inversion Hfin as [| ? ? Hfa Hfrest]; subst.
    cbn [clickedItem]. destruct k as [| k]; cbn in Hk.
    + injection Hk as ->.
      assert (E : ((JS.Fin px >=? r_x r)%js && (JS.Fin px <=? r_x r + r_w r)%js
                   && (JS.Fin py >=? r_y r)%js
                   && (JS.Fin py <=? r_y r + r_h r)%js) = true).
      { apply clicked_test; [exact Hfa |]. unfold interior in Hin. lra. }
      rewrite E. reflexivity.
    + destruct ((JS.Fin px >=? r_x a)%js && (JS.Fin px <=? r_x a + r_w a)%js
                && (JS.Fin py >=? r_y a)%js
                && (JS.Fin py <=? r_y a + r_h a)%js) eqn:E.
      * exfalso. apply clicked_test in E; [| exact Hfa].
        rewrite Forall_forall in Ha.
        apply (Ha r (nth_error_In _ _ Hk)).
        unfold overlap. unfold interior in Hin. lra.
      * apply (IH Hfrest k r px py Hk Hin).
Qed.

(** The layout of a non-empty list of positive weights, without gap. *)
Lemma layoutTreemap_tiles items x y w h :
  items <> [] -> Forall positiveWeight items -> 0 <= w -> 0 <= h ->
  tiles (layoutTreemap items (JS.Fin x) (JS.Fin y) (JS.Fin w) (JS.Fin h)
           (JS.Fin 0)) x y w h.
Proof.
  intros Hne Hpos Hw Hh.
  unfold layoutTreemap. destruct items as [| i0 items0]; [congruence |].
  set (items := i0 :: items0) in *.
  pose proof (sortByWeight_perm items) as Hperm.
  assert (Hspos : Forall positiveWeight (sortByWeight items)).
  { apply Forall_forall. intros i Hi. rewrite Forall_forall in Hpos.
    apply Hpos. apply (Permutation_in _ Hperm). exact Hi. }
  assert (Hsne : sortByWeight items <> []).
  { intro E. rewrite E in Hperm. apply Permutation_nil in Hperm.
    subst items. discriminate. }
  destruct (sumWeight_fin Hspos) as [q [Eq Hq]].
  pose proof (sumQ_pos Hspos Hsne) as Hsum.
  rewrite Eq. unfold JS.zero.
  destruct (JS.le (JS.Fin q) (JS.Fin 0)) eqn:El.
  { apply JSFacts.le_fin in El. lra. }
  destruct (@squarify_tiles (sortByWeight items) [] x y w h q [] Hspos)
    as [rects [E [Ht _]]]; try assumption.
  - constructor.
  - cbn [sumQ]. lra.
  - rewrite E. exact Ht.
Qed.

(** X3.  Layout and click agree: in the treemap of a non-empty list of
    positive weights laid out without gap, a click strictly inside a
    rectangle calls [onClick] with the item of that rectangle. *)
Theorem click_hits_own_item (items : list HeatmapItem) (x y w h : Q)
    (k : nat) (r : LayoutRect) (px py : Q) :
  items <> [] -> Forall positiveWeight items -> 0 <= w -> 0 <= h ->
  let rects :=
    layoutTreemap items (JS.Fin x) (JS.Fin y) (JS.Fin w) (JS.Fin h) (JS.Fin 0)
  in
  nth_error rects k = Some r -> interior r px py ->
  clickedItem rects (JS.Fin px) (JS.Fin py) = Some (r_item r).
Proof.
  intros Hne Hpos Hw Hh rects Hk Hin.
  destruct (layoutTreemap_tiles items x y w h Hne Hpos Hw Hh) as [Hi _ Hd].
  apply (clickedItem_interior rects) with (k := k); try assumption.
  eapply Forall_impl; [| exact Hi]. intros a Ha. apply Ha.
Qed.

(** A click at (60, 10) in the layout of the weights 50, 30 and 20 in a
    square of side 100 falls in the cell of the weight 30. *)
Lemma click_hits_own_item_witness :
  clickedItem
    (layoutTreemap [item 50; item 30; item 20]
       (JS.Fin 0) (JS.Fin 0) (JS.Fin 100) (JS.Fin 100) (JS.Fin 0))
    (JS.Fin 60) (JS.Fin 10)
  = Some (item 30).
Proof.
  assert (H : exists r,
             nth_error
               (layoutTreemap [item 50; item 30; item 20]
                  (JS.Fin 0) (JS.Fin 0) (JS.Fin 100) (JS.Fin 100) (JS.Fin 0))
               1 = Some r
             /\ interior r 60 10 /\ r_item r = item 30).
  { eexists. split; [vm_compute; reflexivity |].
    split; [vm_compute; repeat split; reflexivity | reflexivity]. }
  destruct H as [r [Hk [Hin Hit]]].
  apply eq_trans with (Some (r_item r)); [| f_equal; exact Hit].
  apply (click_hits_own_item [item 50; item 30; item 20] 0 0 100 100 1 r 60 10).
  - discriminate.
  - repeat constructor.
  - discriminate.
  - discriminate.
  - exact Hk.
  - exact Hin.
Defined.

End HeatmapExtra.

(* ===================================================================== *)
(** ** Colours: hexadecimal colours and their interpolation *)
(* ===================================================================== *)

Module ColorExtra.

Import Theme ThemeFacts HeatmapColor.
Import Lqa.
Local Open Scope string_scope.
Local Open Scope Z_scope.

(** The hexadecimal digits have values 0 to 15. *)
Definition hexRangeOk (d : ascii) : bool :=
  match hexDigit d with
  | Some v => (0 <=? v) && (v <=? 15)
  | None => true
  end.

Lemma hexRangeOk_all : forallb hexRangeOk allAscii = true.
Proof. vm_compute. reflexivity. Qed.

Lemma hexDigit_range d v : hexDigit d = Some v -> 0 <= v <= 15.
Proof.
  intro H. pose proof hexRangeOk_all as Hall.
  rewrite forallb_forall in Hall. specialize (Hall d (allAscii_complete d)).
  unfold hexRangeOk in Hall. rewrite H in Hall.
  apply andb_true_iff in Hall. destruct Hall as [H0 H1].
  apply Z.leb_le in H0. apply Z.leb_le in H1. lia.
Qed.

(** A string that starts with two hexadecimal digits has no white space,
    sign or [0x] for [parseInt] to skip. *)
Lemma parseInt16_digits d1 d2 rest :
  hexDigit d1 <> None -> hexDigit d2 <> None ->
  parseInt16 (String d1 (String d2 rest))
  = match fst (readDigits hexDigit 16 None (String d1 (String d2 rest))) with
    | Some v => JS.of_Z (1 * v)
    | None => JS.NaN
    end.
Proof.
  intros H1 H2.
  destruct d1 as [[] [] [] [] [] [] [] []];
    try (exfalso; apply H1; reflexivity); try reflexivity.
  destruct d2 as [[] [] [] [] [] [] [] []];
    try (exfalso; apply H2; reflexivity); reflexivity.
Qed.

Lemma toInt32_small n : 0 <= n < 2 ^ 31 -> toInt32 (JS.of_Z n) = n.
Proof.
  intro H. unfold toInt32, JS.of_Z, inject_Z. cbn [Qnum Qden].
  rewrite Z.quot_1_r. rewrite Z.mod_small by lia. lia.
Qed.

Lemma byte_of n : Z.land n 255 = n mod 256.
Proof. change 255 with (Z.ones 8). rewrite Z.land_ones by lia. reflexivity. Qed.

Lemma byte_range n : 0 <= Z.land n 255 <= 255.
Proof.
  rewrite byte_of. pose proof (Z.mod_pos_bound n 256 ltac:(lia)). lia.
Qed.

(** The three bytes of a 24-bit colour. *)
Lemma channels_of r g b :
  0 <= r <= 255 -> 0 <= g <= 255 -> 0 <= b <= 255 ->
  let n := (r * 256 + g) * 256 + b in
  Z.land (Z.shiftr n 16) 255 = r /\ Z.land (Z.shiftr n 8) 255 = g
  /\ Z.land n 255 = b.
Proof.
  intros Hr Hg Hb n. subst n. rewrite !byte_of, !Z.shiftr_div_pow2 by lia.
  change (2 ^ 16) with 65536. change (2 ^ 8) with 256.
  assert (E16 : ((r * 256 + g) * 256 + b) / 65536 = r).
  { symmetry. apply (Z.div_unique _ 65536 r (g * 256 + b)); lia. }
  assert (E8 : ((r * 256 + g) * 256 + b) / 256 = r * 256 + g).
  { symmetry. apply (Z.div_unique _ 256 (r * 256 + g) b); lia. }
  rewrite E16, E8. repeat split.
  - apply Z.mod_small. lia.
  - symmetry. apply (Z.mod_unique _ 256 r g); lia.
  - symmetry. apply (Z.mod_unique _ 256 (r * 256 + g) b); lia.
Qed.

Lemma parseHex_six d1 d2 d3 d4 d5 d6 v1 v2 v3 v4 v5 v6 :
  hexDigit d1 = Some v1 -> hexDigit d2 = Some v2 ->
  hexDigit d3 = Some v3 -> hexDigit d4 = Some v4 ->
  hexDigit d5 = Some v5 -> hexDigit d6 = Some v6 ->
  parseHex
    (String "#" (String d1 (String d2 (String d3 (String d4
       (String d5 (String d6 EmptyString)))))))
  = (16 * v1 + v2, 16 * v3 + v4, 16 * v5 + v6).
Proof.
  intros H1 H2 H3 H4 H5 H6. unfold parseHex.
  change (removeFirstHash (String "#"
            (String d1 (String d2 (String d3 (String d4
               (String d5 (String d6 EmptyString))))))))
    with (String d1 (String d2 (String d3 (String d4
            (String d5 (String d6 EmptyString)))))).
  cbv zeta. cbn [expand3].
  rewrite parseInt16_digits by congruence.
  cbn [readDigits]. rewrite H1, H2, H3, H4, H5, H6. cbn [fst].
  pose proof (hexDigit_range _ _ H1). pose proof (hexDigit_range _ _ H2).
  pose proof (hexDigit_range _ _ H3). pose proof (hexDigit_range _ _ H4).
  pose proof (hexDigit_range _ _ H5). pose proof (hexDigit_range _ _ H6).
  replace (1 * ((((((0 * 16 + v1) * 16 + v2) * 16 + v3) * 16 + v4) * 16 + v5)
                * 16 + v6))
    with (((16 * v1 + v2) * 256 + (16 * v3 + v4)) * 256 + (16 * v5 + v6))
    by ring.
  rewrite toInt32_small by lia.
  destruct (channels_of (16 * v1 + v2) (16 * v3 + v4) (16 * v5 + v6))
    as [E1 [E2 E3]]; try lia.
  cbv zeta in E1, E2, E3. rewrite E1, E2, E3. reflexivity.
Qed.

Lemma parseHex_range (hex : string) :
  let '(r, g, b) := parseHex hex in
  0 <= r <= 255 /\ 0 <= g <= 255 /\ 0 <= b <= 255.
Proof.
  unfold parseHex. cbv zeta. repeat split; apply byte_range.
Qed.

(** X4.  [parseHex] never returns a channel outside [[0, 255]], whatever
    the string is; it reads [#RRGGBB] as the three bytes [RR], [GG] and
    [BB]; and it reads the shorthand [#RGB] as [#RRGGBB]. *)
Theorem parseHex_channels :
  (forall hex,
      let '(r, g, b) := parseHex hex in
      0 <= r <= 255 /\ 0 <= g <= 255 /\ 0 <= b <= 255)
  /\ (forall d1 d2 d3 d4 d5 d6 v1 v2 v3 v4 v5 v6,
        hexDigit d1 = Some v1 -> hexDigit d2 = Some v2 ->
        hexDigit d3 = Some v3 -> hexDigit d4 = Some v4 ->
        hexDigit d5 = Some v5 -> hexDigit d6 = Some v6 ->
        parseHex
          (String "#" (String d1 (String d2 (String d3 (String d4
             (String d5 (String d6 EmptyString)))))))
        = (16 * v1 + v2, 16 * v3 + v4, 16 * v5 + v6))
  /\ (forall a b c,
        parseHex (String "#" (String a (String b (String c EmptyString))))
        = parseHex
            (String "#" (String a (String a (String b (String b
               (String c (String c EmptyString)))))))).
Proof.
  split; [| split].
  - intro hex. unfold parseHex. cbv zeta. repeat split; apply byte_range.
  - exact parseHex_six.
  - intros a b c. reflexivity.
Qed.

Lemma parseHex_channels_witness :
  parseHex "#26a69a" = (38, 166, 154) /\ parseHex "#fff" = parseHex "#ffffff".
Proof.
  destruct parseHex_channels as [_ [Hsix Hshort]]. split.
  - apply (Hsix "2" "6" "a" "6" "9" "a" 2 6 10 6 9 10)%char; reflexivity.
  - apply Hshort.
Defined.

(** *** The luminance of a shorthand colour *)

Definition upTo (bound : Q) (a : JS.num) : bool :=
  match a with
  | JS.Fin q => Qle_bool q bound
  | _ => false
  end.

Lemma twoChars_upTo_255 :
  forallb
    (fun d1 =>
       forallb
         (fun d2 =>
            upTo 255 (orZero (parseInt16 (String d1 (String d2 EmptyString)))))
         allAscii)
    allAscii = true.
Proof. vm_compute. reflexivity. Qed.

Lemma oneChar_upTo_15 :
  forallb (fun d => upTo 15 (orZero (parseInt16 (String d EmptyString))))
    allAscii = true.
Proof. vm_compute. reflexivity. Qed.

Lemma upTo_spec bound a :
  upTo bound a = true -> exists q, a = JS.Fin q /\ (q <= bound)%Q.
Proof.
  destruct a as [q | | |]; cbn; try discriminate.
  intro H. apply Qle_bool_iff in H. exists q. split; [reflexivity | exact H].
Qed.

Lemma luminance_low r g :
  (r <= 255)%Q -> (g <= 15)%Q ->
  luminanceAbove150 (JS.Fin r) (JS.Fin g) JS.zero = false.
Proof.
  intros Hr Hg. unfold luminanceAbove150, JS.zero. cbn [JS.mul JS.add].
  rewrite JSFacts.div_fin by discriminate.
  apply not_true_iff_false. rewrite JSFacts.gt_fin.
  intro H. unfold Qdiv in H. change (/ 1000)%Q with (1 # 1000)%Q in H. lra.
Qed.

(** X5.  [hexLuminance] does not expand the shorthand: of a background
    made of [#] and three characters it reads the first two as red, the
    third as green and nothing as blue, so that every such background,
    [#fff] included, is classed dark. *)
Theorem shorthand_is_dark (d1 d2 d3 : ascii) (el : option (list string)) :
  isLightBg (String "#" (String d1 (String d2 (String d3 EmptyString)))) el
  = false.
Proof.
  assert (E : isLightBg
                (String "#" (String d1 (String d2 (String d3 EmptyString)))) el
              = hexLuminance
                  (String "#" (String d1 (String d2 (String d3 EmptyString))))).
  { destruct el; reflexivity. }
  rewrite E. unfold hexLuminance.
  change (startsWithHash (String "#" ?s)) with true. cbv iota.
  change (removeFirstHash
            (String "#" (String d1 (String d2 (String d3 EmptyString)))))
    with (String d1 (String d2 (String d3 EmptyString))).
  cbv zeta.
  change (Theme.substring 0 2 (String d1 (String d2 (String d3 EmptyString))))
    with (String d1 (String d2 EmptyString)).
  change (Theme.substring 2 4 (String d1 (String d2 (String d3 EmptyString))))
    with (String d3 EmptyString).
  change (Theme.substring 4 6 (String d1 (String d2 (String d3 EmptyString))))
    with EmptyString.
  change (orZero (parseInt16 EmptyString)) with JS.zero.
  pose proof twoChars_upTo_255 as H2. rewrite forallb_forall in H2.
  specialize (H2 d1 (allAscii_complete d1)). rewrite forallb_forall in H2.
  specialize (H2 d2 (allAscii_complete d2)).
  pose proof oneChar_upTo_15 as H1. rewrite forallb_forall in H1.
  specialize (H1 d3 (allAscii_complete d3)).
  apply upTo_spec in H2. destruct H2 as [r [Er Hr]].
  apply upTo_spec in H1. destruct H1 as [g [Eg Hg]].
  rewrite Er, Eg. apply luminance_low; assumption.
Qed.

(** *** Interpolation *)

Local Open Scope Q_scope.

(** Rounding a rational between two integers gives an integer between
    them. *)
Lemma round_between (lo hi : Z) (x : Q) :
  inject_Z lo <= x -> x <= inject_Z hi ->
  (lo <= Qfloor (x + (1 # 2)) <= hi)%Z.
Proof.
  intros Hlo Hhi. split.
  - rewrite <- (Qfloor_Z lo). apply Qfloor_resp_le. lra.
  - pose proof (Qfloor_le (x + (1 # 2))) as Hf.
    assert (Hlt : inject_Z (Qfloor (x + (1 # 2))) < inject_Z (hi + 1)).
    { rewrite inject_Z_plus. change (inject_Z 1) with 1. lra. }
    rewrite <- Zlt_Qlt in Hlt. lia.
Qed.

Lemma lerpChannel_between (a b : Z) (t : Q) :
  0 <= t -> t <= 1 ->
  exists z,
    lerpChannel a b (JS.Fin t) = RInt z
    /\ (Z.min a b <= z <= Z.max a b)%Z
    /\ (t == 0 -> z = a) /\ (t == 1 -> z = b).
Proof.
  intros H0 H1. unfold lerpChannel, JS.of_Z.
  cbn [JS.sub JS.add JS.neg JS.mul round].
  set (A := inject_Z a). set (B := inject_Z b).
  set (x := A + (B + - A) * t).
  exists (Qfloor (x + (1 # 2))). split; [reflexivity |].
  assert (Hab : (a <= b)%Z -> A <= x /\ x <= B).
  { intro H. rewrite Zle_Qle in H. fold A B in H. subst x. split; nra. }
  assert (Hba : (b <= a)%Z -> B <= x /\ x <= A).
  { intro H. rewrite Zle_Qle in H. fold A B in H. subst x. split; nra. }
  split; [| split].
  - destruct (Z.le_ge_cases a b) as [H | H].
    + rewrite Z.min_l, Z.max_r by exact H.
      apply round_between; apply Hab; exact H.
    + rewrite Z.min_r, Z.max_l by exact H.
      apply round_between; apply Hba; exact H.
  - intro Ht. assert (Hx : x == A) by (subst x; rewrite Ht; ring).
    pose proof (round_between a a x) as Hr. fold A in Hr.
    specialize (Hr ltac:(lra) ltac:(lra)). lia.
  - intro Ht. assert (Hx : x == B) by (subst x; rewrite Ht; ring).
    pose proof (round_between b b x) as Hr. fold B in Hr.
    specialize (Hr ltac:(lra) ltac:(lra)). lia.
Qed.

(** The interpolation parameter [Math.min(1, Math.abs(change) / maxChange)]
    for a positive [maxChange]. *)
Lemma saturation c m :
  0 < m ->
  exists t,
    JS.min (JS.Fin 1) (JS.abs (JS.Fin c) / JS.Fin m)%js = JS.Fin t
    /\ 0 <= t /\ t <= 1 /\ (c == 0 -> t == 0) /\ (m <= Qabs c -> t == 1).
Proof.
  intro Hm. cbn [JS.abs]. rewrite JSFacts.div_fin by lra.
  pose proof (Qabs_nonneg c) as Ha.
  assert (Hq0 : 0 <= Qabs c / m) by (apply Qle_shift_div_l; lra).
  unfold JS.min.
  destruct (JS.lt (JS.Fin (Qabs c / m)) (JS.Fin 1)) eqn:E.
  - apply JSFacts.lt_fin in E. exists (Qabs c / m).
    split; [reflexivity |]. split; [exact Hq0 |]. split; [lra |]. split.
    + intro Hc. rewrite Hc. reflexivity.
    + intro Hsat. exfalso.
      assert (1 <= Qabs c / m) by (apply Qle_shift_div_l; lra). lra.
  - exists 1. split; [reflexivity |]. split; [lra |]. split; [lra |]. split.
    + intro Hc. exfalso. apply JSFacts.lt_fin_false in E.
      assert (Hz : Qabs c / m == 0) by (rewrite Hc; reflexivity). lra.
    + intros _. reflexivity.
Qed.

(** X6.  For a finite change and a positive [maxChange], [changeToColor]
    returns [rgb(r,g,b)] with integer channels, each between the channel of
    the neutral colour and that of the target colour (the positive colour
    for [change >= 0], the negative one otherwise), hence in [[0, 255]]:
    the neutral colour itself for the change 0, and the target colour
    itself once [|change| >= maxChange]. *)
Theorem changeToColor_between (c m : Q) (pos neg neu : string)
    (n0 n1 n2 t0 t1 t2 : Z) :
  0 < m ->
  parseHex neu = (n0, n1, n2) ->
  parseHex (if Qle_bool 0 c then pos else neg) = (t0, t1, t2) ->
  exists r g b,
    changeToColor (JS.Fin c) (JS.Fin m) pos neg neu
    = rgbStr (RInt r) (RInt g) (RInt b)
    /\ (Z.min n0 t0 <= r <= Z.max n0 t0)%Z
    /\ (Z.min n1 t1 <= g <= Z.max n1 t1)%Z
    /\ (Z.min n2 t2 <= b <= Z.max n2 t2)%Z
    /\ (0 <= r <= 255 /\ 0 <= g <= 255 /\ 0 <= b <= 255)%Z
    /\ (c == 0 -> r = n0 /\ g = n1 /\ b = n2)
    /\ (m <= Qabs c -> r = t0 /\ g = t1 /\ b = t2).
Proof.
  intros Hm Hneu Htarget.
  destruct (saturation c m Hm) as [t [Et [Ht0 [Ht1 [Hzero Hsat]]]]].
  unfold changeToColor. cbv zeta. rewrite Et.
  assert (Esel : (if (JS.Fin c >=? JS.zero)%js then pos else neg)
                 = (if Qle_bool 0 c then pos else neg)).
  { unfold JS.zero. destruct (Qle_bool 0 c) eqn:E.
    - apply Qle_bool_iff in E.
      assert (E' : JS.ge (JS.Fin c) (JS.Fin 0) = true)
        by (apply JSFacts.ge_fin; exact E).
      rewrite E'. reflexivity.
    - assert (E' : JS.ge (JS.Fin c) (JS.Fin 0) = false).
      { apply JSFacts.ge_fin_false. apply Qnot_le_lt. intro H.
        apply Qle_bool_iff in H. congruence. }
      rewrite E'. reflexivity. }
  rewrite Esel. unfold lerpColor. rewrite Hneu, Htarget.
  destruct (lerpChannel_between n0 t0 t Ht0 Ht1) as [r [Er [Br [Zr Sr]]]].
  destruct (lerpChannel_between n1 t1 t Ht0 Ht1) as [g [Eg [Bg [Zg Sg]]]].
  destruct (lerpChannel_between n2 t2 t Ht0 Ht1) as [b [Eb [Bb [Zb Sb]]]].
  rewrite Er, Eg, Eb. exists r, g, b. split; [reflexivity |].
  pose proof (parseHex_range neu) as Rn.
  pose proof (parseHex_range (if Qle_bool 0 c then pos else neg)) as Rt.
  rewrite Hneu in Rn. rewrite Htarget in Rt.
  repeat split; try lia; auto.
Qed.

Lemma changeToColor_between_witness :
  exists r g b,
    changeToColor (JS.Fin (3 # 2)) (JS.Fin 3) "#22c55e" "#ef4444" "#64748b"
    = rgbStr (RInt r) (RInt g) (RInt b)
    /\ (Z.min 100 34 <= r <= Z.max 100 34)%Z
    /\ (Z.min 116 197 <= g <= Z.max 116 197)%Z
    /\ (Z.min 139 94 <= b <= Z.max 139 94)%Z
    /\ (0 <= r <= 255 /\ 0 <= g <= 255 /\ 0 <= b <= 255)%Z
    /\ ((3 # 2) == 0 -> r = 100%Z /\ g = 116%Z /\ b = 139%Z)
    /\ (3 <= Qabs (3 # 2) -> r = 34%Z /\ g = 197%Z /\ b = 94%Z).
Proof.
  apply (changeToColor_between (3 # 2) 3 "#22c55e" "#ef4444" "#64748b"
           100 116 139 34 197 94).
  - reflexivity.
  - vm_compute. reflexivity.
  - vm_compute. reflexivity.
Defined.

(** *** Colours in decimal notation *)

Local Open Scope Z_scope.

Definition startsWithDigit (s : string) : bool :=
  match s with
  | String c _ => match decDigit c with Some _ => true | None => false end
  | EmptyString => false
  end.

Fixpoint allWhite (s : string) : bool :=
  match s with
  | String c s' => isWhite c && allWhite s'
  | EmptyString => true
  end.

(** The text of a colour in functional notation: [rgb(] or [rgba(], the
    three channels in decimal separated by commas, each after the white
    space [s1], [s2], [s3], and whatever follows the third. *)
Definition rgbText (alpha : bool) (s1 s2 s3 : string) (r g b : nat)
    (tail : string) : string :=
  ("rgb" ++ (if alpha then "a" else EmptyString) ++ "(" ++ s1 ++ natStr r
   ++ "," ++ s2 ++ natStr g ++ "," ++ s3 ++ natStr b ++ tail)%string.

Lemma readDigits_uint (d : Decimal.uint) (a : nat) (rest : string) :
  startsWithDigit rest = false ->
  readDigits decDigit 10 (Some (Z.of_nat a))
    (NilEmpty.string_of_uint d ++ rest)
  = (Some (Z.of_nat (Nat.of_uint_acc d a)), rest).
Proof.
  intro Hrest. revert a.
  induction d; intro a; cbn [NilEmpty.string_of_uint append Nat.of_uint_acc];
    try (cbn [readDigits]; change (decDigit _) with (Some 0);
         cbv iota beta; rewrite <- IHd; do 2 f_equal;
         rewrite Nat.tail_mul_spec; lia);
    try (cbn [readDigits];
         match goal with
         | |- context [decDigit ?c] =>
             let v := eval vm_compute in (decDigit c) in
             change (decDigit c) with v
         end;
         cbv iota beta; rewrite <- IHd; do 2 f_equal;
         rewrite Nat.tail_mul_spec; lia).
  destruct rest as [| c rest']; [reflexivity |].
  cbn [readDigits]. cbn [startsWithDigit] in Hrest.
  destruct (decDigit c); [discriminate | reflexivity].
Qed.

Lemma natStr_digits (n : nat) :
  exists c s,
    natStr n = String c s
    /\ match decDigit c with Some _ => True | None => False end
    /\ natStr n = NilEmpty.string_of_uint (Nat.to_uint n).
Proof.
  unfold natStr.
  assert (Hn : Nat.to_uint n <> Decimal.Nil).
  { rewrite <- (DecimalNat.Unsigned.of_to n) at 1.
    rewrite DecimalNat.Unsigned.to_of. apply DecimalFacts.unorm_nonnil. }
  destruct (Nat.to_uint n) eqn:E; [congruence | ..];
    cbn [NilZero.string_of_uint NilEmpty.string_of_uint];
    eexists; eexists; (split; [reflexivity | split; [exact I | reflexivity]]).
Qed.

(** Reading back a number printed in decimal. *)
Lemma digits_natStr (n : nat) (rest : string) :
  startsWithDigit rest = false ->
  digits (natStr n ++ rest) = Some (Z.of_nat n, rest).
Proof.
  intro Hrest. unfold digits.
  assert (E : readDigits decDigit 10 None (natStr n ++ rest)
              = (Some (Z.of_nat n), rest)).
  { destruct (natStr_digits n) as [c [s' [E1 [Hc E2]]]].
    transitivity (readDigits decDigit 10 (Some (Z.of_nat 0))
                    (natStr n ++ rest)).
    - rewrite E1. cbn [append readDigits].
      destruct (decDigit c); [reflexivity | contradiction].
    - rewrite E2, readDigits_uint by exact Hrest.
      change (Nat.of_uint_acc (Nat.to_uint n) 0)
        with (Nat.of_uint (Nat.to_uint n)).
      rewrite DecimalNat.Unsigned.of_to. reflexivity. }
  rewrite E. reflexivity.
Qed.

Lemma digit_not_white (c : ascii) :
  match decDigit c with Some _ => isWhite c = false | None => True end.
Proof.
  assert (H : forallb (fun c => match decDigit c with
                                | Some _ => negb (isWhite c)
                                | None => true
                                end) allAscii = true)
    by (vm_compute; reflexivity).
  rewrite forallb_forall in H. specialize (H c (allAscii_complete c)).
  destruct (decDigit c); [| exact I].
  destruct (isWhite c); [discriminate | reflexivity].
Qed.

Lemma skipWhite_natStr (ws : string) (n : nat) (rest : string) :
  allWhite ws = true ->
  skipWhite (ws ++ natStr n ++ rest) = (natStr n ++ rest)%string.
Proof.
  intro Hws. induction ws as [| c ws IH].
  - destruct (natStr_digits n) as [c [s' [E1 [Hc _]]]].
    rewrite E1. cbn [append skipWhite].
    pose proof (digit_not_white c) as Hw.
    destruct (decDigit c); [| contradiction].
    rewrite Hw. reflexivity.
  - cbn [allWhite] in Hws. apply andb_true_iff in Hws as [Hc Hws].
    cbn [append skipWhite]. rewrite Hc. apply IH. exact Hws.
Qed.

Lemma matchRgb_rgbText (alpha : bool) (s1 s2 s3 : string) (r g b : nat)
    (tail : string) :
  allWhite s1 = true -> allWhite s2 = true -> allWhite s3 = true ->
  startsWithDigit tail = false ->
  matchRgb (rgbText alpha s1 s2 s3 r g b tail)
  = Some (Z.of_nat r, Z.of_nat g, Z.of_nat b).
Proof.
  intros H1 H2 H3 Ht.
  assert (E : matchRgbAt (rgbText alpha s1 s2 s3 r g b tail)
              = Some (Z.of_nat r, Z.of_nat g, Z.of_nat b)).
  { unfold rgbText.
    destruct alpha; cbn [append matchRgbAt];
      rewrite (skipWhite_natStr s1 r) by exact H1;
      rewrite digits_natStr by reflexivity;
      cbn [append]; rewrite (skipWhite_natStr s2 g) by exact H2;
      rewrite digits_natStr by reflexivity;
      cbn [append]; rewrite (skipWhite_natStr s3 b) by exact H3;
      rewrite digits_natStr by exact Ht; reflexivity. }
  unfold rgbText in *. destruct alpha; cbn [append matchRgb] in *;
    cbn [append] in E; rewrite E; reflexivity.
Qed.

Lemma luminanceAbove150_Z (r g b : Z) :
  luminanceAbove150 (JS.of_Z r) (JS.of_Z g) (JS.of_Z b)
  = (150000 <? 299 * r + 587 * g + 114 * b).
Proof.
  unfold luminanceAbove150, JS.of_Z. cbn [JS.mul JS.add].
  rewrite JSFacts.div_fin by discriminate.
  set (x := (inject_Z r * 299 + inject_Z g * 587 + inject_Z b * 114)%Q).
  assert (Hx : (x == inject_Z (299 * r + 587 * g + 114 * b))%Q).
  { subst x. rewrite !inject_Z_plus, !inject_Z_mult.
    change (inject_Z 299) with 299%Q. change (inject_Z 587) with 587%Q.
    change (inject_Z 114) with 114%Q. ring. }
  destruct (150000 <? 299 * r + 587 * g + 114 * b) eqn:E.
  - apply Z.ltb_lt in E. apply JSFacts.gt_fin.
    rewrite Zlt_Qlt in E. rewrite <- Hx in E.
    change (inject_Z 150000) with 150000%Q in E.
    unfold Qdiv. change (/ 1000)%Q with (1 # 1000)%Q. lra.
  - apply Z.ltb_ge in E. unfold JS.gt. apply JSFacts.lt_fin_false.
    rewrite Zle_Qle in E. rewrite <- Hx in E.
    change (inject_Z 150000) with 150000%Q in E.
    unfold Qdiv. change (/ 1000)%Q with (1 # 1000)%Q. lra.
Qed.

(** X7.  [parseLuminance] reads a colour in functional notation in
    decimal: for [rgb(] or [rgba(], white space before each channel and
    anything but a digit after the third, the colour is light exactly when
    [299 r + 587 g + 114 b > 150000].  The text [lerpColor] builds from
    non-negative channels is of this form. *)
Theorem parseLuminance_decimal (alpha : bool) (s1 s2 s3 : string)
    (r g b : nat) (tail : string) :
  allWhite s1 = true -> allWhite s2 = true -> allWhite s3 = true ->
  startsWithDigit tail = false ->
  parseLuminance (rgbText alpha s1 s2 s3 r g b tail)
  = (150000 <? 299 * Z.of_nat r + 587 * Z.of_nat g + 114 * Z.of_nat b)
  /\ rgbStr (RInt (Z.of_nat r)) (RInt (Z.of_nat g)) (RInt (Z.of_nat b))
     = rgbText false EmptyString EmptyString EmptyString r g b ")".
Proof.
  intros H1 H2 H3 Ht. split.
  - unfold parseLuminance.
    assert (Eh : startsWithHash (rgbText alpha s1 s2 s3 r g b tail) = false)
      by reflexivity.
    rewrite Eh, matchRgb_rgbText by assumption.
    apply luminanceAbove150_Z.
  - unfold rgbStr, rgbText, roundedStr.
    assert (Hn : forall n, (Z.of_nat n <? 0) = false)
      by (intro n; apply Z.ltb_ge; lia).
    rewrite !Hn, !Nat2Z.id. reflexivity.
Qed.

Lemma parseLuminance_decimal_witness :
  parseLuminance (rgbText true EmptyString " " " " 241 245 249 ", 0.5)")
  = (150000 <? 299 * Z.of_nat 241 + 587 * Z.of_nat 245 + 114 * Z.of_nat 249)
  /\ rgbStr (RInt (Z.of_nat 241)) (RInt (Z.of_nat 245)) (RInt (Z.of_nat 249))
     = rgbText false EmptyString EmptyString EmptyString 241 245 249 ")".
Proof.
  apply (parseLuminance_decimal true EmptyString " " " " 241 245 249
           ", 0.5)"); reflexivity.
Defined.

(** *** The ambient background *)

(** A computed background colour that the walk passes over. *)
Definition passedOver (c : string) : bool :=
  String.eqb c EmptyString || String.eqb c "transparent"
  || String.eqb c "rgba(0, 0, 0, 0)".

Lemma ambientLuminance_step (c : string) (ancestors : list string) :
  ambientLuminance (c :: ancestors)
  = if passedOver c then ambientLuminance ancestors else parseLuminance c.
Proof.
  cbn [ambientLuminance]. unfold passedOver.
  destruct (String.eqb c EmptyString), (String.eqb c "transparent"),
    (String.eqb c "rgba(0, 0, 0, 0)"); reflexivity.
Qed.

(** X8.  With the background [transparent] and an element, the first
    ancestor (the element included) whose computed background is neither
    empty, [transparent] nor [rgba(0, 0, 0, 0)] decides, whatever lies
    above it; if there is none, the theme is dark. *)
Theorem isLightBg_ambient (below above : list string) (c : string) :
  forallb passedOver below = true ->
  isLightBg "transparent" (Some below) = false
  /\ (passedOver c = false ->
      isLightBg "transparent" (Some (below ++ c :: above)%list)
      = parseLuminance c).
Proof.
  intro Hb. cbn [isLightBg]. change (String.eqb "transparent" "transparent")
    with true. cbv iota.
  induction below as [| d below IH].
  - split; [reflexivity |]. intro Hc. cbn [List.app].
    rewrite ambientLuminance_step, Hc. reflexivity.
  - cbn [forallb] in Hb. apply andb_true_iff in Hb as [Hd Hb].
    specialize (IH Hb). cbn [List.app].
    rewrite !ambientLuminance_step, Hd. exact IH.
Qed.

Lemma isLightBg_ambient_witness :
  isLightBg "transparent" (Some ["rgba(0, 0, 0, 0)"; "transparent"]) = false
  /\ (passedOver "rgb(255, 255, 255)" = false ->
      isLightBg "transparent"
        (Some (["rgba(0, 0, 0, 0)"; "transparent"]
               ++ "rgb(255, 255, 255)" :: ["#000000"])%list)
      = parseLuminance "rgb(255, 255, 255)").
Proof.
  apply (isLightBg_ambient ["rgba(0, 0, 0, 0)"; "transparent"] ["#000000"]
           "rgb(255, 255, 255)").
  reflexivity.
Defined.

End ColorExtra.

(* ===================================================================== *)
(** ** The donut chart: every pointer in the ring hits a slice *)
(* ===================================================================== *)

Module DonutExtra.

Import BarChart Donut DonutFacts.
Import Lra.
Local Open Scope R_scope.

Lemma fold_sum (values : list R) (s : R) :
  fold_left (fun s v => s + v) values s = s + total values.
Proof.
  unfold total. revert s.
  induction values as [| v rest IH]; intro s; cbn [fold_left].
  - lra.
  - rewrite (IH (s + v)), (IH (0 + v)). lra.
Qed.

Lemma total_cons (v : R) (rest : list R) :
  total (v :: rest) = v + total rest.
Proof.
  unfold total at 1. cbn [fold_left]. rewrite fold_sum. lra.
Qed.

(** Within the sweep of the slices, the loop returns the index of a slice
    of positive value. *)
Lemma findSlice_covers (tot : R) (values : list R) :
  0 < tot -> Forall (fun v => 0 <= v) values ->
  forall (start angle : R) (i : nat),
    start <= angle < start + total values / tot * PI * 2 ->
    exists k v,
      findSlice angle (slicesFrom start tot values) i = Z.of_nat (i + k)
      /\ nth_error values k = Some v /\ 0 < v.
Proof.
  intros Htot Hpos.
  induction Hpos as [| v rest Hv Hrest IH]; intros start angle i Ha.
  - exfalso. unfold total in Ha. cbn [fold_left] in Ha.
    unfold Rdiv in Ha. rewrite !Rmult_0_l in Ha. lra.
  - cbn [slicesFrom findSlice].
    destruct (Rge_dec angle start) as [_ | Hn]; [| lra].
    destruct (Rlt_dec angle (start + v / tot * PI * 2)) as [Hlt | Hge].
    + exists 0%nat, v. rewrite Nat.add_0_r. split; [reflexivity |].
      split; [reflexivity |].
      destruct Hv as [Hv | Hv]; [exact Hv |]. subst v.
      exfalso. unfold Rdiv in Hlt. rewrite !Rmult_0_l in Hlt. lra.
    + destruct (IH (start + v / tot * PI * 2) angle (S i))
        as [k [v' [E [Hk Hv']]]].
      { rewrite total_cons in Ha. split; [lra |].
        destruct Ha as [_ Ha]. unfold Rdiv in *. lra. }
      exists (S k), v'. split; [| split; assumption].
      rewrite E. f_equal. lia.
Qed.

(** X9.  When the slice angles were computed from non-negative values of
    positive total, a pointer in the ring (at a distance between the
    inner radius and the outer radius plus [8 * dpr]) always hits a slice:
    [hitTest] returns the index of one of the values, never [-1], and the
    value of the slice it returns is positive. *)
Theorem hitTest_covers (g : Geometry) (values : list R) (x y : R) :
  sliceAngles g = computeSliceAngles values ->
  Forall (fun v => 0 <= v) values ->
  0 < total values ->
  innerR g <= distance g x y <= outerR g + 8 * dpr g ->
  exists k v,
    hitTest g x y = Z.of_nat k
    /\ nth_error values k = Some v /\ 0 < v
    /\ (k < List.length values)%nat.
Proof.
  intros Hs Hpos Htot Hd. unfold hitTest. cbv zeta.
  destruct (Rlt_dec (distance g x y) (innerR g)) as [H | _]; [lra |].
  destruct (Rgt_dec (distance g x y) (outerR g + 8 * dpr g)) as [H | _];
    [lra |].
  rewrite Hs. unfold computeSliceAngles.
  pose proof (pointerAngle_range g x y) as Hr.
  destruct (findSlice_covers (total values) values Htot Hpos
              (- PI / 2) (pointerAngle g x y) 0) as [k [v [E [Hk Hv]]]].
  { split; [lra |]. unfold Rdiv. rewrite Rinv_r by lra. lra. }
  exists k, v. split; [exact E |]. split; [exact Hk |]. split; [exact Hv |].
  apply nth_error_Some. congruence.
Qed.

Lemma hitTest_covers_witness :
  exists k v,
    hitTest ring3 0 75 = Z.of_nat k
    /\ nth_error [1; 1; 1] k = Some v /\ 0 < v
    /\ (k < List.length [1; 1; 1])%nat.
Proof.
  apply (hitTest_covers ring3 [1; 1; 1] 0 75).
  - reflexivity.
  - repeat constructor; lra.
  - unfold total. cbn [fold_left]. lra.
  - unfold distance, ring3. cbn [chartCx chartCy innerR outerR dpr].
    replace ((0 - 0) * (0 - 0) + (75 - 0) * (75 - 0)) with (75 * 75) by lra.
    rewrite sqrt_square by lra. lra.
Defined.

End DonutExtra.

(* ===================================================================== *)
(** ** The simple bar chart: the value scale, the bars and the pointer *)
(* ===================================================================== *)

Module BarSimpleFacts.

Import BarChart BarSimple.
Import Lra.
Local Open Scope R_scope.

Definition within (lo hi : R) (d : BarDataPoint) : Prop :=
  lo <= value d <= hi.

(** The loop keeps zero between the two bounds, only widens them, brings
    every value it has seen between them, and each bound is the one it
    started with or one of the values. *)
Lemma valueLoop_bounds (ds : list BarDataPoint) :
  forall lo hi : R,
    lo <= 0 <= hi ->
    let mm := valueLoop ds (lo, hi) in
    fst mm <= lo /\ hi <= snd mm
    /\ Forall (within (fst mm) (snd mm)) ds
    /\ (fst mm = lo \/ In (fst mm) (map value ds))
    /\ (snd mm = hi \/ In (snd mm) (map value ds)).
Proof.
  induction ds as [| d rest IH]; intros lo hi Hz; cbn [valueLoop fold_left].
  - cbn [fst snd map]. repeat split; try lra; auto.
  - cbn [fst snd].
    set (lo1 := if Rlt_dec (value d) lo then value d else lo).
    set (hi1 := if Rgt_dec (value d) hi then value d else hi).
    assert (H1 : lo1 <= lo /\ lo1 <= value d /\ (lo1 = lo \/ lo1 = value d)).
    { subst lo1. destruct (Rlt_dec (value d) lo); repeat split; auto; lra. }
    assert (H2 : hi <= hi1 /\ value d <= hi1 /\ (hi1 = hi \/ hi1 = value d)).
    { subst hi1. destruct (Rgt_dec (value d) hi); repeat split; auto; lra. }
    specialize (IH lo1 hi1 ltac:(lra)). fold (valueLoop rest (lo1, hi1)).
    cbv zeta in IH. destruct IH as [A [B [C [D E]]]].
    cbv zeta. split; [lra |]. split; [lra |]. split; [| split].
    + constructor; [unfold within; lra | exact C].
    + cbn [map In]. destruct D as [D | D]; [| auto].
      destruct H1 as [_ [_ [H1 | H1]]]; [left | right; left]; congruence.
    + cbn [map In]. destruct E as [E | E]; [| auto].
      destruct H2 as [_ [_ [H2 | H2]]]; [left | right; left]; congruence.
Qed.

(** X10.  The value scale of the simple chart: with [lo] the least and
    [hi] the greatest of zero and the values, and [r] their distance, or
    1 when all the values are zero, the scale runs from [lo - r / 10] to
    [hi + r / 10]; so its range [hi - lo + 2 r / 10] is positive, and
    zero and every value lie strictly inside it. *)
Theorem valueScale_headroom (ds : list BarDataPoint) :
  exists lo hi r : R,
    lo <= 0 <= hi
    /\ Forall (within lo hi) ds
    /\ (lo = 0 \/ In lo (map value ds))
    /\ (hi = 0 \/ In hi (map value ds))
    /\ (hi = lo -> r = 1) /\ (hi <> lo -> r = hi - lo)
    /\ vMin (valueScale ds) = lo - r / 10
    /\ vMax (valueScale ds) = hi + r / 10
    /\ totalRange (valueScale ds) = hi - lo + 2 * r / 10
    /\ 0 < totalRange (valueScale ds)
    /\ vMin (valueScale ds) < 0 < vMax (valueScale ds)
    /\ Forall (fun d => vMin (valueScale ds) < value d < vMax (valueScale ds))
         ds.
Proof.
  pose proof (valueLoop_bounds ds 0 0 ltac:(lra)) as H. cbv zeta in H.
  unfold valueScale.
  destruct (valueLoop ds (0, 0)) as [lo hi]. cbn [fst snd] in H.
  destruct H as [A [B [C [D E]]]].
  destruct (Rgt_dec lo 0) as [H | _]; [lra |].
  destruct (Rlt_dec hi 0) as [H | _]; [lra |].
  exists lo, hi, (if Req_dec_T (hi - lo) 0 then 1 else hi - lo).
  set (r := if Req_dec_T (hi - lo) 0 then 1 else hi - lo).
  assert (Hr : 0 < r /\ (hi = lo -> r = 1) /\ (hi <> lo -> r = hi - lo)).
  { subst r. destruct (Req_dec_T (hi - lo) 0) as [H | H].
    - repeat split; intros; lra.
    - repeat split; intros; lra. }
  destruct Hr as [Hr [Hr1 Hr2]]. cbn [vMin vMax totalRange].
  split; [lra |]. split; [exact C |]. split; [exact D |]. split; [exact E |].
  split; [exact Hr1 |]. split; [exact Hr2 |].
  split; [lra |]. split; [lra |]. split; [lra |]. split; [lra |].
  split; [lra |].
  eapply Forall_impl; [| exact C]. intros d Hd. unfold within in Hd. lra.
Qed.

(** The share of the scale below the value [v]. *)
Definition share (sc : Scale) (v : R) : R := (v - vMin sc) / totalRange sc.

Lemma share_bounds (ds : list BarDataPoint) (v p : R) :
  In v (0 :: map value ds) -> 0 <= p <= 1 ->
  let sc := valueScale ds in
  0 <= share sc (v * p) <= 1
  /\ 0 <= share sc 0 <= 1
  /\ (0 <= v * p -> share sc 0 <= share sc (v * p))
  /\ (v * p < 0 -> share sc (v * p) <= share sc 0).
Proof.
  intros Hv Hp sc.
  destruct (valueScale_headroom ds)
    as [lo [hi [r [Hz [_ [_ [_ [_ [_ [Emin [Emax [Et [Ht [Hmm Hall]]]]]]]]]]]]]].
  fold sc in Emin, Emax, Et, Ht, Hmm, Hall.
  assert (Hvr : vMin sc < v < vMax sc).
  { destruct Hv as [Hv | Hv]; [subst v; lra |].
    apply in_map_iff in Hv as [d [Hd Hin]].
    rewrite Forall_forall in Hall. specialize (Hall d Hin).
    subst v. exact Hall. }
  assert (Ha : vMin sc < v * p < vMax sc).
  { destruct (Rle_dec 0 v); split; nra. }
  assert (Hd : totalRange sc = vMax sc - vMin sc) by lra.
  unfold share, Rdiv.
  assert (Hi : 0 < / totalRange sc) by (apply Rinv_0_lt_compat; exact Ht).
  assert (Hone : totalRange sc * / totalRange sc = 1)
    by (apply Rinv_r; lra).
  repeat split; try nra.
Qed.

Lemma bars_nth (c : Chart) (w h : R) (e : Elapsed) (ds : list BarDataPoint) :
  forall (i k : nat) (d : BarDataPoint),
    nth_error ds k = Some d ->
    nth_error (bars c w h e i ds) k
    = Some (if horizontal c then horizontalBar c w h e (i + k) d
            else verticalBar c w h e (i + k) d).
Proof.
  induction ds as [| d0 rest IH]; intros i k d Hk.
  - destruct k; discriminate.
  - destruct k as [| k]; cbn [bars nth_error] in *.
    + injection Hk as ->. rewrite Nat.add_0_r. reflexivity.
    + rewrite (IH (S i) k d Hk). rewrite Nat.add_succ_r. reflexivity.
Qed.

Lemma bars_length (c : Chart) (w h : R) (e : Elapsed)
    (ds : list BarDataPoint) (i : nat) :
  List.length (bars c w h e i ds) = List.length ds.
Proof.
  revert i. induction ds as [| d rest IH]; intro i; cbn [bars List.length].
  - reflexivity.
  - rewrite IH. reflexivity.
Qed.

Lemma drawSimpleChart_nth (c : Chart) (w h : R) (e : Elapsed)
    (old : list HitRect) (k : nat) (d : BarDataPoint) :
  nth_error (data c) k = Some d ->
  nth_error (drawSimpleChart c w h e old) k
  = Some (if horizontal c then horizontalBar c w h e k d
          else verticalBar c w h e k d).
Proof.
  intro Hk. unfold drawSimpleChart.
  destruct (data c) as [| d0 rest] eqn:E; [destruct k; discriminate |].
  apply (bars_nth c w h e (d0 :: rest) 0 k d Hk).
Qed.

(** The slot of the bar [k] among [n] along an axis of length [len]
    from [origin]. *)
Lemma slot_inside (origin len g : R) (n k : nat) :
  (k < n)%nat -> 0 <= len -> 0 <= g <= 1 ->
  let slot := len / INR n in
  let start := origin + INR k * slot + slot * g / 2 in
  origin <= start /\ start + (slot - slot * g) <= origin + len
  /\ 0 <= slot - slot * g.
Proof.
  intros Hk Hlen Hg slot start.
  assert (Hn : 0 < INR n) by (apply lt_0_INR; lia).
  assert (Hk0 : 0 <= INR k) by apply pos_INR.
  assert (Hk1 : INR k + 1 <= INR n).
  { rewrite <- S_INR. apply le_INR. lia. }
  assert (Hs : 0 <= slot).
  { subst slot. unfold Rdiv. apply Rmult_le_pos; [exact Hlen |].
    apply Rlt_le, Rinv_0_lt_compat, Hn. }
  assert (Hns : INR n * slot = len).
  { subst slot. unfold Rdiv. field. lra. }
  subst start. repeat split; nra.
Qed.

(** The extent of a bar along the value axis, for a share [f] of the
    plot toward the far end and [f0] for zero. *)
Lemma Rmax_abs (z : R) : Rmax 0 (Rabs z) = Rabs z.
Proof. apply Rmax_right, Rabs_pos. Qed.

Definition insidePlot (c : Chart) (w h : R) (r : HitRect) : Prop :=
  mLeft (margins c) <= hit_x r
  /\ hit_x r + hit_w r <= mLeft (margins c) + plotW c w
  /\ mTop (margins c) <= hit_y r
  /\ hit_y r + hit_h r <= mTop (margins c) + plotH c h
  /\ 0 <= hit_w r /\ 0 <= hit_h r.

(** X11.  With a gap between 0 and 1, a plot area of non-negative width
    and height and every bar's progress between 0 and 1, [drawSimpleChart]
    registers one rectangle per data point, in order, carrying its index,
    label and value, and every rectangle lies inside the plot area, in
    either orientation. *)
Theorem drawSimpleChart_inside (c : Chart) (w h : R) (e : Elapsed)
    (old : list HitRect) :
  data c <> [] ->
  0 <= gap c <= 1 -> 0 <= plotW c w -> 0 <= plotH c h ->
  (forall i, 0 <= barProgress (anim c) i e <= 1) ->
  List.length (drawSimpleChart c w h e old) = List.length (data c)
  /\ forall k d,
       nth_error (data c) k = Some d ->
       exists r,
         nth_error (drawSimpleChart c w h e old) k = Some r
         /\ catIdx r = k /\ hit_label r = label d /\ hit_value r = value d
         /\ insidePlot c w h r.
Proof.
  intros Hne Hg Hw Hh Hp. split.
  - unfold drawSimpleChart. destruct (data c) eqn:E; [congruence |].
    apply bars_length.
  - intros k d Hk. rewrite (drawSimpleChart_nth c w h e old k d Hk).
    assert (Hkn : (k < List.length (data c))%nat)
      by (apply nth_error_Some; congruence).
    assert (Hin : In (value d) (0 :: map value (data c))).
    { right. apply in_map. eapply nth_error_In. exact Hk. }
    destruct (share_bounds (data c) (value d) (barProgress (anim c) k e)
                Hin (Hp k)) as [Ha [H0 [Hup Hdown]]].
    unfold share in Ha, H0, Hup, Hdown.
    destruct (horizontal c) eqn:Eo; eexists; (split; [reflexivity |]);
      (split; [reflexivity |]); (split; [reflexivity |]);
      (split; [reflexivity |]); unfold insidePlot.
    + cbn [horizontalBar hit_x hit_y hit_w hit_h]. rewrite Rmax_abs.
      destruct (slot_inside (mTop (margins c)) (plotH c h) (gap c)
                  (List.length (data c)) k Hkn Hh Hg) as [S1 [S2 S3]].
      unfold toX.
      set (fa := (value d * barProgress (anim c) k e
                  - vMin (valueScale (data c)))
                 / totalRange (valueScale (data c))) in *.
      set (f0 := (0 - vMin (valueScale (data c)))
                 / totalRange (valueScale (data c))) in *.
      destruct (Rge_dec (value d * barProgress (anim c) k e) 0) as [Hs | Hs].
      * specialize (Hup ltac:(lra)).
        rewrite Rabs_right by nra.
        repeat split; try assumption; try nra.
      * specialize (Hdown ltac:(lra)).
        rewrite Rabs_left1 by nra.
        repeat split; try assumption; try nra.
    + cbn [verticalBar hit_x hit_y hit_w hit_h]. rewrite Rmax_abs.
      destruct (slot_inside (mLeft (margins c)) (plotW c w) (gap c)
                  (List.length (data c)) k Hkn Hw Hg) as [S1 [S2 S3]].
      unfold toY.
      set (fa := (value d * barProgress (anim c) k e
                  - vMin (valueScale (data c)))
                 / totalRange (valueScale (data c))) in *.
      set (f0 := (0 - vMin (valueScale (data c)))
                 / totalRange (valueScale (data c))) in *.
      destruct (Rge_dec (value d * barProgress (anim c) k e) 0) as [Hs | Hs].
      * specialize (Hup ltac:(lra)).
        rewrite Rabs_left1 by nra.
        repeat split; try assumption; try nra.
      * specialize (Hdown ltac:(lra)).
        rewrite Rabs_right by nra.
        repeat split; try assumption; try nra.
Qed.

(** Settles the comparisons of constants that a computation runs into,
    innermost first. *)
Ltac plain a :=
  lazymatch a with
  | context [Rlt_dec] => fail
  | context [Rgt_dec] => fail
  | context [Rge_dec] => fail
  | context [Rle_dec] => fail
  | context [Req_dec_T] => fail
  | _ => idtac
  end.

Ltac decide_test t :=
  first [ destruct t as [_ | ?H]; [| exfalso; lra]
        | destruct t as [?H | _]; [exfalso; lra |] ].

Ltac decide_tests :=
  repeat match goal with
    | |- context [Rlt_dec ?a ?b] => plain a; plain b; decide_test (Rlt_dec a b)
    | |- context [Rgt_dec ?a ?b] => plain a; plain b; decide_test (Rgt_dec a b)
    | |- context [Rge_dec ?a ?b] => plain a; plain b; decide_test (Rge_dec a b)
    | |- context [Rle_dec ?a ?b] => plain a; plain b; decide_test (Rle_dec a b)
    | |- context [Req_dec_T ?a ?b] =>
        plain a; plain b; decide_test (Req_dec_T a b)
    end.

(** A chart of two bars, one of them negative, drawn in its final
    state. *)
Definition twoBars (horiz : bool) : Chart :=
  {| data := [ {| label := "a"; value := 3; color := None |};
               {| label := "b"; value := -1; color := None |} ];
     horizontal := horiz;
     gap := 3 / 10;
     dpr := 1;
     showLabels := false;
     autoColor := true;
     positiveColor := "#26a69a";
     negativeColor := "#ef5350";
     barColor := "#2962ff";
     anim := resolveAnim RawTrue;
     measureText := fun _ => 0 |}.

Lemma twoBars_scale (horiz : bool) :
  valueScale (data (twoBars horiz))
  = {| vMin := -1 - (3 - -1) * (1 / 10);
       vMax := 3 + (3 - -1) * (1 / 10);
       totalRange := 3 + (3 - -1) * (1 / 10) - (-1 - (3 - -1) * (1 / 10)) |}.
Proof.
  unfold valueScale, valueLoop. cbn [twoBars data fold_left value fst snd].
  decide_tests. reflexivity.
Qed.

Lemma drawSimpleChart_inside_witness :
  List.length (drawSimpleChart (twoBars false) 400 300 Infinity [])
  = List.length (data (twoBars false))
  /\ forall k d,
       nth_error (data (twoBars false)) k = Some d ->
       exists r,
         nth_error (drawSimpleChart (twoBars false) 400 300 Infinity []) k
         = Some r
         /\ catIdx r = k /\ hit_label r = label d /\ hit_value r = value d
         /\ insidePlot (twoBars false) 400 300 r.
Proof.
  apply (drawSimpleChart_inside (twoBars false) 400 300 Infinity []).
  - discriminate.
  - cbn [twoBars gap]. lra.
  - unfold plotW, margins. cbn [twoBars horizontal dpr mLeft mRight]. lra.
  - unfold plotH, margins.
    cbn [twoBars horizontal showLabels dpr mTop mBottom]. lra.
  - intro i. cbn. lra.
Defined.

(** *** The pointer *)

Lemma contains_true (r : HitRect) (mx my : R) :
  contains r mx my = true
  <-> hit_x r <= mx <= hit_x r + hit_w r
      /\ hit_y r <= my <= hit_y r + hit_h r.
Proof.
  unfold contains.
  destruct (Rge_dec mx (hit_x r)), (Rle_dec mx (hit_x r + hit_w r)),
    (Rge_dec my (hit_y r)), (Rle_dec my (hit_y r + hit_h r));
    split; intro H; try discriminate; try reflexivity; try lra.
Qed.

Lemma contains_false (r : HitRect) (mx my : R) :
  mx > hit_x r + hit_w r \/ my > hit_y r + hit_h r ->
  contains r mx my = false.
Proof.
  intro H. destruct (contains r mx my) eqn:E; [| reflexivity].
  apply contains_true in E. lra.
Qed.

(** Both loops stop at the first rectangle that contains the pointer. *)
Lemma first_hit (mx my : R) (hits : list HitRect) :
  forall (k i : nat) (r : HitRect),
    nth_error hits k = Some r ->
    contains r mx my = true ->
    (forall j r', (j < k)%nat -> nth_error hits j = Some r' ->
                  contains r' mx my = false) ->
    onMouseClick hits mx my
    = Some (hit_label r, hit_value r, hit_color r, catIdx r)
    /\ hitFrom hits mx my i = Z.of_nat (i + k).
Proof.
  induction hits as [| r0 rest IH]; intros k i r Hk Hc Hbefore.
  - destruct k; discriminate.
  - destruct k as [| k]; cbn [nth_error] in Hk.
    + injection Hk as ->. cbn [onMouseClick hitFrom]. rewrite Hc.
      rewrite Nat.add_0_r. split; reflexivity.
    + cbn [onMouseClick hitFrom].
      rewrite (Hbefore 0%nat r0 ltac:(lia) eq_refl).
      destruct (IH k (S i) r Hk Hc) as [A B].
      { intros j r' Hj Hn. apply (Hbefore (S j) r'); [lia | exact Hn]. }
      split; [exact A |]. rewrite B. f_equal. lia.
Qed.

(** With a positive gap, the slot of an earlier bar ends before the slot
    of a later one starts. *)
Lemma slots_apart (origin len g : R) (n j k : nat) :
  (j < k)%nat -> (k < n)%nat -> 0 < len -> 0 < g ->
  let slot := len / INR n in
  origin + INR j * slot + slot * g / 2 + (slot - slot * g)
  < origin + INR k * slot + slot * g / 2.
Proof.
  intros Hjk Hkn Hlen Hg slot.
  assert (Hn : 0 < INR n) by (apply lt_0_INR; lia).
  assert (Hs : 0 < slot).
  { subst slot. unfold Rdiv. apply Rmult_lt_0_compat; [exact Hlen |].
    apply Rinv_0_lt_compat, Hn. }
  assert (Hj : INR j + 1 <= INR k).
  { rewrite <- S_INR. apply le_INR. lia. }
  nra.
Qed.

(** X12.  With a positive gap and a plot area of positive extent along
    the category axis, the bars' rectangles are apart along that axis: a
    pointer inside the rectangle of the bar [k] makes [onMouseMove] find
    the index [k] and [onMouseClick] report the label, value and colour
    of the data point [k] with the category index [k], in either
    orientation. *)
Theorem pointer_finds_bar (c : Chart) (w h : R) (e : Elapsed)
    (old : list HitRect) (mx my : R) (k : nat) (d : BarDataPoint) :
  0 < gap c ->
  0 < (if horizontal c then plotH c h else plotW c w) ->
  nth_error (data c) k = Some d ->
  (exists r, nth_error (drawSimpleChart c w h e old) k = Some r
             /\ contains r mx my = true) ->
  onMouseClick (drawSimpleChart c w h e old) mx my
  = Some (label d, value d, resolveBarColor c d, k)
  /\ hitFrom (drawSimpleChart c w h e old) mx my 0 = Z.of_nat k.
Proof.
  intros Hg Hlen Hk [r [Hr Hc]].
  assert (Hkn : (k < List.length (data c))%nat)
    by (apply nth_error_Some; congruence).
  pose proof (drawSimpleChart_nth c w h e old k d Hk) as Hr'.
  rewrite Hr in Hr'. injection Hr' as Er.
  destruct (first_hit mx my (drawSimpleChart c w h e old) k 0 r Hr Hc)
    as [A B].
  { intros j r' Hj Hn.
    assert (Hjn : (j < List.length (data c))%nat) by lia.
    destruct (nth_error (data c) j) as [dj |] eqn:Ej;
      [| apply nth_error_None in Ej; lia].
    rewrite (drawSimpleChart_nth c w h e old j dj Ej) in Hn.
    injection Hn as <-. apply contains_true in Hc.
    apply contains_false. subst r.
    destruct (horizontal c).
    - right. cbn [horizontalBar hit_y hit_h] in *.
      pose proof (slots_apart (mTop (margins c)) (plotH c h) (gap c)
                    (List.length (data c)) j k Hj Hkn Hlen Hg) as Hs.
      cbv zeta in Hs. lra.
    - left. cbn [verticalBar hit_x hit_w] in *.
      pose proof (slots_apart (mLeft (margins c)) (plotW c w) (gap c)
                    (List.length (data c)) j k Hj Hkn Hlen Hg) as Hs.
      cbv zeta in Hs. lra. }
  rewrite A, B. subst r.
  destruct (horizontal c); split; reflexivity.
Qed.

Lemma pointer_finds_bar_witness :
  onMouseClick (drawSimpleChart (twoBars false) 400 300 Infinity []) 300 240
  = Some (label {| label := "b"; value := -1; color := None |},
          value {| label := "b"; value := -1; color := None |},
          resolveBarColor (twoBars false)
            {| label := "b"; value := -1; color := None |},
          1%nat)
  /\ hitFrom (drawSimpleChart (twoBars false) 400 300 Infinity []) 300 240 0
     = Z.of_nat 1.
Proof.
  apply (pointer_finds_bar (twoBars false) 400 300 Infinity [] 300 240 1
           {| label := "b"; value := -1; color := None |}).
  - cbn [twoBars gap]. lra.
  - cbn [twoBars horizontal]. unfold plotW, margins.
    cbn [twoBars horizontal dpr mLeft mRight]. lra.
  - reflexivity.
  - eexists. split; [reflexivity |]. apply contains_true.
    change (horizontal (twoBars false)) with false. cbv iota.
    cbn [verticalBar hit_x hit_y hit_w hit_h]. rewrite Rmax_abs.
    unfold toY, plotW, plotH, margins. rewrite twoBars_scale.
    cbn [twoBars data horizontal gap dpr showLabels anim value
         mLeft mRight mTop mBottom List.length vMin vMax totalRange
         barProgress resolveAnim enabled negb orElse cfg_style String.eqb
         Ascii.eqb Bool.eqb INR].
    decide_tests.
    replace ((0 - (-1 - (3 - -1) * (1 / 10)))
             / (3 + (3 - -1) * (1 / 10) - (-1 - (3 - -1) * (1 / 10))))
      with (7 / 24) by (field; lra).
    replace ((-1 * 1 - (-1 - (3 - -1) * (1 / 10)))
             / (3 + (3 - -1) * (1 / 10) - (-1 - (3 - -1) * (1 / 10))))
      with (1 / 12) by (field; lra).
    rewrite Rabs_right by lra. lra.
Defined.

(** X13.  A tooltip that fits the container with four pixels to spare
    on each side is placed wholly inside it horizontally, centred on the
    pointer when that fits; it goes above the pointer, or sixteen pixels
    below it when there is no room above, so it never starts above the
    fourth pixel for a pointer at or below the top edge. *)
Theorem positionTooltip_inside (tw th cw cx cy : R) :
  tw + 8 <= cw ->
  let '(tipLeft, tipTop) := positionTooltip tw th cw cx cy in
  4 <= tipLeft /\ tipLeft + tw <= cw - 4
  /\ (4 <= cx - tw / 2 -> cx + tw / 2 <= cw - 4 -> tipLeft = cx - tw / 2)
  /\ (tipTop = cy - th - 12 \/ tipTop = cy + 16)
  /\ (0 <= cy -> 4 <= tipTop).
Proof.
  intro Hfit. unfold positionTooltip. cbv zeta.
  destruct (Rlt_dec (cx - tw / 2) 4) as [H1 | H1];
    [destruct (Rgt_dec (4 + tw) (cw - 4)) as [H2 | H2]
    | destruct (Rgt_dec (cx - tw / 2 + tw) (cw - 4)) as [H2 | H2]];
    destruct (Rlt_dec (cy - th - 12) 4) as [H3 | H3];
    repeat split; intros; try lra; auto.
Qed.

Lemma positionTooltip_inside_witness :
  let '(tipLeft, tipTop) := positionTooltip 80 30 300 10 5 in
  4 <= tipLeft /\ tipLeft + 80 <= 300 - 4
  /\ (4 <= 10 - 80 / 2 -> 10 + 80 / 2 <= 300 - 4 -> tipLeft = 10 - 80 / 2)
  /\ (tipTop = 5 - 30 - 12 \/ tipTop = 5 + 16)
  /\ (0 <= 5 -> 4 <= tipTop).
Proof.
  apply (positionTooltip_inside 80 30 300 10 5). lra.
Defined.

End BarSimpleFacts.

(* ===================================================================== *)
(** ** The sparkline: the line inside the canvas, and the frames *)
(* ===================================================================== *)

Module SparklineFacts.

Import Sparkline.
Import Lqa.
Local Open Scope Q_scope.

(** On finite values the loop returns two of them, the least and the
    greatest it has seen, the bounds it started with included. *)
Lemma extentLoop_fin (qs : list Q) :
  forall lo hi : Q,
    lo <= hi ->
    exists lo' hi',
      extentLoop (map JS.Fin qs) (JS.Fin lo, JS.Fin hi)
      = (JS.Fin lo', JS.Fin hi')
      /\ lo' <= lo /\ hi <= hi'
      /\ Forall (fun q => lo' <= q <= hi') qs
      /\ (lo' = lo \/ In lo' qs) /\ (hi' = hi \/ In hi' qs).
Proof.
  induction qs as [| q rest IH]; intros lo hi Hle;
    cbn [map extentLoop fold_left].
  - exists lo, hi. repeat split; try lra; auto.
  - cbn [fst snd].
    set (lo1 := if Qlt_le_dec q lo then q else lo).
    set (hi1 := if Qlt_le_dec hi q then q else hi).
    assert (E1 : (if JS.lt (JS.Fin q) (JS.Fin lo) then JS.Fin q else JS.Fin lo)
                 = JS.Fin lo1).
    { subst lo1. destruct (Qlt_le_dec q lo) as [H | H].
      - apply JSFacts.lt_fin in H. rewrite H. reflexivity.
      - apply JSFacts.lt_fin_false in H. rewrite H. reflexivity. }
    assert (E2 : (if JS.gt (JS.Fin q) (JS.Fin hi) then JS.Fin q else JS.Fin hi)
                 = JS.Fin hi1).
    { subst hi1. unfold JS.gt. destruct (Qlt_le_dec hi q) as [H | H].
      - apply JSFacts.lt_fin in H. rewrite H. reflexivity.
      - apply JSFacts.lt_fin_false in H. rewrite H. reflexivity. }
    rewrite E1, E2.
    assert (H1 : lo1 <= lo /\ lo1 <= q /\ (lo1 = lo \/ lo1 = q)).
    { subst lo1. destruct (Qlt_le_dec q lo); repeat split; auto; lra. }
    assert (H2 : hi <= hi1 /\ q <= hi1 /\ (hi1 = hi \/ hi1 = q)).
    { subst hi1. destruct (Qlt_le_dec hi q); repeat split; auto; lra. }
    destruct (IH lo1 hi1 ltac:(lra)) as [lo' [hi' [E [A [B [C [D F]]]]]]].
    exists lo', hi'. fold (extentLoop (map JS.Fin rest) (JS.Fin lo1, JS.Fin hi1)).
    split; [exact E |]. split; [lra |]. split; [lra |]. split; [| split].
    + constructor; [lra | exact C].
    + cbn [In]. destruct D as [D | D]; [| auto].
      destruct H1 as [_ [_ [H1 | H1]]]; [left | right; left]; congruence.
    + cbn [In]. destruct F as [F | F]; [| auto].
      destruct H2 as [_ [_ [H2 | H2]]]; [left | right; left]; congruence.
Qed.

(** The extent of a list of finite values that is not empty. *)
Lemma extent_fin (q : Q) (rest : list Q) :
  exists lo hi,
    extentLoop (map JS.Fin (q :: rest)) (JS.PInf, JS.NInf)
    = (JS.Fin lo, JS.Fin hi)
    /\ Forall (fun v => lo <= v <= hi) (q :: rest)
    /\ In lo (q :: rest) /\ In hi (q :: rest).
Proof.
  cbn [map extentLoop fold_left fst snd JS.lt JS.gt].
  destruct (extentLoop_fin rest q q ltac:(lra))
    as [lo [hi [E [A [B [C [D F]]]]]]].
  exists lo, hi. unfold extentLoop in E. rewrite E.
  split; [reflexivity |]. split; [| split].
  - constructor; [lra | exact C].
  - cbn [In]. destruct D; auto.
  - cbn [In]. destruct F; auto.
Qed.

(** The share of the range below a value, as [toY] computes it. *)
Lemma share_fin (lo hi v : Q) :
  lo <= v <= hi ->
  exists u,
    ((JS.Fin v - JS.Fin lo) / orOne (JS.Fin hi - JS.Fin lo))%js = JS.Fin u
    /\ 0 <= u <= 1
    /\ (v == lo -> u == 0)
    /\ (v == hi -> lo < hi -> u == 1).
Proof.
  intro Hv. cbn [JS.sub JS.add JS.neg orOne].
  destruct (Qeq_bool (hi + - lo) 0) eqn:E.
  - apply Qeq_bool_iff in E.
    rewrite JSFacts.div_fin by discriminate.
    exists ((v + - lo) / 1). split; [reflexivity |].
    assert (Hu : (v + - lo) / 1 == 0) by (field_simplify; lra).
    rewrite Hu. repeat split; intros; lra.
  - apply Qeq_bool_neq in E.
    rewrite JSFacts.div_fin by exact E.
    exists ((v + - lo) / (hi + - lo)). split; [reflexivity |].
    assert (Hr : 0 < hi + - lo) by (destruct (Qlt_le_dec lo hi); [lra |];
      exfalso; apply E; lra).
    split; [split |]; [| | split].
    + apply Qle_shift_div_l; [exact Hr | lra].
    + apply Qle_shift_div_r; [exact Hr | lra].
    + intro H. rewrite H. field. exact E.
    + intros H _. rewrite H. field. exact E.
Qed.

(** The share of the width before the point [i] of [n]. *)
Lemma step_fin (i n : nat) :
  (i < n)%nat -> (2 <= n)%nat ->
  exists u,
    (JS.of_nat i / (JS.of_nat n - JS.Fin 1))%js = JS.Fin u
    /\ 0 <= u <= 1
    /\ (i = 0%nat -> u == 0) /\ (S i = n -> u == 1).
Proof.
  intros Hi Hn. unfold JS.of_nat, JS.of_Z. cbn [JS.sub JS.add JS.neg].
  assert (Hd : 1 <= inject_Z (Z.of_nat n) + - (1)).
  { assert (H : (2 <= Z.of_nat n)%Z) by lia. rewrite Zle_Qle in H.
    change (inject_Z 2) with 2 in H. lra. }
  assert (Hi0 : 0 <= inject_Z (Z.of_nat i)).
  { assert (H : (0 <= Z.of_nat i)%Z) by lia. rewrite Zle_Qle in H.
    exact H. }
  assert (Hi1 : inject_Z (Z.of_nat i) <= inject_Z (Z.of_nat n) + - (1)).
  { assert (H : (Z.of_nat i + 1 <= Z.of_nat n)%Z) by lia.
    rewrite Zle_Qle, inject_Z_plus in H.
    change (inject_Z 1) with 1 in H. lra. }
  rewrite JSFacts.div_fin by lra.
  eexists. split; [reflexivity |]. split; [split |]; [| | split].
  - apply Qle_shift_div_l; lra.
  - apply Qle_shift_div_r; lra.
  - intros ->. reflexivity.
  - intros <-. rewrite Nat2Z.inj_succ. unfold Z.succ.
    rewrite inject_Z_plus. change (inject_Z 1) with 1. field.
    assert (H : (0 <= Z.of_nat i)%Z) by lia. rewrite Zle_Qle in H.
    change (inject_Z 0) with 0 in H.
    intro Hc. rewrite Nat2Z.inj_succ in Hd. unfold Z.succ in Hd.
    rewrite inject_Z_plus in Hd. change (inject_Z 1) with 1 in Hd. lra.
Qed.

Definition canvas (w h d : Q) : Canvas :=
  {| width := JS.Fin w; height := JS.Fin h; dpr := JS.Fin d |}.

(** A point of the path that is inside the canvas less its padding of
    two device pixels. *)
Definition padded (w h d : Q) (pt : JS.num * JS.num) (x y : Q) : Prop :=
  pt = (JS.Fin x, JS.Fin y)
  /\ 2 * d <= x <= w - 2 * d /\ 2 * d <= y <= h - 2 * d.

Lemma pointsFrom_nth (cv : Canvas) (data vs : list JS.num) :
  forall (i k : nat) (v : JS.num),
    nth_error vs k = Some v ->
    nth_error (pointsFrom cv data i vs) k
    = Some (toX cv data (i + k), toY cv data v).
Proof.
  induction vs as [| v0 rest IH]; intros i k v Hk.
  - destruct k; discriminate.
  - destruct k as [| k]; cbn [pointsFrom nth_error] in *.
    + injection Hk as ->. rewrite Nat.add_0_r. reflexivity.
    + rewrite (IH (S i) k v Hk). rewrite Nat.add_succ_r. reflexivity.
Qed.

Lemma pointsFrom_length (cv : Canvas) (data vs : list JS.num) (i : nat) :
  List.length (pointsFrom cv data i vs) = List.length vs.
Proof.
  revert i. induction vs as [| v rest IH]; intro i;
    cbn [pointsFrom List.length]; [reflexivity | rewrite IH; reflexivity].
Qed.

(** X14.  For at least two finite values on a canvas that leaves room for
    the padding of two device pixels on every side, [draw] strokes one
    point per value, in order, all of them finite and inside the padded
    area; the first point is on its left edge and the last on its right
    edge, a least value is on its bottom edge (so a flat series runs
    along the bottom) and a greatest value of a series that is not flat
    is on its top edge. *)
Theorem draw_inside (w h d : Q) (qs : list Q) (clipProgress : JS.num) :
  (2 <= List.length qs)%nat ->
  4 * d <= w -> 4 * d <= h ->
  exists dr,
    draw (canvas w h d) (map JS.Fin qs) clipProgress = Some dr
    /\ List.length (path dr) = List.length qs
    /\ forall k q,
         nth_error qs k = Some q ->
         exists pt x y,
           nth_error (path dr) k = Some pt
           /\ padded w h d pt x y
           /\ (k = 0%nat -> x == 2 * d)
           /\ (S k = List.length qs -> x == w - 2 * d)
           /\ (Forall (fun v => q <= v) qs -> y == h - 2 * d)
           /\ (Forall (fun v => v <= q) qs -> Exists (fun v => v < q) qs ->
               y == 2 * d).
Proof.
  intros Hlen Hw Hh. unfold draw. rewrite length_map.
  destruct (List.length qs <? 2)%nat eqn:E;
    [apply Nat.ltb_lt in E; lia |].
  eexists. split; [reflexivity |]. cbn [path].
  split; [rewrite pointsFrom_length, length_map; reflexivity |].
  intros k q Hk.
  assert (Hkn : (k < List.length qs)%nat)
    by (apply nth_error_Some; congruence).
  rewrite (pointsFrom_nth (canvas w h d) (map JS.Fin qs) (map JS.Fin qs)
             0 k (JS.Fin q)) by (rewrite nth_error_map, Hk; reflexivity).
  cbn [Nat.add]. unfold toX, toY, range, vMin, vMax, plotW, plotH, padX, padY.
  rewrite length_map.
  destruct qs as [| q0 rest]; [cbn in Hlen; lia |].
  destruct (extent_fin q0 rest) as [lo [hi [Ee [Hall [Hlo Hhi]]]]].
  rewrite Ee. cbn [fst snd].
  assert (Hq : lo <= q <= hi).
  { rewrite Forall_forall in Hall. apply Hall.
    eapply nth_error_In. exact Hk. }
  destruct (share_fin lo hi q Hq) as [u [Eu [Hu [Hu0 Hu1]]]].
  rewrite Eu.
  destruct (step_fin k (List.length (q0 :: rest)) Hkn Hlen)
    as [s [Es [Hs [Hs0 Hs1]]]].
  rewrite Es. cbn [canvas width height dpr JS.mul JS.add JS.sub JS.neg].
  eexists. eexists. eexists. split; [reflexivity |].
  split; [split; [reflexivity |] |].
  - split; split; nra.
  - split; [| split; [| split]].
    + intro H. rewrite (Hs0 H). ring.
    + intro H. rewrite (Hs1 H). ring.
    + intro Hmin. rewrite Hu0; [ring |].
      rewrite Forall_forall in Hmin. specialize (Hmin lo Hlo). lra.
    + intros Hmax Hex. rewrite Hu1; [ring | |].
      * rewrite Forall_forall in Hmax. specialize (Hmax hi Hhi). lra.
      * apply Exists_exists in Hex as [v [Hv Hlt]].
        rewrite Forall_forall in Hall. specialize (Hall v Hv). lra.
Qed.

Lemma draw_inside_witness :
  exists dr,
    draw (canvas 120 40 1) (map JS.Fin [3; 1; 4; 1; 5]) (JS.Fin 1) = Some dr
    /\ List.length (path dr) = List.length [3; 1; 4; 1; 5]
    /\ forall k q,
         nth_error [3; 1; 4; 1; 5] k = Some q ->
         exists pt x y,
           nth_error (path dr) k = Some pt
           /\ padded 120 40 1 pt x y
           /\ (k = 0%nat -> x == 2 * 1)
           /\ (S k = List.length [3; 1; 4; 1; 5] -> x == 120 - 2 * 1)
           /\ (Forall (fun v => q <= v) [3; 1; 4; 1; 5] -> y == 40 - 2 * 1)
           /\ (Forall (fun v => v <= q) [3; 1; 4; 1; 5] ->
               Exists (fun v => v < q) [3; 1; 4; 1; 5] ->
               y == 2 * 1).
Proof.
  apply (draw_inside 120 40 1 [3; 1; 4; 1; 5] (JS.Fin 1)).
  - cbn [List.length]. lia.
  - lra.
  - lra.
Defined.

(** *** The frames *)

Definition durationOf (a : SparklineAnimationConfig) : JS.num :=
  match s_duration a with Some d => d | None => JS.Fin 500 end.

Definition easingOf (a : SparklineAnimationConfig) : string :=
  match s_easing a with Some e => e | None => "easeOut"%string end.

(** X15.  The sparkline draws once, complete, when it has no animation
    or a duration that is not positive.  With a positive duration [d]
    (500 when none is configured) it runs frames: a frame [e] after the
    start, [0 <= e < d], draws the line clipped at an eased progress in
    [[0, 1)] and requests another frame; the first frame with [d <= e]
    draws with progress 1, hence without a clip, and requests none. *)
Theorem runAnimation_frames (a : SparklineAnimationConfig) (d e : Q) :
  durationOf a = JS.Fin d ->
  runAnimation None = Immediate
  /\ (d <= 0 -> runAnimation (Some a) = Immediate)
  /\ (0 < d ->
      runAnimation (Some a) = Frames (JS.Fin d) (easingOf a)
      /\ (0 <= e -> e < d ->
          exists p,
            tick (JS.Fin d) (easingOf a) (JS.Fin e) = (JS.Fin p, true)
            /\ 0 <= p /\ p < 1)
      /\ (d <= e ->
          exists p,
            tick (JS.Fin d) (easingOf a) (JS.Fin e) = (JS.Fin p, false)
            /\ p == 1
            /\ forall cv data dr,
                 draw cv data (JS.Fin p) = Some dr -> clip dr = None)).
Proof.
  intro Hd. unfold durationOf in Hd. split; [reflexivity |].
  split; [| split; [| split]].
  - intro Hle. unfold runAnimation. rewrite Hd.
    assert (E : JS.le (JS.Fin d) (JS.Fin 0) = true)
      by (apply JSFacts.le_fin; exact Hle).
    rewrite E. reflexivity.
  - unfold runAnimation. rewrite Hd.
    assert (E : JS.le (JS.Fin d) (JS.Fin 0) = false)
      by (apply JSFacts.le_fin_false; exact H).
    rewrite E. reflexivity.
  - intros He0 He. unfold tick, ease.
    rewrite JSFacts.div_fin by lra.
    assert (Hq : e / d < 1) by (apply Qlt_shift_div_r; lra).
    assert (Hq0 : 0 <= e / d) by (apply Qle_shift_div_l; lra).
    assert (Emin : JS.min (JS.Fin 1) (JS.Fin (e / d)) = JS.Fin (e / d)).
    { unfold JS.min.
      destruct (JS.lt (JS.Fin (e / d)) (JS.Fin 1)) eqn:E; [reflexivity |].
      apply JSFacts.lt_fin_false in E. lra. }
    rewrite Emin.
    destruct (HeatmapExtra.ease_fin (easingOf a) (e / d)) as [p [Ep Hp]].
    rewrite Ep.
    assert (E1 : JS.lt (JS.Fin (e / d)) (JS.Fin 1) = true)
      by (apply JSFacts.lt_fin; exact Hq).
    rewrite E1. exists p. split; [reflexivity |].
    pose proof (HeatmapExtra.easeQ_lt_1 (easingOf a) (e / d) Hq) as Hlt.
    pose proof (HeatmapExtra.easeQ_monotone (easingOf a) 0 (e / d)
                  ltac:(lra) Hq0 ltac:(lra)) as Hmono.
    pose proof (HeatmapExtra.easeQ_0 (easingOf a)) as H0.
    split; lra.
  - intro He. unfold tick, ease.
    rewrite JSFacts.div_fin by lra.
    assert (Hq : 1 <= e / d) by (apply Qle_shift_div_l; lra).
    assert (Emin : JS.min (JS.Fin 1) (JS.Fin (e / d)) = JS.Fin 1).
    { unfold JS.min.
      destruct (JS.lt (JS.Fin (e / d)) (JS.Fin 1)) eqn:E; [| reflexivity].
      apply JSFacts.lt_fin in E. lra. }
    rewrite Emin.
    destruct (HeatmapExtra.ease_fin (easingOf a) 1) as [p [Ep Hp]].
    rewrite Ep. exists p.
    pose proof (HeatmapExtra.easeQ_1 (easingOf a)) as H1.
    split; [reflexivity |]. split; [lra |].
    intros cv data dr Hdr. unfold draw in Hdr.
    destruct (List.length data <? 2)%nat; [discriminate |].
    assert (E : JS.lt (JS.Fin p) (JS.Fin 1) = false)
      by (apply JSFacts.lt_fin_false; lra).
    rewrite E in Hdr. injection Hdr as <-. reflexivity.
Qed.

Lemma runAnimation_frames_witness :
  runAnimation None = Immediate
  /\ (300 <= 0 ->
      runAnimation (Some {| s_duration := Some (JS.Fin 300);
                            s_easing := Some "easeInOut"%string |})
      = Immediate)
  /\ (0 < 300 ->
      runAnimation (Some {| s_duration := Some (JS.Fin 300);
                            s_easing := Some "easeInOut"%string |})
      = Frames (JS.Fin 300) "easeInOut"%string
      /\ (0 <= 100 -> 100 < 300 ->
          exists p,
            tick (JS.Fin 300) "easeInOut"%string (JS.Fin 100)
            = (JS.Fin p, true)
            /\ 0 <= p /\ p < 1)
      /\ (300 <= 100 ->
          exists p,
            tick (JS.Fin 300) "easeInOut"%string (JS.Fin 100)
            = (JS.Fin p, false)
            /\ p == 1
            /\ forall cv data dr,
                 draw cv data (JS.Fin p) = Some dr -> clip dr = None)).
Proof.
  apply (runAnimation_frames
           {| s_duration := Some (JS.Fin 300);
              s_easing := Some "easeInOut"%string |} 300 100).
  reflexivity.
Defined.

End SparklineFacts.

(* ===================================================================== *)
(** ** The area chart: running sums and the reach of the pointer *)
(* ===================================================================== *)

Module AreaChartExtra.

Import AreaChart AreaChartFacts.
Import Lqa.
Local Open Scope Q_scope.

Lemma at0_finite (row : list JS.num) (i : nat) :
  Forall JS.finite row -> at0 row i = JS.Fin (JS.val (at0 row i)).
Proof.
  intro H. unfold at0.
  destruct (Nat.lt_ge_cases i (List.length row)) as [Hlt | Hge].
  - rewrite Forall_forall in H.
    specialize (H (nth i row JS.zero) (nth_In row JS.zero Hlt)).
    destruct (nth i row JS.zero); cbn in *; try contradiction. reflexivity.
  - rewrite nth_overflow by exact Hge. reflexivity.
Qed.

(** [stackRows] on finite values of either sign. *)
Lemma stackRows_sum (n : nat) (vals : list (list JS.num)) :
  Forall (Forall JS.finite) vals ->
  forall (prev : option (list JS.num)) (base : nat -> Q),
    (forall i, (i < n)%nat ->
       match prev with Some p => at0 p i | None => JS.zero end
       = JS.Fin (base i)) ->
    forall si i, (si < List.length vals)%nat -> (i < n)%nat ->
      exists c, entry (stackRows n prev vals) si i = JS.Fin c
                /\ c == base i + colTotal (firstn (S si) vals) i.
Proof.
  induction 1 as [| row rest Hrow _ IH]; intros prev base Hprev si i Hsi Hi.
  - cbn in Hsi. lia.
  - cbn [stackRows].
    set (cur := map _ (seq 0 n)).
    assert (Hcur : forall j, (j < n)%nat ->
              at0 cur j = JS.Fin (base j + JS.val (at0 row j))).
    { intros j Hj. subst cur. rewrite (@at0_map_seq _ n j Hj).
      rewrite (Hprev j Hj). rewrite (at0_finite row j Hrow) at 1.
      reflexivity. }
    destruct si as [| si].
    + unfold entry. cbn [nth]. rewrite (Hcur i Hi).
      eexists. split; [reflexivity |]. cbn. destruct rest; cbn; lra.
    + cbn in Hsi.
      destruct (IH (Some cur) (fun j => base j + JS.val (at0 row j))
                  Hcur si i) as [c [E Hc]]; [lia | exact Hi |].
      exists c. split; [exact E |].
      change (firstn (S (S si)) (row :: rest))
        with (row :: firstn (S si) rest).
      cbn [colTotal]. rewrite Hc. lra.
Qed.

Lemma colTotal_snoc (vals : list (list JS.num)) (i k : nat) :
  (k < List.length vals)%nat ->
  colTotal (firstn (S k) vals) i
  == colTotal (firstn k vals) i + JS.val (entry vals k i).
Proof.
  revert k. induction vals as [| row rest IH]; intros k Hk.
  - cbn in Hk. lia.
  - destruct k as [| k].
    + cbn [firstn colTotal]. unfold entry. cbn [nth]. lra.
    + change (firstn (S (S k)) (row :: rest))
        with (row :: firstn (S k) rest).
      change (firstn (S k) (row :: rest)) with (row :: firstn k rest).
      cbn [colTotal]. unfold entry in *. cbn [nth].
      rewrite IH by (cbn in Hk; lia). lra.
Qed.

(** X16.  On finite values of either sign, [computeStacked] returns one
    row per series, each as long as the first series, and the entry of
    series [si] at index [i] is the running sum of column [i] over the
    series up to [si], a series too short to have the column counting
    for zero: the first row is the first series, each row is the row
    below it plus its own series, and the last row holds the column
    totals. *)
Theorem computeStacked_running_sum (vals : list (list JS.num)) :
  Forall (Forall JS.finite) vals ->
  List.length (computeStacked vals) = List.length vals
  /\ Forall (fun row => List.length row = width vals) (computeStacked vals)
  /\ forall si i, (si < List.length vals)%nat -> (i < width vals)%nat ->
       exists c,
         entry (computeStacked vals) si i = JS.Fin c
         /\ c == colTotal (firstn (S si) vals) i
         /\ (si = 0%nat -> c == JS.val (entry vals 0 i))
         /\ (forall c', (S si < List.length vals)%nat ->
               entry (computeStacked vals) (S si) i = JS.Fin c' ->
               c' == c + JS.val (entry vals (S si) i))
         /\ (S si = List.length vals -> c == colTotal vals i).
Proof.
  intro Hfin. split; [apply stackRows_length |]. split.
  - unfold computeStacked. generalize (width vals) as n.
    generalize (@None (list JS.num)) as prev.
    induction vals as [| row rest IH]; intros prev n; cbn [stackRows].
    + constructor.
    + constructor.
      * rewrite length_map, length_seq. reflexivity.
      * apply IH. inversion Hfin; assumption.
  - intros si i Hsi Hi. unfold computeStacked.
    destruct (stackRows_sum (width vals) vals Hfin None (fun _ => 0)
                (fun _ _ => eq_refl) si i Hsi Hi) as [c [E Hc]].
    exists c. split; [exact E |]. split; [lra |]. split; [| split].
    + intros ->. rewrite Hc.
      rewrite (colTotal_snoc vals i 0) by exact Hsi.
      cbn [firstn colTotal]. lra.
    + intros c' Hs E'.
      destruct (stackRows_sum (width vals) vals Hfin None (fun _ => 0)
                  (fun _ _ => eq_refl) (S si) i Hs Hi) as [c2 [E2 Hc2]].
      rewrite E2 in E'. injection E' as <-.
      rewrite Hc2, Hc. rewrite (colTotal_snoc vals i (S si)) by exact Hs.
      lra.
    + intro Hlast. rewrite Hc, Hlast, firstn_all. lra.
Qed.

Lemma computeStacked_running_sum_witness :
  let vals := [[JS.Fin 1; JS.Fin (-2); JS.Fin 3]; [JS.Fin 4; JS.Fin 5]] in
  List.length (computeStacked vals) = List.length vals
  /\ Forall (fun row => List.length row = width vals) (computeStacked vals)
  /\ forall si i, (si < List.length vals)%nat -> (i < width vals)%nat ->
       exists c,
         entry (computeStacked vals) si i = JS.Fin c
         /\ c == colTotal (firstn (S si) vals) i
         /\ (si = 0%nat -> c == JS.val (entry vals 0 i))
         /\ (forall c', (S si < List.length vals)%nat ->
               entry (computeStacked vals) (S si) i = JS.Fin c' ->
               c' == c + JS.val (entry vals (S si) i))
         /\ (S si = List.length vals -> c == colTotal vals i).
Proof.
  apply (computeStacked_running_sum
           [[JS.Fin 1; JS.Fin (-2); JS.Fin 3]; [JS.Fin 4; JS.Fin 5]]).
  repeat constructor.
Defined.

(** *** The reach of the pointer *)

Definition leftMargin (p : Plot) (d : Q) : Q :=
  if showYAxis p then 50 * d else 16 * d.

Lemma distTo_formula (p : Plot) (d cw m : Q) (i : nat) :
  dpr p = JS.Fin d -> canvasWidth p = JS.Fin cw ->
  distTo p (JS.Fin m) i
  = JS.Fin (Qabs (m * d
                  + - (leftMargin p d
                       + inject_Z (Z.of_nat i) / inject_Z (Z.of_nat (spans p))
                         * (cw + - leftMargin p d + - (16 * d))))).
Proof.
  intros Ed Ecw.
  unfold distTo, toX, plotW, mLeft, mRight, JS.of_nat, JS.of_Z, leftMargin.
  rewrite Ed, Ecw.
  rewrite JSFacts.div_fin by (apply of_nat_nonzero; unfold spans; lia).
  destruct (showYAxis p); reflexivity.
Qed.

Lemma slotW_formula (p : Plot) (d cw : Q) :
  dpr p = JS.Fin d -> canvasWidth p = JS.Fin cw -> (1 < labels p)%nat ->
  slotW p
  = JS.Fin ((cw + - leftMargin p d + - (16 * d))
            / inject_Z (Z.of_nat (labels p - 1))).
Proof.
  intros Ed Ecw Hn.
  unfold slotW, plotW, mLeft, mRight, JS.of_nat, JS.of_Z, leftMargin.
  rewrite Ed, Ecw.
  assert (E : (1 <? labels p)%nat = true) by (apply Nat.ltb_lt; exact Hn).
  rewrite E.
  destruct (showYAxis p); cbn [JS.mul JS.sub JS.add JS.neg];
    rewrite JSFacts.div_fin by (apply of_nat_nonzero; lia); reflexivity.
Qed.

(** Between the first and the last of [N + 1] evenly spaced points a
    slot [s] apart, some point is within half a slot. *)
Lemma nearest_point (N : nat) (s x : Q) :
  (0 < N)%nat -> 0 < s -> 0 <= x -> x <= inject_Z (Z.of_nat N) * s ->
  exists j, (j <= N)%nat
            /\ - (s * (1 # 2)) <= x - inject_Z (Z.of_nat j) * s
            /\ x - inject_Z (Z.of_nat j) * s <= s * (1 # 2).
Proof.
  intros HN Hs Hx0 Hx1.
  set (t := x / s).
  assert (Hts : t * s == x) by (subst t; field; lra).
  assert (Ht0 : 0 <= t) by (subst t; apply Qle_shift_div_l; lra).
  assert (Ht1 : t <= inject_Z (Z.of_nat N))
    by (subst t; apply Qle_shift_div_r; lra).
  set (z := Qfloor (t + (1 # 2))).
  pose proof (Qfloor_le (t + (1 # 2))) as Hlo. fold z in Hlo.
  pose proof (Qlt_floor (t + (1 # 2))) as Hhi. fold z in Hhi.
  rewrite inject_Z_plus in Hhi. change (inject_Z 1) with 1 in Hhi.
  assert (Hz0 : (0 <= z)%Z).
  { subst z. rewrite <- (Qfloor_Z 0). apply Qfloor_resp_le.
    change (inject_Z 0) with 0. lra. }
  assert (Hz1 : (z <= Z.of_nat N)%Z).
  { assert (H : inject_Z z < inject_Z (Z.of_nat N + 1)).
    { rewrite inject_Z_plus. change (inject_Z 1) with 1. lra. }
    rewrite <- Zlt_Qlt in H. lia. }
  exists (Z.to_nat z). rewrite Z2Nat.id by exact Hz0.
  split; [lia |]. split; nra.
Qed.

(** X17.  With at least two labels, a finite pixel ratio and canvas width
    and a plot area of positive width, every pointer over the plot area
    (between the first and the last data point) finds a data point:
    [findHoveredIndex] returns an index below the number of labels,
    never [-1]. *)
Theorem findHoveredIndex_covers (p : Plot) (d cw m : Q) :
  dpr p = JS.Fin d -> canvasWidth p = JS.Fin cw -> (2 <= labels p)%nat ->
  0 < cw - leftMargin p d - 16 * d ->
  leftMargin p d <= m * d -> m * d <= cw - 16 * d ->
  exists i, (i < labels p)%nat
            /\ findHoveredIndex p (JS.Fin m) = Z.of_nat i.
Proof.
  intros Ed Ecw Hn Hpw Hlo Hhi.
  set (pw := cw + - leftMargin p d + - (16 * d)).
  set (N := (labels p - 1)%nat).
  assert (HN : (0 < N)%nat) by (subst N; lia).
  assert (HNq : 1 <= inject_Z (Z.of_nat N)).
  { assert (H : (1 <= Z.of_nat N)%Z) by lia. rewrite Zle_Qle in H.
    exact H. }
  assert (Espans : spans p = N) by (unfold spans; subst N; lia).
  set (s := pw / inject_Z (Z.of_nat N)).
  assert (Hs : 0 < s).
  { subst s. apply Qlt_shift_div_l; [lra | subst pw; lra]. }
  assert (HsN : inject_Z (Z.of_nat N) * s == pw) by (subst s; field; lra).
  destruct (nearest_point N s (m * d - leftMargin p d) HN Hs
              ltac:(lra) ltac:(subst pw; lra)) as [j [Hj [Hj1 Hj2]]].
  set (dist := fun i => JS.val (distTo p (JS.Fin m) i)).
  set (reach := JS.val (slotW p) * (6 # 10)).
  assert (Hr : (slotW p * JS.Fin (6 # 10))%js = JS.Fin reach).
  { subst reach. rewrite (@slotW_finite p d cw Ed Ecw). reflexivity. }
  assert (Hnear : dist j < reach).
  { subst dist reach. cbv beta.
    rewrite (distTo_formula p d cw m j Ed Ecw).
    rewrite (slotW_formula p d cw Ed Ecw ltac:(lia)).
    cbn [JS.val]. rewrite Espans. fold N. fold pw. fold s.
    apply Qabs_Qlt_condition.
    assert (E : inject_Z (Z.of_nat j) / inject_Z (Z.of_nat N) * pw
                == inject_Z (Z.of_nat j) * s) by (subst s; field; lra).
    rewrite E. split; lra. }
  pose proof (@hover_loop p (JS.Fin m) dist reach
                (fun i => @distTo_finite p d cw m i Ed Ecw) Hr (labels p))
    as H.
  unfold findHoveredIndex.
  destruct (labels p) as [| n] eqn:En; [lia |].
  cbv zeta in H.
  destruct H as [[_ Hall] | [i [E [Hi _]]]].
  - exfalso. specialize (Hall j ltac:(subst N; lia)). lra.
  - exists i. split; [exact Hi |]. rewrite E. reflexivity.
Qed.

Lemma findHoveredIndex_covers_witness :
  exists i, (i < labels {| labels := 5; showYAxis := true;
                           dpr := JS.Fin 2; canvasWidth := JS.Fin 800 |})%nat
            /\ findHoveredIndex
                 {| labels := 5; showYAxis := true;
                    dpr := JS.Fin 2; canvasWidth := JS.Fin 800 |}
                 (JS.Fin 137)
               = Z.of_nat i.
Proof.
  apply (findHoveredIndex_covers
           {| labels := 5; showYAxis := true;
              dpr := JS.Fin 2; canvasWidth := JS.Fin 800 |} 2 800 137).
  - reflexivity.
  - reflexivity.
  - cbn [labels]. lia.
  - cbn [leftMargin showYAxis]. lra.
  - cbn [leftMargin showYAxis]. lra.
  - lra.
Defined.

End AreaChartExtra.

(* ===================================================================== *)
(** ** The area chart: the value axis, the animation and the legend *)
(* ===================================================================== *)

Module AreaDrawFacts.

Import AreaChart AreaChartFacts AreaDraw.
Import Lqa.
Local Open Scope Q_scope.

Lemma finite_val (a : JS.num) : JS.finite a -> a = JS.Fin (JS.val a).
Proof. destruct a; cbn; intro H; try contradiction. reflexivity. Qed.

(** The inner loop on finite values. *)
Lemma yStep_loop (sv : list JS.num) :
  Forall JS.finite sv ->
  forall lo hi : Q,
    exists lo' hi',
      fold_left yStep sv (JS.Fin lo, JS.Fin hi) = (JS.Fin lo', JS.Fin hi')
      /\ lo' <= lo /\ hi <= hi'
      /\ Forall (fun v => lo' <= JS.val v <= hi') sv.
Proof.
  induction 1 as [| v rest Hv _ IH]; intros lo hi; cbn [fold_left].
  - exists lo, hi. repeat split; try lra. constructor.
  - rewrite (finite_val v Hv). set (q := JS.val v).
    unfold yStep at 2. cbn [fst snd].
    set (lo1 := if Qlt_le_dec q lo then q else lo).
    set (hi1 := if Qlt_le_dec hi q then q else hi).
    assert (E1 : (if JS.lt (JS.Fin q) (JS.Fin lo) then JS.Fin q else JS.Fin lo)
                 = JS.Fin lo1).
    { subst lo1. destruct (Qlt_le_dec q lo) as [H | H].
      - apply JSFacts.lt_fin in H. rewrite H. reflexivity.
      - apply JSFacts.lt_fin_false in H. rewrite H. reflexivity. }
    assert (E2 : (if JS.gt (JS.Fin q) (JS.Fin hi) then JS.Fin q else JS.Fin hi)
                 = JS.Fin hi1).
    { subst hi1. unfold JS.gt. destruct (Qlt_le_dec hi q) as [H | H].
      - apply JSFacts.lt_fin in H. rewrite H. reflexivity.
      - apply JSFacts.lt_fin_false in H. rewrite H. reflexivity. }
    rewrite E1, E2.
    assert (H1 : lo1 <= lo /\ lo1 <= q).
    { subst lo1. destruct (Qlt_le_dec q lo); split; lra. }
    assert (H2 : hi <= hi1 /\ q <= hi1).
    { subst hi1. destruct (Qlt_le_dec hi q); split; lra. }
    destruct (IH lo1 hi1) as [lo' [hi' [E [A [B C]]]]].
    exists lo', hi'. split; [exact E |]. split; [lra |]. split; [lra |].
    constructor; [cbn [JS.val]; lra | exact C].
Qed.

Lemma Forall_within_weaken (sv : list JS.num) (lo hi lo' hi' : Q) :
  lo' <= lo -> hi <= hi' ->
  Forall (fun v => lo <= JS.val v <= hi) sv ->
  Forall (fun v => lo' <= JS.val v <= hi') sv.
Proof.
  intros Hlo Hhi H. eapply Forall_impl; [| exact H].
  intros v Hv. cbv beta in Hv. lra.
Qed.

(** The two loops on finite values. *)
Lemma yLoop_rows (rows : list (list JS.num)) :
  Forall (Forall JS.finite) rows ->
  forall lo hi : Q,
    exists lo' hi',
      fold_left (fun mm sv => fold_left yStep sv mm) rows
        (JS.Fin lo, JS.Fin hi)
      = (JS.Fin lo', JS.Fin hi')
      /\ lo' <= lo /\ hi <= hi'
      /\ Forall (Forall (fun v => lo' <= JS.val v <= hi')) rows.
Proof.
  induction 1 as [| sv rest Hsv _ IH]; intros lo hi; cbn [fold_left].
  - exists lo, hi. repeat split; try lra. constructor.
  - destruct (yStep_loop sv Hsv lo hi) as [lo1 [hi1 [E1 [A1 [B1 C1]]]]].
    rewrite E1.
    destruct (IH lo1 hi1) as [lo' [hi' [E [A [B C]]]]].
    exists lo', hi'. split; [exact E |]. split; [lra |]. split; [lra |].
    constructor; [| exact C].
    apply (Forall_within_weaken sv lo1 hi1 lo' hi' A B C1).
Qed.

(** Stacking keeps finite values finite. *)
Lemma stackRows_finite (k : nat) (vals : list (list JS.num)) :
  Forall (Forall JS.finite) vals ->
  forall prev : option (list JS.num),
    match prev with Some p => Forall JS.finite p | None => True end ->
    Forall (Forall JS.finite) (stackRows k prev vals).
Proof.
  induction 1 as [| row rest Hrow _ IH]; intros prev Hprev; cbn [stackRows].
  - constructor.
  - assert (Hcur : Forall JS.finite
             (map (fun i =>
                     ((match prev with
                       | Some p => at0 p i
                       | None => JS.zero
                       end) + at0 row i)%js) (seq 0 k))).
    { apply Forall_forall. intros v Hv. apply in_map_iff in Hv as [i [<- _]].
      rewrite (AreaChartExtra.at0_finite row i Hrow).
      destruct prev as [p |].
      - rewrite (AreaChartExtra.at0_finite p i Hprev). exact I.
      - exact I. }
    constructor; [exact Hcur |]. apply IH. exact Hcur.
Qed.

Lemma drawValues_finite (c : Chart) :
  stackedExpanded c = false ->
  Forall (Forall JS.finite) (seriesValues c) ->
  Forall (Forall JS.finite) (drawValues c).
Proof.
  intros He Hfin. unfold drawValues. rewrite He.
  destruct (stacking c); [| exact Hfin].
  apply stackRows_finite; [exact Hfin | exact I].
Qed.

(** The value axis when the chart is not expanded to percentages. *)
Lemma yAxis_plain (c : Chart) :
  stackedExpanded c = false ->
  Forall (Forall JS.finite) (seriesValues c) ->
  exists lo hi,
    yMin c = JS.Fin lo /\ yMax c = JS.Fin hi
    /\ lo <= 0 /\ 0 <= hi /\ lo < hi
    /\ Forall (Forall (fun v => lo <= JS.val v <= hi)) (drawValues c).
Proof.
  intros He Hfin.
  pose proof (drawValues_finite c He Hfin) as Hd.
  destruct (yLoop_rows (drawValues c) Hd 0 0) as [lo [hi [E [A [B C]]]]].
  unfold yMax, yMin, yLoop. rewrite He, E. cbn [fst snd JS.eq].
  destruct (Qeq_bool hi lo) eqn:Eq.
  - apply Qeq_bool_iff in Eq. exists lo, (lo + 1).
    split; [reflexivity |]. split; [reflexivity |].
    split; [lra |]. split; [lra |]. split; [lra |].
    eapply Forall_impl; [| exact C]. intros sv Hsv.
    apply (Forall_within_weaken sv lo hi lo (lo + 1)); [lra | lra | exact Hsv].
  - apply Qeq_bool_neq in Eq. exists lo, hi.
    split; [reflexivity |]. split; [reflexivity |].
    split; [lra |]. split; [lra |]. split; [| exact C].
    destruct (Qlt_le_dec lo hi); [assumption |]. exfalso. apply Eq. lra.
Qed.

(** X18.  When the chart is not expanded to percentages and its values
    are finite, the value axis runs over a range that is not empty and
    holds zero, with 8 % of it as padding at each end: every value that
    is drawn, stacked or not, lands between 8/116 of the plot height
    below its top and as much above its bottom, and the baseline of the
    lowest value of the axis lands exactly that much above the bottom. *)
Theorem toY_inside (c : Chart) (mt ph : Q) :
  stackedExpanded c = false ->
  Forall (Forall JS.finite) (seriesValues c) ->
  mTop c = JS.Fin mt -> plotH c = JS.Fin ph -> 0 <= ph ->
  (exists lo hi,
      yMin c = JS.Fin lo /\ yMax c = JS.Fin hi
      /\ lo <= 0 /\ 0 <= hi /\ lo < hi)
  /\ (forall row v,
        In row (drawValues c) -> In v row ->
        exists y,
          toY c v = JS.Fin y
          /\ mt + (8 # 116) * ph <= y /\ y <= mt + ph - (8 # 116) * ph)
  /\ exists y0,
       toY c (yMin c) = JS.Fin y0 /\ y0 == mt + ph - (8 # 116) * ph.
Proof.
  intros He Hfin Emt Eph Hph.
  destruct (yAxis_plain c He Hfin) as [lo [hi [Elo [Ehi [Hlo [Hhi [Hlt Hall]]]]]]].
  split; [exists lo, hi; repeat split; assumption |].
  assert (Hden : 0 < hi + - lo + (hi + - lo) * (8 # 100) * 2) by lra.
  assert (Hshape : forall q,
             toY c (JS.Fin q)
             = JS.Fin (mt + ph
                       + - ((q + - lo + (hi + - lo) * (8 # 100))
                            / (hi + - lo + (hi + - lo) * (8 # 100) * 2)
                            * ph))).
  { intro q. unfold toY, yPad, yRange. rewrite He, Elo, Ehi, Emt, Eph.
    cbn [JS.sub JS.add JS.neg JS.mul].
    rewrite JSFacts.div_fin by lra. reflexivity. }
  assert (Hbound : forall q, lo <= q <= hi ->
             let f := (q + - lo + (hi + - lo) * (8 # 100))
                      / (hi + - lo + (hi + - lo) * (8 # 100) * 2) in
             (8 # 116) <= f /\ f <= (108 # 116) /\ (q == lo -> f == (8 # 116))).
  { intros q Hq f. subst f. split; [| split].
    - apply Qle_shift_div_l; [exact Hden | lra].
    - apply Qle_shift_div_r; [exact Hden | lra].
    - intro E. rewrite E. field. lra. }
  split.
  - intros row v Hrow Hv.
    rewrite Forall_forall in Hall. specialize (Hall row Hrow).
    rewrite Forall_forall in Hall. specialize (Hall v Hv).
    pose proof (drawValues_finite c He Hfin) as Hd.
    rewrite Forall_forall in Hd. specialize (Hd row Hrow).
    rewrite Forall_forall in Hd. specialize (Hd v Hv).
    rewrite (finite_val v Hd). rewrite Hshape.
    eexists. split; [reflexivity |].
    destruct (Hbound (JS.val v) Hall) as [B1 [B2 _]]. cbv zeta in B1, B2.
    set (f := (JS.val v + - lo + (hi + - lo) * (8 # 100))
              / (hi + - lo + (hi + - lo) * (8 # 100) * 2)) in *.
    split; nra.
  - rewrite Elo, Hshape. eexists. split; [reflexivity |].
    destruct (Hbound lo ltac:(lra)) as [_ [_ B3]]. cbv zeta in B3.
    rewrite (B3 ltac:(lra)). ring.
Qed.

(** A chart of one series of three values on a canvas of 400 by 300. *)
Definition oneSeries (expanded : bool) (style : string) : Chart :=
  {| xlabels := 3;
     seriesValues := [[JS.Fin 1; JS.Fin (-2); JS.Fin 300]];
     canvasW := JS.Fin 400;
     canvasH := JS.Fin 300;
     pixelRatio := JS.Fin 1;
     stacked := false;
     stackedExpanded := expanded;
     showLegend := true;
     showXAxis := true;
     showYAxisOpt := true;
     animStyle := style |}.

Lemma toY_inside_witness :
  (exists lo hi,
      yMin (oneSeries false "draw") = JS.Fin lo
      /\ yMax (oneSeries false "draw") = JS.Fin hi
      /\ lo <= 0 /\ 0 <= hi /\ lo < hi)
  /\ (forall row v,
        In row (drawValues (oneSeries false "draw")) -> In v row ->
        exists y,
          toY (oneSeries false "draw") v = JS.Fin y
          /\ 16 + (8 # 116) * 256 <= y /\ y <= 16 + 256 - (8 # 116) * 256)
  /\ exists y0,
       toY (oneSeries false "draw") (yMin (oneSeries false "draw"))
       = JS.Fin y0
       /\ y0 == 16 + 256 - (8 # 116) * 256.
Proof.
  apply (toY_inside (oneSeries false "draw") 16 256).
  - reflexivity.
  - repeat constructor.
  - reflexivity.
  - reflexivity.
  - lra.
Defined.

(** *** The chart expanded to percentages *)

Lemma yAxis_expanded (c : Chart) :
  stackedExpanded c = true ->
  yMin c = JS.Fin 0 /\ yMax c = JS.Fin 100 /\ yPad c = JS.Fin 0.
Proof.
  intro He. unfold yPad, yMax, yMin. rewrite He. repeat split.
Qed.

Lemma toY_percent (c : Chart) (mt ph q : Q) :
  stackedExpanded c = true ->
  mTop c = JS.Fin mt -> plotH c = JS.Fin ph ->
  exists y, toY c (JS.Fin q) = JS.Fin y /\ y == mt + ph - q / 100 * ph.
Proof.
  intros He Emt Eph.
  destruct (yAxis_expanded c He) as [Elo [Ehi Epad]].
  unfold toY, yRange. rewrite Elo, Ehi, Epad, Emt, Eph.
  cbn [JS.sub JS.add JS.neg JS.mul].
  rewrite JSFacts.div_fin by discriminate.
  eexists. split; [reflexivity |]. field.
Qed.

Lemma atNaN_at0 (row : list JS.num) (i : nat) :
  (i < List.length row)%nat -> atNaN row i = at0 row i.
Proof. intro H. unfold atNaN, at0. apply nth_indep. exact H. Qed.

Lemma expanded_row_length (vals : list (list JS.num)) (si : nat) :
  (si < List.length vals)%nat ->
  List.length (nth si (computeStackedExpanded vals) []) = width vals.
Proof.
  intro Hsi. unfold computeStackedExpanded.
  set (g := fun crow : list JS.num => map _ (seq 0 (width vals))).
  rewrite (nth_indep _ [] (g []))
    by (rewrite length_map, computeStacked_length; exact Hsi).
  rewrite (map_nth g (computeStacked vals) [] si). subst g. cbv beta.
  rewrite length_map, length_seq. reflexivity.
Qed.

(** A percentage of the expanded chart. *)
Lemma expanded_value (vals : list (list JS.num)) (si i : nat) :
  Forall (Forall nonneg) vals ->
  (si < List.length vals)%nat -> (i < width vals)%nat ->
  exists q,
    atNaN (nth si (computeStackedExpanded vals) []) i = JS.Fin q
    /\ 0 <= q <= 100.
Proof.
  intros Hpos Hsi Hi.
  rewrite atNaN_at0 by (rewrite expanded_row_length by exact Hsi; exact Hi).
  fold (entry (computeStackedExpanded vals) si i).
  destruct (@expanded_entry vals Hpos si i Hsi Hi) as [cq [T [Hc [HT E]]]].
  rewrite E.
  pose proof (@colTotal_nonneg (firstn (S si) vals) i
                (@Forall_firstn' _ _ vals Hpos (S si))) as Hc0.
  pose proof (@colTotal_firstn_le vals i Hpos (S si)) as HcT.
  destruct (JS.gt (JS.Fin T) JS.zero) eqn:Eg.
  - apply JSFacts.gt_fin in Eg.
    rewrite JSFacts.div_fin by lra. cbn [JS.mul].
    eexists. split; [reflexivity |].
    assert (H0 : 0 <= cq / T) by (apply Qle_shift_div_l; lra).
    assert (H1 : cq / T <= 1) by (apply Qle_shift_div_r; lra).
    split; lra.
  - exists 0. split; [reflexivity |]. lra.
Qed.

(** X19.  When the chart is expanded to percentages the value axis is
    fixed at 0 to 100 without padding, whatever the values are.  With two
    series or more, of finite non-negative values, every percentage that
    is drawn lands inside the plot area.  With a single series the values
    are drawn as they are, not as percentages: one above 100 lands above
    the plot area, and a negative one below it. *)
Theorem toY_expanded (c : Chart) (mt ph : Q) :
  stackedExpanded c = true ->
  mTop c = JS.Fin mt -> plotH c = JS.Fin ph -> 0 < ph ->
  yMin c = JS.Fin 0 /\ yMax c = JS.Fin 100
  /\ ((2 <= numSeries c)%nat ->
      Forall (Forall nonneg) (seriesValues c) ->
      forall si i,
        (si < numSeries c)%nat -> (i < width (seriesValues c))%nat ->
        exists y,
          toY c (atNaN (nth si (drawValues c) []) i) = JS.Fin y
          /\ mt <= y <= mt + ph)
  /\ (forall row q,
        seriesValues c = [row] -> In (JS.Fin q) row ->
        drawValues c = [row]
        /\ exists y,
             toY c (JS.Fin q) = JS.Fin y
             /\ (100 < q -> y < mt) /\ (q < 0 -> mt + ph < y)).
Proof.
  intros He Emt Eph Hph.
  destruct (yAxis_expanded c He) as [Elo [Ehi _]].
  split; [exact Elo |]. split; [exact Ehi |]. split.
  - intros Hn Hpos si i Hsi Hi.
    assert (Ed : drawValues c = computeStackedExpanded (seriesValues c)).
    { unfold drawValues, stacking. rewrite He.
      assert (E : (1 <? numSeries c)%nat = true) by (apply Nat.ltb_lt; lia).
      rewrite E, orb_true_r. reflexivity. }
    rewrite Ed.
    destruct (expanded_value (seriesValues c) si i Hpos Hsi Hi)
      as [q [Eq Hq]].
    rewrite Eq.
    destruct (toY_percent c mt ph q He Emt Eph) as [y [Ey Hy]].
    exists y. split; [exact Ey |].
    assert (Hf : q / 100 == q * (1 # 100)) by (field; discriminate).
    rewrite Hf in Hy. split; nra.
  - intros row q Es Hin.
    assert (Ed : drawValues c = [row]).
    { unfold drawValues, stacking, numSeries. rewrite Es. cbn [List.length].
      rewrite andb_false_r. reflexivity. }
    split; [exact Ed |].
    destruct (toY_percent c mt ph q He Emt Eph) as [y [Ey Hy]].
    exists y. split; [exact Ey |].
    assert (Hf : q / 100 == q * (1 # 100)) by (field; discriminate).
    rewrite Hf in Hy. split; intro; nra.
Qed.

Lemma toY_expanded_witness :
  yMin (oneSeries true "draw") = JS.Fin 0
  /\ yMax (oneSeries true "draw") = JS.Fin 100
  /\ ((2 <= numSeries (oneSeries true "draw"))%nat ->
      Forall (Forall nonneg) (seriesValues (oneSeries true "draw")) ->
      forall si i,
        (si < numSeries (oneSeries true "draw"))%nat ->
        (i < width (seriesValues (oneSeries true "draw")))%nat ->
        exists y,
          toY (oneSeries true "draw")
            (atNaN (nth si (drawValues (oneSeries true "draw")) []) i)
          = JS.Fin y
          /\ 16 <= y <= 16 + 256)
  /\ (forall row q,
        seriesValues (oneSeries true "draw") = [row] ->
        In (JS.Fin q) row ->
        drawValues (oneSeries true "draw") = [row]
        /\ exists y,
             toY (oneSeries true "draw") (JS.Fin q) = JS.Fin y
             /\ (100 < q -> y < 16) /\ (q < 0 -> 16 + 256 < y)).
Proof.
  apply (toY_expanded (oneSeries true "draw") 16 256).
  - reflexivity.
  - reflexivity.
  - reflexivity.
  - lra.
Defined.

(** *** The animation *)

(** The progress [draw] works with is a number of the unit interval,
    whatever progress it is given, [NaN] apart. *)
Lemma animProg_unit (prog : JS.num) :
  prog <> JS.NaN ->
  exists a, animProg prog = JS.Fin a /\ 0 <= a <= 1
            /\ (forall p, prog = JS.Fin p -> 0 <= p <= 1 -> a == p)
            /\ (forall p, prog = JS.Fin p -> 1 <= p -> a == 1).
Proof.
  intro Hnan. destruct prog as [p | | |]; [| | | congruence].
  - unfold animProg, JS.min.
    destruct (JS.lt (JS.Fin 1) (JS.Fin p)) eqn:E1.
    + apply JSFacts.lt_fin in E1. exists 1. split; [reflexivity |].
      split; [lra |]. split; intros q [= <-] Hq; lra.
    + apply JSFacts.lt_fin_false in E1. unfold JS.max.
      destruct (JS.lt (JS.Fin 0) (JS.Fin p)) eqn:E0.
      * apply JSFacts.lt_fin in E0. exists p. split; [reflexivity |].
        split; [lra |]. split; intros q [= <-] Hq; lra.
      * apply JSFacts.lt_fin_false in E0. exists 0.
        split; [reflexivity |]. split; [lra |].
        split; intros q [= <-] Hq; lra.
  - exists 1. split; [reflexivity |]. split; [lra |].
    split; intros q Hq; discriminate.
  - exists 0. split; [reflexivity |]. split; [lra |].
    split; intros q Hq; discriminate.
Qed.

Lemma points_length (c : Chart) (si : nat) :
  List.length (points c si) = n c.
Proof. unfold points. rewrite length_map, length_seq. reflexivity. Qed.

Lemma bottomPoints_length (c : Chart) (si : nat) :
  List.length (bottomPoints c si) = n c.
Proof.
  unfold bottomPoints.
  destruct ((stacked c || stackedExpanded c) && (0 <? si)%nat);
    rewrite length_map, length_seq; reflexivity.
Qed.

(** Slicing at an integer that is not negative. *)
Lemma slice0_Z (A : Type) (k : Z) (l : list A) :
  (0 <= k)%Z -> slice0 (JS.Fin (inject_Z k)) l = firstn (Z.to_nat k) l.
Proof.
  intro Hk. unfold slice0. cbn [inject_Z Qnum Qden].
  rewrite Z.quot_1_r.
  destruct (k <? 0)%Z eqn:E; [apply Z.ltb_lt in E; lia | reflexivity].
Qed.

(** The number of points that the style ['draw'] shows. *)
Lemma visibleCount_Z (c : Chart) (prog : JS.num) (a : Q) :
  animProg prog = JS.Fin a -> 0 <= a <= 1 ->
  exists k : Z,
    visibleCount c prog = JS.Fin (inject_Z k)
    /\ (1 <= k)%Z /\ (k <= Z.max 1 (Z.of_nat (n c)))%Z
    /\ inject_Z (Z.of_nat (n c)) * a <= inject_Z k
    /\ (k = 1%Z \/ inject_Z k < inject_Z (Z.of_nat (n c)) * a + 1).
Proof.
  intros Ea Ha. unfold visibleCount. rewrite Ea.
  unfold JS.of_nat, JS.of_Z. cbn [JS.mul ceil].
  set (x := inject_Z (Z.of_nat (n c)) * a).
  assert (Hn0 : 0 <= inject_Z (Z.of_nat (n c))).
  { assert (H : (0 <= Z.of_nat (n c))%Z) by lia. rewrite Zle_Qle in H.
    exact H. }
  assert (Hx : x <= inject_Z (Z.of_nat (n c))) by (subst x; nra).
  pose proof (Qle_ceiling x) as Hc1.
  pose proof (Qceiling_lt x) as Hc2.
  pose proof (Qceiling_resp_le x _ Hx) as Hc3. rewrite Qceiling_Z in Hc3.
  unfold Z.sub in Hc2. rewrite inject_Z_plus in Hc2.
  change (inject_Z (- (1))) with (- (1)) in Hc2.
  unfold JS.max.
  destruct (JS.lt (JS.Fin 1) (JS.Fin (inject_Z (Qceiling x)))) eqn:E.
  - apply JSFacts.lt_fin in E. change 1 with (inject_Z 1) in E.
    rewrite <- Zlt_Qlt in E.
    exists (Qceiling x). split; [reflexivity |]. split; [lia |].
    split; [lia |]. split; [exact Hc1 |]. right. lra.
  - apply JSFacts.lt_fin_false in E. change 1 with (inject_Z 1) in E.
    rewrite <- Zle_Qle in E.
    exists 1%Z. split; [reflexivity |]. split; [lia |]. split; [lia |].
    split; [| left; reflexivity].
    assert (H : inject_Z (Qceiling x) <= inject_Z 1)
      by (rewrite <- Zle_Qle; exact E).
    change (inject_Z 1) with 1 in *. lra.
Qed.

(** X20.  With the style ['draw'] and a progress that is not [NaN], the
    chart shows a prefix of each series: while the clamped progress [a]
    is below 1, the curve runs through the first [k] points and the area
    is closed along the first [k] bottom points, where [k] is [n * a]
    rounded up and at least 1, so between one point and all [n] of them;
    once the progress reaches 1, or is [Infinity], all the points are
    shown. *)
Theorem draw_style_prefix (c : Chart) (prog : JS.num) (si : nat) :
  animStyle c = "draw"%string -> prog <> JS.NaN -> (1 <= n c)%nat ->
  exists (a : Q) (k : nat),
    animProg prog = JS.Fin a /\ 0 <= a <= 1
    /\ (a < 1 ->
        (1 <= k <= n c)%nat
        /\ inject_Z (Z.of_nat (n c)) * a <= inject_Z (Z.of_nat k)
        /\ (k = 1%nat
            \/ inject_Z (Z.of_nat k) < inject_Z (Z.of_nat (n c)) * a + 1)
        /\ animPoints c si prog = firstn k (points c si)
        /\ animBottom c si prog = firstn k (bottomPoints c si)
        /\ List.length (animPoints c si prog) = k)
    /\ (1 <= a ->
        animPoints c si prog = points c si
        /\ animBottom c si prog = bottomPoints c si).
Proof.
  intros Hstyle Hnan Hn.
  destruct (animProg_unit prog Hnan) as [a [Ea [Ha _]]].
  destruct (visibleCount_Z c prog a Ea Ha) as [k [Ek [Hk1 [Hk2 [Hk3 Hk4]]]]].
  exists a, (Z.to_nat k). split; [exact Ea |]. split; [exact Ha |].
  assert (Hid : Z.of_nat (Z.to_nat k) = k) by (apply Z2Nat.id; lia).
  unfold animPoints, animBottom. rewrite Hstyle, Ea.
  change (String.eqb "draw" "draw") with true. cbv iota. cbn [andb].
  split.
  - intro Hlt.
    assert (E : JS.lt (JS.Fin a) (JS.Fin 1) = true)
      by (apply JSFacts.lt_fin; exact Hlt).
    rewrite E, Ek, !slice0_Z by lia. rewrite Hid.
    split; [lia |]. split; [exact Hk3 |]. split.
    + destruct Hk4 as [-> | Hk4]; [left; reflexivity | right; exact Hk4].
    + split; [reflexivity |]. split; [reflexivity |].
      rewrite length_firstn, points_length. lia.
  - intro Hge.
    assert (E : JS.lt (JS.Fin a) (JS.Fin 1) = false)
      by (apply JSFacts.lt_fin_false; exact Hge).
    rewrite E. rewrite andb_false_r. split; reflexivity.
Qed.

Lemma draw_style_prefix_witness :
  exists (a : Q) (k : nat),
    animProg (JS.Fin (1 # 2)) = JS.Fin a /\ 0 <= a <= 1
    /\ (a < 1 ->
        (1 <= k <= n (oneSeries false "draw"))%nat
        /\ inject_Z (Z.of_nat (n (oneSeries false "draw"))) * a
           <= inject_Z (Z.of_nat k)
        /\ (k = 1%nat
            \/ inject_Z (Z.of_nat k)
               < inject_Z (Z.of_nat (n (oneSeries false "draw"))) * a + 1)
        /\ animPoints (oneSeries false "draw") 0 (JS.Fin (1 # 2))
           = firstn k (points (oneSeries false "draw") 0)
        /\ animBottom (oneSeries false "draw") 0 (JS.Fin (1 # 2))
           = firstn k (bottomPoints (oneSeries false "draw") 0)
        /\ List.length (animPoints (oneSeries false "draw") 0
                          (JS.Fin (1 # 2))) = k)
    /\ (1 <= a ->
        animPoints (oneSeries false "draw") 0 (JS.Fin (1 # 2))
        = points (oneSeries false "draw") 0
        /\ animBottom (oneSeries false "draw") 0 (JS.Fin (1 # 2))
           = bottomPoints (oneSeries false "draw") 0).
Proof.
  apply (draw_style_prefix (oneSeries false "draw") (JS.Fin (1 # 2)) 0).
  - reflexivity.
  - discriminate.
  - cbn. lia.
Defined.

(** X21.  With the style ['grow'] and a progress that is not [NaN], while
    the clamped progress [a] is below 1 every point keeps its abscissa
    and stands, between the baseline of the value axis and its final
    ordinate, at the share [a] of the way; the bottom of a series that is
    not stacked on another stays on the baseline.  Once the progress
    reaches 1, or is [Infinity], the points are the final ones. *)
Theorem grow_style_between (c : Chart) (prog : JS.num) (si : nat) (b : Q) :
  animStyle c = "grow"%string -> prog <> JS.NaN ->
  toY c (yMin c) = JS.Fin b ->
  exists a : Q,
    animProg prog = JS.Fin a /\ 0 <= a <= 1
    /\ (a < 1 ->
        animPoints c si prog = map (growPoint c prog) (points c si)
        /\ (si = 0%nat -> animBottom c si prog = bottomPoints c si)
        /\ forall x y,
             exists y',
               growPoint c prog (x, JS.Fin y) = (x, JS.Fin y')
               /\ y' == b + (y - b) * a
               /\ (b <= y -> b <= y' <= y) /\ (y <= b -> y <= y' <= b))
    /\ (1 <= a ->
        animPoints c si prog = points c si
        /\ animBottom c si prog = bottomPoints c si).
Proof.
  intros Hstyle Hnan Eb.
  destruct (animProg_unit prog Hnan) as [a [Ea [Ha _]]].
  exists a. split; [exact Ea |]. split; [exact Ha |].
  unfold animPoints, animBottom. rewrite Hstyle, Ea.
  change (String.eqb "grow" "draw") with false.
  change (String.eqb "grow" "grow") with true. cbv iota. cbn [andb].
  split.
  - intro Hlt.
    assert (E : JS.lt (JS.Fin a) (JS.Fin 1) = true)
      by (apply JSFacts.lt_fin; exact Hlt).
    rewrite E. split; [reflexivity |]. split.
    + intros ->. change (0 <? 0)%nat with false.
      rewrite andb_false_r. reflexivity.
    + intros x y. unfold growPoint. rewrite Eb, Ea.
      cbn [fst snd JS.sub JS.add JS.neg JS.mul].
      eexists. split; [reflexivity |]. split; [ring |].
      split; intro H; split; nra.
  - intro Hge.
    assert (E : JS.lt (JS.Fin a) (JS.Fin 1) = false)
      by (apply JSFacts.lt_fin_false; exact Hge).
    rewrite E. split; reflexivity.
Qed.

Lemma grow_style_between_witness :
  exists a : Q,
    animProg (JS.Fin (1 # 4)) = JS.Fin a /\ 0 <= a <= 1
    /\ (a < 1 ->
        animPoints (oneSeries true "grow") 0 (JS.Fin (1 # 4))
        = map (growPoint (oneSeries true "grow") (JS.Fin (1 # 4)))
              (points (oneSeries true "grow") 0)
        /\ (0%nat = 0%nat ->
            animBottom (oneSeries true "grow") 0 (JS.Fin (1 # 4))
            = bottomPoints (oneSeries true "grow") 0)
        /\ forall x y,
             exists y',
               growPoint (oneSeries true "grow") (JS.Fin (1 # 4))
                 (x, JS.Fin y)
               = (x, JS.Fin y')
               /\ y' == (27200 # 100) + (y - (27200 # 100)) * a
               /\ ((27200 # 100) <= y -> (27200 # 100) <= y' <= y)
               /\ (y <= (27200 # 100) -> y <= y' <= (27200 # 100)))
    /\ (1 <= a ->
        animPoints (oneSeries true "grow") 0 (JS.Fin (1 # 4))
        = points (oneSeries true "grow") 0
        /\ animBottom (oneSeries true "grow") 0 (JS.Fin (1 # 4))
           = bottomPoints (oneSeries true "grow") 0).
Proof.
  apply (grow_style_between (oneSeries true "grow") (JS.Fin (1 # 4)) 0
           (27200 # 100)).
  - reflexivity.
  - discriminate.
  - vm_compute. reflexivity.
Defined.

(** *** The frames *)

(** X22.  A frame of the animation loop, for a positive duration [d]:
    before the duration it draws with the easing of a progress in
    [[0, 1)] and requests another frame; at or after the duration it
    draws with the easing of 1 and requests none.  No frame follows the
    last one, so an easing that does not reach 1 at 1 leaves the chart
    at that progress: with the style ['fade'], at that opacity. *)
Theorem frame_completion (d e : Q) (easing : JS.num -> JS.num) :
  0 < d ->
  (0 <= e -> e < d ->
   exists p, 0 <= p /\ p < 1
             /\ frame (JS.Fin d) easing (JS.Fin e)
                = (easing (JS.Fin p), true))
  /\ (d <= e ->
      exists q,
        q == 1
        /\ frame (JS.Fin d) easing (JS.Fin e) = (easing (JS.Fin q), false)
        /\ forall (c : Chart) (si : nat) (a : Q),
             easing (JS.Fin q) = JS.Fin a ->
             (1 <= a ->
              animPoints c si (easing (JS.Fin q)) = points c si
              /\ fadeAlpha c (easing (JS.Fin q)) = JS.Fin 1)
             /\ (0 < a -> a < 1 -> animStyle c = "fade"%string ->
                 fadeAlpha c (easing (JS.Fin q)) = JS.Fin a)).
Proof.
  intro Hd. unfold frame. rewrite JSFacts.div_fin by lra. split.
  - intros He0 He.
    assert (Hq : e / d < 1) by (apply Qlt_shift_div_r; lra).
    assert (Hq0 : 0 <= e / d) by (apply Qle_shift_div_l; lra).
    exists (e / d). split; [exact Hq0 |]. split; [exact Hq |].
    assert (Emin : JS.min (JS.Fin (e / d)) (JS.Fin 1) = JS.Fin (e / d)).
    { unfold JS.min.
      destruct (JS.lt (JS.Fin 1) (JS.Fin (e / d))) eqn:E; [| reflexivity].
      apply JSFacts.lt_fin in E. lra. }
    rewrite Emin.
    assert (E : JS.lt (JS.Fin (e / d)) (JS.Fin 1) = true)
      by (apply JSFacts.lt_fin; exact Hq).
    rewrite E. reflexivity.
  - intro He.
    assert (Hq : 1 <= e / d) by (apply Qle_shift_div_l; lra).
    assert (Emin : exists q, JS.min (JS.Fin (e / d)) (JS.Fin 1) = JS.Fin q
                             /\ q == 1).
    { unfold JS.min.
      destruct (JS.lt (JS.Fin 1) (JS.Fin (e / d))) eqn:E.
      - exists 1. split; reflexivity.
      - apply JSFacts.lt_fin_false in E. exists (e / d).
        split; [reflexivity | lra]. }
    destruct Emin as [q [Eq Hq1]]. exists q. split; [exact Hq1 |].
    rewrite Eq.
    assert (E : JS.lt (JS.Fin q) (JS.Fin 1) = false)
      by (apply JSFacts.lt_fin_false; lra).
    rewrite E. split; [reflexivity |].
    intros c si a Ea. rewrite Ea.
    assert (Hprog : forall x, 0 < x ->
               exists a', animProg (JS.Fin x) = JS.Fin a'
                          /\ (1 <= x -> a' == 1) /\ (x < 1 -> a' = x)).
    { intros x Hx. unfold animProg, JS.min.
      destruct (JS.lt (JS.Fin 1) (JS.Fin x)) eqn:E1.
      - apply JSFacts.lt_fin in E1. exists 1.
        split; [reflexivity |]. split; intro; [reflexivity | lra].
      - apply JSFacts.lt_fin_false in E1. unfold JS.max.
        assert (E0 : JS.lt (JS.Fin 0) (JS.Fin x) = true)
          by (apply JSFacts.lt_fin; exact Hx).
        rewrite E0. exists x. split; [reflexivity |].
        split; intro; [lra | reflexivity]. }
    split.
    + intro Ha. destruct (Hprog a ltac:(lra)) as [a' [Ea' [H1 _]]].
      specialize (H1 Ha).
      assert (El : JS.lt (JS.Fin a') (JS.Fin 1) = false)
        by (apply JSFacts.lt_fin_false; lra).
      unfold animPoints, fadeAlpha. rewrite Ea', El, !andb_false_r.
      split; reflexivity.
    + intros Ha0 Ha1 Hstyle.
      destruct (Hprog a Ha0) as [a' [Ea' [_ H2]]].
      specialize (H2 Ha1). subst a'.
      assert (El : JS.lt (JS.Fin a) (JS.Fin 1) = true)
        by (apply JSFacts.lt_fin; exact Ha1).
      unfold fadeAlpha. rewrite Hstyle, Ea', El. reflexivity.
Qed.

Lemma frame_completion_witness :
  (0 <= 900 -> 900 < 800 ->
   exists p, 0 <= p /\ p < 1
             /\ frame (JS.Fin 800) (fun t => (t * t)%js) (JS.Fin 900)
                = ((fun t => (t * t)%js) (JS.Fin p), true))
  /\ (800 <= 900 ->
      exists q,
        q == 1
        /\ frame (JS.Fin 800) (fun t => (t * t)%js) (JS.Fin 900)
           = ((fun t => (t * t)%js) (JS.Fin q), false)
        /\ forall (c : Chart) (si : nat) (a : Q),
             (fun t => (t * t)%js) (JS.Fin q) = JS.Fin a ->
             (1 <= a ->
              animPoints c si ((fun t => (t * t)%js) (JS.Fin q))
              = points c si
              /\ fadeAlpha c ((fun t => (t * t)%js) (JS.Fin q)) = JS.Fin 1)
             /\ (0 < a -> a < 1 -> animStyle c = "fade"%string ->
                 fadeAlpha c ((fun t => (t * t)%js) (JS.Fin q)) = JS.Fin a)).
Proof.
  apply (frame_completion 800 900 (fun t => (t * t)%js)). lra.
Defined.

(** *** The legend *)

Lemma legend_row (names i : nat) :
  (2 <= names)%nat -> (i < Nat.min names 12)%nat ->
  (i mod Nat.min names 6 < Nat.min names 6)%nat
  /\ ((i < 6)%nat -> (i / Nat.min names 6 = 0)%nat)
  /\ ((6 <= i)%nat -> (i / Nat.min names 6 = 1)%nat).
Proof.
  intros Hn Hi. split; [apply Nat.mod_upper_bound; lia |]. split.
  - intro H6. apply Nat.div_small. lia.
  - intro H6. assert (E : Nat.min names 6 = 6%nat) by lia. rewrite E.
    symmetry. apply (Nat.div_unique i 6 1 (i - 6)); lia.
Qed.

(** X23.  The legend of a chart of two series or more has one item per
    series, twelve at most, six to a row, between twelve device pixels
    from the left edge of the canvas and twelve from the right.  The
    chart reserves thirty device pixels for it: the items of the first
    row are centred sixteen device pixels above the bottom edge of the
    canvas, and those of the second row, from the seventh series on, four
    device pixels below it, outside the canvas. *)
Theorem legend_rows (c : Chart) (w h d : Q) :
  canvasW c = JS.Fin w -> canvasH c = JS.Fin h -> pixelRatio c = JS.Fin d ->
  0 < d -> 24 * d <= w ->
  showLegend c = true -> (2 <= numSeries c)%nat ->
  List.length (legend c) = Nat.min (numSeries c) 12
  /\ forall i,
       (i < Nat.min (numSeries c) 12)%nat ->
       exists x y,
         nth_error (legend c) i = Some (JS.Fin x, JS.Fin y)
         /\ 12 * d <= x <= w - 12 * d
         /\ ((i < 6)%nat -> y == h - 16 * d)
         /\ ((6 <= i)%nat -> y == h + 4 * d /\ h <= y - 4 * d).
Proof.
  intros Ew Eh Ed Hd Hw Hleg Hn.
  assert (Eshow : showLeg c = true).
  { unfold showLeg. rewrite Hleg.
    assert (E : (1 <? numSeries c)%nat = true) by (apply Nat.ltb_lt; lia).
    rewrite E. reflexivity. }
  unfold legend. rewrite Eshow. unfold drawLegendBlock. split.
  - rewrite length_map, length_seq. reflexivity.
  - intros i Hi.
    rewrite nth_error_map, nth_error_seq.
    assert (Eb : (i <? Nat.min (numSeries c) 12)%nat = true)
      by (apply Nat.ltb_lt; exact Hi).
    rewrite Eb. cbn [Nat.add option_map].
    destruct (legend_row (numSeries c) i Hn Hi) as [Hcol [Hrow0 Hrow1]].
    unfold legendItem, legendTop, legendH. rewrite Eshow, Ew, Eh, Ed.
    set (cols := Nat.min (numSeries c) 6) in *.
    set (col := (i mod cols)%nat) in *.
    set (row := (i / cols)%nat) in *.
    assert (Hcols : 2 <= inject_Z (Z.of_nat cols)).
    { assert (H : (2 <= Z.of_nat cols)%Z) by (subst cols; lia).
      rewrite Zle_Qle in H. exact H. }
    assert (Hcolq : 0 <= inject_Z (Z.of_nat col)
                    /\ inject_Z (Z.of_nat col) + 1 <= inject_Z (Z.of_nat cols)).
    { split.
      - assert (H : (0 <= Z.of_nat col)%Z) by lia. rewrite Zle_Qle in H.
        exact H.
      - assert (H : (Z.of_nat col + 1 <= Z.of_nat cols)%Z) by lia.
        rewrite Zle_Qle, inject_Z_plus in H. exact H. }
    unfold JS.of_nat, JS.of_Z. cbn [JS.mul JS.sub JS.add JS.neg].
    rewrite !JSFacts.div_fin by lra.
    set (slot := (w + - (24 * d)) / inject_Z (Z.of_nat cols)).
    assert (Hslot : slot * inject_Z (Z.of_nat cols) == w + - (24 * d))
      by (subst slot; field; lra).
    assert (Hslot0 : 0 <= slot)
      by (subst slot; apply Qle_shift_div_l; lra).
    assert (Emin : exists iw, JS.min (JS.Fin (100 * d)) (JS.Fin slot)
                              = JS.Fin iw
                              /\ 0 <= iw /\ iw <= slot).
    { unfold JS.min. destruct (JS.lt (JS.Fin slot) (JS.Fin (100 * d))) eqn:E.
      - exists slot. split; [reflexivity |]. split; lra.
      - apply JSFacts.lt_fin_false in E. exists (100 * d).
        split; [reflexivity |]. split; lra. }
    destruct Emin as [iw [Emin [Hiw0 Hiw1]]]. rewrite Emin.
    cbn [JS.mul JS.sub JS.add JS.neg].
    rewrite !JSFacts.div_fin by lra.
    eexists. eexists. split; [reflexivity |].
    assert (Htot : iw * inject_Z (Z.of_nat cols) <= w + - (24 * d)) by nra.
    assert (Hhalf : forall z, z / 2 == z * (1 # 2))
      by (intro z; field).
    rewrite !Hhalf.
    split; [split; nra |]. split.
    + intro H6. subst row. rewrite (Hrow0 H6).
      change (inject_Z (Z.of_nat 0)) with 0. ring.
    + intro H6. subst row. rewrite (Hrow1 H6).
      change (inject_Z (Z.of_nat 1)) with 1.
      split; [ring |]. ring_simplify. lra.
Qed.

(** Seven series on a canvas of 400 by 300. *)
Definition sevenSeries : Chart :=
  {| xlabels := 2;
     seriesValues := repeat [JS.Fin 1; JS.Fin 2] 7;
     canvasW := JS.Fin 400;
     canvasH := JS.Fin 300;
     pixelRatio := JS.Fin 1;
     stacked := true;
     stackedExpanded := false;
     showLegend := true;
     showXAxis := true;
     showYAxisOpt := true;
     animStyle := "draw" |}.

Lemma legend_rows_witness :
  List.length (legend sevenSeries) = Nat.min (numSeries sevenSeries) 12
  /\ forall i,
       (i < Nat.min (numSeries sevenSeries) 12)%nat ->
       exists x y,
         nth_error (legend sevenSeries) i = Some (JS.Fin x, JS.Fin y)
         /\ 12 * 1 <= x <= 400 - 12 * 1
         /\ ((i < 6)%nat -> y == 300 - 16 * 1)
         /\ ((6 <= i)%nat -> y == 300 + 4 * 1 /\ 300 <= y - 4 * 1).
Proof.
  apply (legend_rows sevenSeries 400 300 1).
  - reflexivity.
  - reflexivity.
  - reflexivity.
  - lra.
  - lra.
  - reflexivity.
  - cbn. lia.
Defined.

End AreaDrawFacts.

(* ===================================================================== *)
(** ** The treemap widget: the cells of a frame *)
(* ===================================================================== *)

Module HeatmapDrawFacts.

Import Heatmap HeatmapFacts HeatmapColor HeatmapDraw.
Import Lqa.
Local Open Scope Q_scope.

(** The rectangle a cell is painted in. *)
Definition cellRect (cl : Cell) : LayoutRect :=
  {| r_x := cell_x cl; r_y := cell_y cl; r_w := cell_w cl; r_h := cell_h cl;
     r_item := cell_item cl |}.

(** The rectangle [a] lies within the rectangle [b]. *)
Definition within (a b : LayoutRect) : Prop :=
  finiteRect a /\ 0 <= qw a /\ 0 <= qh a
  /\ qx b <= qx a /\ qx a + qw a <= qx b + qw b
  /\ qy b <= qy a /\ qy a + qh a <= qy b + qh b.

(** X24.  A rectangle at least one pixel wide and high is painted in
    every frame, in the colour of its item's change.  In a frame of the
    style ['grow'] at a progress [p] of [[0, 1)] the cell is the
    rectangle scaled by [p] about its centre, so within the rectangle,
    opaque and without text; in a frame of the style ['fade'] it is the
    rectangle itself at the opacity [p], without text; and in the final
    state, drawn with [Infinity], it is the rectangle itself, opaque,
    with its text. *)
Theorem drawCell_frame (opts : Options) (dpr : JS.num) (r : LayoutRect)
    (x y w h p : Q) :
  r_x r = JS.Fin x -> r_y r = JS.Fin y ->
  r_w r = JS.Fin w -> r_h r = JS.Fin h ->
  1 <= w -> 1 <= h -> 0 <= p -> p < 1 ->
  (exists cl,
      drawCell opts dpr JS.PInf r = Some cl
      /\ cellRect cl = r /\ cell_alpha cl = JS.Fin 1
      /\ cell_label cl = labelOf dpr r
      /\ cell_color cl
         = changeToColor (change (r_item r)) (maxChange opts)
             (positiveColor opts) (negativeColor opts) (neutralColor opts))
  /\ (styled (animation opts) = true ->
      exists cl,
        drawCell opts dpr (JS.Fin p) r = Some cl
        /\ cell_label cl = NoLabel /\ cell_item cl = r_item r
        /\ within (cellRect cl) r
        /\ (growing (animation opts) = true ->
            cell_alpha cl = JS.Fin 1
            /\ qw (cellRect cl) == w * p /\ qh (cellRect cl) == h * p
            /\ qx (cellRect cl) + qw (cellRect cl) / 2 == x + w / 2
            /\ qy (cellRect cl) + qh (cellRect cl) / 2 == y + h / 2)
        /\ (growing (animation opts) = false ->
            cell_alpha cl = JS.Fin p /\ cellRect cl = r)).
Proof.
  intros Ex Ey Ew Eh Hw Hh Hp0 Hp1.
  assert (Esmall : (JS.lt (r_w r) (JS.Fin 1) || JS.lt (r_h r) (JS.Fin 1))
                   = false).
  { rewrite Ew, Eh. apply orb_false_iff.
    split; apply JSFacts.lt_fin_false; assumption. }
  split.
  - unfold drawCell. rewrite Esmall. unfold isAnimating.
    change (JS.lt JS.PInf (JS.Fin 1)) with false. cbn [andb negb orb].
    eexists. split; [reflexivity |]. cbn [cell_alpha cell_label cell_color].
    split; [| repeat split]. destruct r; reflexivity.
  - intro Hst. unfold drawCell. rewrite Esmall. unfold isAnimating.
    assert (Elt : JS.lt (JS.Fin p) (JS.Fin 1) = true)
      by (apply JSFacts.lt_fin; exact Hp1).
    assert (Ege : JS.ge (JS.Fin p) (JS.Fin 1) = false)
      by (apply JSFacts.ge_fin_false; exact Hp1).
    rewrite Elt, Hst, Ege. cbn [andb negb orb].
    eexists. split; [reflexivity |]. cbn [cell_label cell_item].
    split; [reflexivity |]. split; [reflexivity |].
    destruct (growing (animation opts)).
    + rewrite Ex, Ey, Ew, Eh. cbn [JS.mul JS.add JS.sub JS.neg].
      rewrite !JSFacts.div_fin by discriminate.
      cbn [JS.mul JS.add JS.sub JS.neg].
      unfold within, cellRect, finiteRect, qx, qy, qw, qh.
      cbn [r_x r_y r_w r_h cell_x cell_y cell_w cell_h cell_alpha JS.val
           JS.finite negb].
      rewrite Ex, Ey, Ew, Eh. cbn [JS.val].
      unfold Qdiv. change (/ 2) with (1 # 2).
      split.
      * split; [repeat split |]. repeat split; nra.
      * split; [| intro; discriminate]. intros _.
        split; [reflexivity |]. repeat split; ring.
    + unfold within, cellRect, finiteRect, qx, qy, qw, qh.
      cbn [r_x r_y r_w r_h cell_x cell_y cell_w cell_h cell_alpha negb].
      rewrite Ex, Ey, Ew, Eh. cbn [JS.val JS.finite].
      split.
      * split; [repeat split |]. repeat split; lra.
      * split; [intro; discriminate |]. intros _.
        split; [reflexivity |]. destruct r; cbn in *. congruence.
Qed.

Definition tile (x y w h : Q) (it : HeatmapItem) : LayoutRect :=
  {| r_x := JS.Fin x; r_y := JS.Fin y; r_w := JS.Fin w; r_h := JS.Fin h;
     r_item := it |}.

Definition plainOptions (style : string) : Options :=
  {| data := [item 50; item 30; item 20];
     maxChange := JS.Fin 10;
     positiveColor := "#26a69a";
     negativeColor := "#ef5350";
     neutralColor := "#2a2e39";
     gap := JS.Fin 0;
     borderRadius := JS.Fin 3;
     animation := Some {| a_duration := None; a_easing := None;
                          a_style := Some style |} |}.

Lemma drawCell_frame_witness :
  let opts := plainOptions "grow" in
  let r := tile 10 20 100 60 (item 50) in
  (exists cl,
      drawCell opts (JS.Fin 1) JS.PInf r = Some cl
      /\ cellRect cl = r /\ cell_alpha cl = JS.Fin 1
      /\ cell_label cl = labelOf (JS.Fin 1) r
      /\ cell_color cl
         = changeToColor (change (r_item r)) (maxChange opts)
             (positiveColor opts) (negativeColor opts) (neutralColor opts))
  /\ (styled (animation opts) = true ->
      exists cl,
        drawCell opts (JS.Fin 1) (JS.Fin (1 # 2)) r = Some cl
        /\ cell_label cl = NoLabel /\ cell_item cl = r_item r
        /\ within (cellRect cl) r
        /\ (growing (animation opts) = true ->
            cell_alpha cl = JS.Fin 1
            /\ qw (cellRect cl) == 100 * (1 # 2)
            /\ qh (cellRect cl) == 60 * (1 # 2)
            /\ qx (cellRect cl) + qw (cellRect cl) / 2 == 10 + 100 / 2
            /\ qy (cellRect cl) + qh (cellRect cl) / 2 == 20 + 60 / 2)
        /\ (growing (animation opts) = false ->
            cell_alpha cl = JS.Fin (1 # 2) /\ cellRect cl = r)).
Proof.
  apply (drawCell_frame (plainOptions "grow") (JS.Fin 1)
           (tile 10 20 100 60 (item 50)) 10 20 100 60 (1 # 2));
    try reflexivity; lra.
Defined.

(** *** The cells of a frame do not overlap *)

Lemma finite_fin (a : JS.num) : JS.finite a -> a = JS.Fin (JS.val a).
Proof. destruct a; cbn; intro H; try contradiction. reflexivity. Qed.

(** In any frame a cell that is painted lies within its rectangle. *)
Lemma drawCell_within (opts : Options) (dpr prog : JS.num) (r : LayoutRect)
    (p : Q) :
  finiteRect r -> 0 <= qw r -> 0 <= qh r ->
  prog = JS.PInf \/ (prog = JS.Fin p /\ 0 <= p /\ p < 1) ->
  forall cl,
    drawCell opts dpr prog r = Some cl ->
    within (cellRect cl) r /\ cell_item cl = r_item r.
Proof.
  intros [Fx [Fy [Fw Fh]]] Hw Hh Hprog cl.
  pose proof (finite_fin _ Fx) as Ex. pose proof (finite_fin _ Fy) as Ey.
  pose proof (finite_fin _ Fw) as Ew. pose proof (finite_fin _ Fh) as Eh.
  unfold qw, qh in Hw, Hh.
  unfold drawCell.
  destruct (JS.lt (r_w r) (JS.Fin 1) || JS.lt (r_h r) (JS.Fin 1));
    [discriminate |].
  intros [= <-]. split; [| reflexivity].
  unfold within, cellRect, finiteRect, qx, qy, qw, qh.
  cbn [r_x r_y r_w r_h cell_x cell_y cell_w cell_h].
  destruct (isAnimating opts prog && growing (animation opts)) eqn:Eg.
  - destruct Hprog as [-> | [-> [Hp0 Hp1]]].
    + unfold isAnimating in Eg. cbn in Eg. discriminate.
    + rewrite Ex, Ey, Ew, Eh. cbn [JS.mul JS.add JS.sub JS.neg].
      rewrite !JSFacts.div_fin by discriminate.
      cbn [JS.mul JS.add JS.sub JS.neg JS.val JS.finite].
      unfold Qdiv. change (/ 2) with (1 # 2).
      split; [repeat split |]. repeat split; nra.
  - split; [repeat split; assumption |]. repeat split; lra.
Qed.

Lemma within_no_overlap (a b ra rb : LayoutRect) :
  within a ra -> within b rb -> ~ overlap ra rb -> ~ overlap a b.
Proof.
  unfold within, overlap.
  intros [_ [A1 [A2 [A3 [A4 [A5 A6]]]]]] [_ [B1 [B2 [B3 [B4 [B5 B6]]]]]] Hn Ho.
  apply Hn. destruct Ho as [O1 [O2 [O3 O4]]]. repeat split; lra.
Qed.

Lemma within_inside (a r : LayoutRect) (x y w h : Q) :
  within a r -> inside x y w h r -> inside x y w h a.
Proof.
  unfold within, inside.
  intros [F [A1 [A2 [A3 [A4 [A5 A6]]]]]] [_ [B1 [B2 [B3 [B4 [B5 B6]]]]]].
  split; [exact F |]. repeat split; lra.
Qed.

Lemma cells_sources (opts : Options) (dpr prog : JS.num) (p : Q)
    (rects : list LayoutRect) :
  Forall (fun r => finiteRect r /\ 0 <= qw r /\ 0 <= qh r) rects ->
  prog = JS.PInf \/ (prog = JS.Fin p /\ 0 <= p /\ p < 1) ->
  Forall (fun cl => exists r, In r rects /\ within (cellRect cl) r
                              /\ cell_item cl = r_item r)
         (cells opts dpr prog rects).
Proof.
  intros Hfin Hprog.
  induction Hfin as [| r rest [Hf [Hw Hh]] _ IH]; cbn [cells].
  - constructor.
  - assert (IH' : Forall
                    (fun cl => exists r0, In r0 (r :: rest)
                                          /\ within (cellRect cl) r0
                                          /\ cell_item cl = r_item r0)
                    (cells opts dpr prog rest)).
    { eapply Forall_impl; [| exact IH].
      intros cl [r0 [Hin Hr0]]. exists r0. split; [right; exact Hin | exact Hr0]. }
    destruct (drawCell opts dpr prog r) as [cl |] eqn:E; [| exact IH'].
    constructor; [| exact IH'].
    exists r. split; [left; reflexivity |].
    apply (drawCell_within opts dpr prog r p Hf Hw Hh Hprog cl E).
Qed.

Lemma cells_apart (opts : Options) (dpr prog : JS.num) (p : Q)
    (rects : list LayoutRect) :
  Forall (fun r => finiteRect r /\ 0 <= qw r /\ 0 <= qh r) rects ->
  prog = JS.PInf \/ (prog = JS.Fin p /\ 0 <= p /\ p < 1) ->
  ForallOrdPairs (fun a b => ~ overlap a b) rects ->
  ForallOrdPairs (fun a b => ~ overlap (cellRect a) (cellRect b))
    (cells opts dpr prog rects).
Proof.
  intros Hfin Hprog Hpairs.
  induction Hpairs as [| r rest Hr Hrest IH]; cbn [cells].
  - constructor.
  - inversion Hfin as [| r' rest' [Hf [Hw Hh]] Hfin']; subst.
    specialize (IH Hfin').
    destruct (drawCell opts dpr prog r) as [cl |] eqn:E; [| exact IH].
    constructor; [| exact IH].
    destruct (drawCell_within opts dpr prog r p Hf Hw Hh Hprog cl E)
      as [Hcl _].
    pose proof (cells_sources opts dpr prog p rest Hfin' Hprog) as Hsrc.
    eapply Forall_impl; [| exact Hsrc].
    intros b [rb [Hin [Hb _]]].
    apply (within_no_overlap _ _ r rb Hcl Hb).
    rewrite Forall_forall in Hr. apply Hr. exact Hin.
Qed.

(** X25.  On a treemap without gaps whose items have positive finite
    weights, the cells of every frame (a frame of an animation at a
    progress of [[0, 1)], or the final state) lie inside the canvas and
    no two of them overlap; each is painted for the item of a rectangle
    of the layout, and the rectangles stored for the click listener are
    those of the final layout in every frame. *)
Theorem draw_frame_apart (opts : Options) (dpr prog : JS.num) (w h p : Q) :
  data opts <> [] -> Forall positiveWeight (data opts) ->
  (gap opts * dpr)%js = JS.Fin 0 -> 0 <= w -> 0 <= h ->
  prog = JS.PInf \/ (prog = JS.Fin p /\ 0 <= p /\ p < 1) ->
  let '(rects, cls) := draw opts dpr prog (JS.Fin w) (JS.Fin h) in
  rects = layoutTreemap (data opts) (JS.Fin 0) (JS.Fin 0) (JS.Fin w)
            (JS.Fin h) (JS.Fin 0)
  /\ Forall (fun cl => inside 0 0 w h (cellRect cl)) cls
  /\ ForallOrdPairs (fun a b => ~ overlap (cellRect a) (cellRect b)) cls
  /\ Forall (fun cl => exists r, In r rects /\ cell_item cl = r_item r) cls.
Proof.
  intros Hne Hpos Hgap Hw Hh Hprog. unfold draw. rewrite Hgap.
  pose proof (HeatmapExtra.layoutTreemap_tiles (data opts) 0 0 w h Hne Hpos
                Hw Hh)
    as [Hin _ Hdis].
  set (rects := layoutTreemap (data opts) (JS.Fin 0) (JS.Fin 0) (JS.Fin w)
                  (JS.Fin h) (JS.Fin 0)) in *.
  assert (Hfin : Forall (fun r => finiteRect r /\ 0 <= qw r /\ 0 <= qh r)
                   rects).
  { eapply Forall_impl; [| exact Hin]. intros r Hr.
    unfold inside in Hr. tauto. }
  pose proof (cells_sources opts dpr prog p rects Hfin Hprog) as Hsrc.
  split; [reflexivity |]. split; [| split].
  - eapply Forall_impl; [| exact Hsrc].
    intros cl [r [Hr [Hcl _]]].
    apply (within_inside _ r 0 0 w h Hcl).
    rewrite Forall_forall in Hin. apply Hin. exact Hr.
  - apply (cells_apart opts dpr prog p rects Hfin Hprog Hdis).
  - eapply Forall_impl; [| exact Hsrc].
    intros cl [r [Hr [_ Hit]]]. exists r. split; assumption.
Qed.

Lemma draw_frame_apart_witness :
  let '(rects, cls) :=
    draw (plainOptions "grow") (JS.Fin 2) (JS.Fin (1 # 2)) (JS.Fin 100)
      (JS.Fin 100) in
  rects = layoutTreemap (data (plainOptions "grow")) (JS.Fin 0) (JS.Fin 0)
            (JS.Fin 100) (JS.Fin 100) (JS.Fin 0)
  /\ Forall (fun cl => inside 0 0 100 100 (cellRect cl)) cls
  /\ ForallOrdPairs (fun a b => ~ overlap (cellRect a) (cellRect b)) cls
  /\ Forall (fun cl => exists r, In r rects /\ cell_item cl = r_item r) cls.
Proof.
  apply (draw_frame_apart (plainOptions "grow") (JS.Fin 2) (JS.Fin (1 # 2))
           100 100 (1 # 2)).
  - discriminate.
  - repeat constructor.
  - reflexivity.
  - lra.
  - lra.
  - right. split; [reflexivity |]. split; lra.
Defined.

(** *** The text of a cell *)

Lemma min_fin (a b : Q) :
  exists m, JS.min (JS.Fin a) (JS.Fin b) = JS.Fin m
            /\ m <= a /\ m <= b /\ (m = a \/ m = b).
Proof.
  unfold JS.min. destruct (JS.lt (JS.Fin b) (JS.Fin a)) eqn:E.
  - apply JSFacts.lt_fin in E. exists b. repeat split; auto; lra.
  - apply JSFacts.lt_fin_false in E. exists a. repeat split; auto; lra.
Qed.

(** X26.  The text of a rectangle, for a positive pixel ratio [d].  A
    rectangle at least [40 d] wide and [28 d] high gets the large label:
    its font is the least of [14 d], a quarter of the width and a third
    of the height, so at least [28/3 d], its text at most [w - 8 d] wide,
    which is at least [32 d], and the change is written below the label
    exactly when the height reaches [42 d].  Otherwise a rectangle at
    least [20 d] wide and [14 d] high gets the small label: its font is
    between [20/3 d] and [9 d] and its text at most [w - 4 d] wide.  Any
    other rectangle has no text. *)
Theorem labelOf_font (r : LayoutRect) (d x y w h : Q) :
  r_x r = JS.Fin x -> r_y r = JS.Fin y ->
  r_w r = JS.Fin w -> r_h r = JS.Fin h -> 0 < d ->
  match labelOf (JS.Fin d) r with
  | NoLabel => w < 20 * d \/ h < 14 * d
  | Large f cx cy mw hasSub third =>
      40 * d <= w /\ 28 * d <= h
      /\ (exists fq, f = JS.Fin fq
                     /\ (28 # 3) * d <= fq /\ fq <= 14 * d
                     /\ fq <= w / 4 /\ fq <= h / 3)
      /\ (exists m, mw = JS.Fin m /\ m == w - 8 * d /\ 32 * d <= m)
      /\ (hasSub = true <-> 42 * d <= h)
      /\ (third = true -> 56 * d <= h)
  | Small f cx cy mw =>
      (w < 40 * d \/ h < 28 * d) /\ 20 * d <= w /\ 14 * d <= h
      /\ (exists fq, f = JS.Fin fq
                     /\ (20 # 3) * d <= fq /\ fq <= 9 * d
                     /\ fq <= w / 3 /\ fq <= h * (7 # 10))
      /\ (exists m, mw = JS.Fin m /\ m == w - 4 * d /\ 16 * d <= m)
  end.
Proof.
  intros Ex Ey Ew Eh Hd. unfold labelOf. rewrite Ex, Ey, Ew, Eh.
  cbn [JS.mul].
  destruct (JS.ge (JS.Fin w) (JS.Fin (40 * d))) eqn:E1;
    [destruct (JS.ge (JS.Fin h) (JS.Fin (28 * d))) eqn:E2 |]; cbn [andb].
  - apply JSFacts.ge_fin in E1. apply JSFacts.ge_fin in E2.
    rewrite !JSFacts.div_fin by discriminate.
    destruct (min_fin (14 * d) (w / 4)) as [m1 [Em1 [A1 [A2 A3]]]].
    rewrite Em1.
    destruct (min_fin m1 (h / 3)) as [m2 [Em2 [B1 [B2 B3]]]].
    rewrite Em2.
    assert (Hw4 : w / 4 == w * (1 # 4)) by field.
    assert (Hh3 : h / 3 == h * (1 # 3)) by field.
    split; [exact E1 |]. split; [exact E2 |]. split; [| split; [| split]].
    + exists m2. split; [reflexivity |].
      rewrite Hw4 in *. rewrite Hh3 in *.
      repeat split; try lra.
      destruct B3 as [-> | ->]; [destruct A3 as [-> | ->] |]; lra.
    + cbn [JS.sub JS.add JS.neg]. eexists. split; [reflexivity |].
      split; [ring | lra].
    + split; intro H.
      * apply JSFacts.ge_fin in H. lra.
      * apply JSFacts.ge_fin. lra.
    + intro H. apply andb_true_iff in H as [_ H].
      apply JSFacts.ge_fin in H. lra.
  - apply JSFacts.ge_fin in E1. apply JSFacts.ge_fin_false in E2.
    destruct (JS.ge (JS.Fin w) (JS.Fin (20 * d))) eqn:E3;
      [destruct (JS.ge (JS.Fin h) (JS.Fin (14 * d))) eqn:E4 |]; cbn [andb].
    + apply JSFacts.ge_fin in E3. apply JSFacts.ge_fin in E4.
      rewrite !JSFacts.div_fin by discriminate.
      destruct (min_fin (9 * d) (w / 3)) as [m1 [Em1 [A1 [A2 A3]]]].
      rewrite Em1.
      destruct (min_fin m1 (h * (7 # 10))) as [m2 [Em2 [B1 [B2 B3]]]].
      rewrite Em2.
      assert (Hw3 : w / 3 == w * (1 # 3)) by field.
      split; [right; exact E2 |]. split; [exact E3 |]. split; [exact E4 |].
      split.
      * exists m2. split; [reflexivity |]. rewrite Hw3 in *.
        repeat split; try lra.
        destruct B3 as [-> | ->]; [destruct A3 as [-> | ->] |]; lra.
      * cbn [JS.sub JS.add JS.neg]. eexists. split; [reflexivity |].
        split; [ring | lra].
    + apply JSFacts.ge_fin_false in E4. right. exact E4.
    + apply JSFacts.ge_fin_false in E3. left. exact E3.
  - apply JSFacts.ge_fin_false in E1.
    destruct (JS.ge (JS.Fin w) (JS.Fin (20 * d))) eqn:E3;
      [destruct (JS.ge (JS.Fin h) (JS.Fin (14 * d))) eqn:E4 |]; cbn [andb].
    + apply JSFacts.ge_fin in E3. apply JSFacts.ge_fin in E4.
      rewrite !JSFacts.div_fin by discriminate.
      destruct (min_fin (9 * d) (w / 3)) as [m1 [Em1 [A1 [A2 A3]]]].
      rewrite Em1.
      destruct (min_fin m1 (h * (7 # 10))) as [m2 [Em2 [B1 [B2 B3]]]].
      rewrite Em2.
      assert (Hw3 : w / 3 == w * (1 # 3)) by field.
      split; [left; exact E1 |]. split; [exact E3 |]. split; [exact E4 |].
      split.
      * exists m2. split; [reflexivity |]. rewrite Hw3 in *.
        repeat split; try lra.
        destruct B3 as [-> | ->]; [destruct A3 as [-> | ->] |]; lra.
      * cbn [JS.sub JS.add JS.neg]. eexists. split; [reflexivity |].
        split; [ring | lra].
    + apply JSFacts.ge_fin_false in E4. right. exact E4.
    + apply JSFacts.ge_fin_false in E3. left. exact E3.
Qed.

Lemma labelOf_font_witness :
  match labelOf (JS.Fin 2) (tile 10 20 100 60 (item 50)) with
  | NoLabel => 100 < 20 * 2 \/ 60 < 14 * 2
  | Large f cx cy mw hasSub third =>
      40 * 2 <= 100 /\ 28 * 2 <= 60
      /\ (exists fq, f = JS.Fin fq
                     /\ (28 # 3) * 2 <= fq /\ fq <= 14 * 2
                     /\ fq <= 100 / 4 /\ fq <= 60 / 3)
      /\ (exists m, mw = JS.Fin m /\ m == 100 - 8 * 2 /\ 32 * 2 <= m)
      /\ (hasSub = true <-> 42 * 2 <= 60)
      /\ (third = true -> 56 * 2 <= 60)
  | Small f cx cy mw =>
      (100 < 40 * 2 \/ 60 < 28 * 2) /\ 20 * 2 <= 100 /\ 14 * 2 <= 60
      /\ (exists fq, f = JS.Fin fq
                     /\ (20 # 3) * 2 <= fq /\ fq <= 9 * 2
                     /\ fq <= 100 / 3 /\ fq <= 60 * (7 # 10))
      /\ (exists m, mw = JS.Fin m /\ m == 100 - 4 * 2 /\ 16 * 2 <= m)
  end.
Proof.
  apply (labelOf_font (tile 10 20 100 60 (item 50)) 2 10 20 100 60);
    try reflexivity; lra.
Defined.

End HeatmapDrawFacts.

(* ===================================================================== *)
(** ** The series bar chart: the segments of a stacked bar *)
(* ===================================================================== *)

Module BarSeriesFacts.

Import BarChart BarSimple BarSeries.
Import Lra.
Local Open Scope R_scope.

(** The sums of the positive and of the negative values of a data point
    over a list of keys. *)
Fixpoint posSum (d : BarSeriesDataPoint) (ks : list string) : R :=
  match ks with
  | [] => 0
  | k :: rest =>
      (if Rge_dec (valueOf d k) 0 then valueOf d k else 0) + posSum d rest
  end.

Fixpoint negSum (d : BarSeriesDataPoint) (ks : list string) : R :=
  match ks with
  | [] => 0
  | k :: rest =>
      (if Rge_dec (valueOf d k) 0 then 0 else valueOf d k) + negSum d rest
  end.

(** The same for the values scaled by the progress [p], which is what a
    stacked bar has piled up over the keys. *)
Fixpoint posAcc (d : BarSeriesDataPoint) (p : R) (ks : list string) : R :=
  match ks with
  | [] => 0
  | k :: rest =>
      (if Rge_dec (valueOf d k * p) 0 then valueOf d k * p else 0)
      + posAcc d p rest
  end.

Fixpoint negAcc (d : BarSeriesDataPoint) (p : R) (ks : list string) : R :=
  match ks with
  | [] => 0
  | k :: rest =>
      (if Rge_dec (valueOf d k * p) 0 then 0 else valueOf d k * p)
      + negAcc d p rest
  end.

Lemma sums_fold (d : BarSeriesDataPoint) (ks : list string) :
  forall a b : R,
    fold_left
      (fun (pn : R * R) (k : string) =>
         let v := valueOf d k in
         if Rge_dec v 0 then (fst pn + v, snd pn) else (fst pn, snd pn + v))
      ks (a, b)
    = (a + posSum d ks, b + negSum d ks).
Proof.
  induction ks as [| k rest IH]; intros a b; cbn [fold_left posSum negSum].
  - f_equal; lra.
  - cbv zeta. destruct (Rge_dec (valueOf d k) 0); cbn [fst snd];
      rewrite IH; f_equal; lra.
Qed.

Lemma sums_spec (c : Chart) (d : BarSeriesDataPoint) :
  sums c d = (posSum d (keys c), negSum d (keys c)).
Proof. unfold sums. rewrite sums_fold. f_equal; lra. Qed.

Lemma acc_bounds (d : BarSeriesDataPoint) (p : R) (ks : list string) :
  0 <= p <= 1 ->
  0 <= posAcc d p ks <= posSum d ks /\ negSum d ks <= negAcc d p ks <= 0.
Proof.
  intro Hp. induction ks as [| k rest IH]; cbn [posAcc posSum negAcc negSum].
  - lra.
  - destruct (Rge_dec (valueOf d k) 0), (Rge_dec (valueOf d k * p) 0);
      split; split; nra.
Qed.

Lemma acc_app (d : BarSeriesDataPoint) (p : R) (pre post : list string) :
  posAcc d p (pre ++ post) = posAcc d p pre + posAcc d p post
  /\ negAcc d p (pre ++ post) = negAcc d p pre + negAcc d p post.
Proof.
  induction pre as [| k rest [IH1 IH2]]; cbn [List.app posAcc negAcc].
  - split; lra.
  - rewrite IH1, IH2. split; lra.
Qed.

(** The loop over the data points of a stacked chart. *)
Lemma stacked_loop (c : Chart) (ds : list BarSeriesDataPoint) :
  forall lo hi : R,
    lo <= 0 <= hi ->
    let mm :=
      fold_left
        (fun (mm : R * R) (d : BarSeriesDataPoint) =>
           let '(posSum, negSum) := sums c d in
           let vMax := if Rgt_dec posSum (snd mm) then posSum else snd mm in
           let vMin := if Rlt_dec negSum (fst mm) then negSum else fst mm in
           (vMin, vMax))
        ds (lo, hi) in
    fst mm <= lo /\ hi <= snd mm
    /\ Forall (fun d => fst mm <= negSum d (keys c)
                        /\ posSum d (keys c) <= snd mm) ds.
Proof.
  induction ds as [| d rest IH]; intros lo hi Hz; cbn [fold_left].
  - cbn [fst snd]. repeat split; try lra. constructor.
  - rewrite sums_spec. cbn [fst snd].
    set (hi1 := if Rgt_dec (posSum d (keys c)) hi
                then posSum d (keys c) else hi).
    set (lo1 := if Rlt_dec (negSum d (keys c)) lo
                then negSum d (keys c) else lo).
    assert (H1 : lo1 <= lo /\ lo1 <= negSum d (keys c)).
    { subst lo1. destruct (Rlt_dec (negSum d (keys c)) lo); split; lra. }
    assert (H2 : hi <= hi1 /\ posSum d (keys c) <= hi1).
    { subst hi1. destruct (Rgt_dec (posSum d (keys c)) hi); split; lra. }
    specialize (IH lo1 hi1 ltac:(lra)). cbv zeta in IH.
    destruct IH as [A [B C]]. cbv zeta.
    split; [lra |]. split; [lra |].
    constructor; [split; lra | exact C].
Qed.

(** The value scale of a stacked chart holds the sums of every data
    point strictly inside. *)
Lemma scale_stacked (c : Chart) :
  stacked c = true ->
  0 < totalRange (scale c)
  /\ totalRange (scale c) = vMax (scale c) - vMin (scale c)
  /\ Forall (fun d => vMin (scale c) < negSum d (keys c)
                      /\ posSum d (keys c) < vMax (scale c))
       (seriesData c).
Proof.
  intro Hst.
  pose proof (stacked_loop c (seriesData c) 0 0 ltac:(lra)) as H.
  cbv zeta in H. unfold scale, rangeLoop. rewrite Hst.
  destruct (fold_left _ (seriesData c) (0, 0)) as [lo hi].
  cbn [fst snd] in H. destruct H as [A [B C]].
  destruct (Rgt_dec lo 0) as [H | _]; [lra |].
  destruct (Rlt_dec hi 0) as [H | _]; [lra |].
  cbn [vMin vMax totalRange].
  set (r := if Req_dec_T (hi - lo) 0 then 1 else hi - lo).
  assert (Hr : 0 < r).
  { subst r. destruct (Req_dec_T (hi - lo) 0); lra. }
  split; [lra |]. split; [reflexivity |].
  eapply Forall_impl; [| exact C]. intros d Hd. cbv beta in Hd. lra.
Qed.

Section Pixels.

Variable c : Chart.
Variables w h : R.
Hypothesis Hrange : 0 < totalRange (scale c).
Hypothesis Htotal : totalRange (scale c) = vMax (scale c) - vMin (scale c).

Lemma share_mono (a b : R) :
  a <= b ->
  (a - vMin (scale c)) / totalRange (scale c)
  <= (b - vMin (scale c)) / totalRange (scale c).
Proof.
  intro Hab. unfold Rdiv.
  apply Rmult_le_compat_r; [apply Rlt_le, Rinv_0_lt_compat, Hrange | lra].
Qed.

Lemma share_unit (v : R) :
  vMin (scale c) <= v <= vMax (scale c) ->
  0 <= (v - vMin (scale c)) / totalRange (scale c) <= 1.
Proof.
  intro Hv.
  pose proof (share_mono (vMin (scale c)) v ltac:(lra)) as H0.
  pose proof (share_mono v (vMax (scale c)) ltac:(lra)) as H1.
  replace ((vMin (scale c) - vMin (scale c)) / totalRange (scale c))
    with 0 in H0 by (unfold Rdiv; field; lra).
  replace ((vMax (scale c) - vMin (scale c)) / totalRange (scale c))
    with 1 in H1 by (rewrite <- Htotal; unfold Rdiv; field; lra).
  lra.
Qed.

Lemma toY_anti (a b : R) :
  0 <= plotH c h -> a <= b -> toY c h b <= toY c h a.
Proof.
  intros Hh Hab. unfold toY. pose proof (share_mono a b Hab). nra.
Qed.

Lemma toX_mono (a b : R) :
  0 <= plotW c w -> a <= b -> toX c w a <= toX c w b.
Proof.
  intros Hw Hab. unfold toX. pose proof (share_mono a b Hab). nra.
Qed.

Lemma toY_in_plot (v : R) :
  0 <= plotH c h -> vMin (scale c) <= v <= vMax (scale c) ->
  mTop (margins c) <= toY c h v <= mTop (margins c) + plotH c h.
Proof.
  intros Hh Hv. unfold toY. pose proof (share_unit v Hv). nra.
Qed.

Lemma toX_in_plot (v : R) :
  0 <= plotW c w -> vMin (scale c) <= v <= vMax (scale c) ->
  mLeft (margins c) <= toX c w v <= mLeft (margins c) + plotW c w.
Proof.
  intros Hw Hv. unfold toX. pose proof (share_unit v Hv). nra.
Qed.

End Pixels.

(** The rectangle of the key after the keys [pre] in a stacked bar. *)
Lemma stackedV_nth (c : Chart) (h : R) (i : nat) (d : BarSeriesDataPoint)
    (X W p : R) (k : string) (post : list string) (pre : list string) :
  forall (ki : nat) (P N : R),
    exists r,
      nth_error (stackedV c h i d X W p ki (pre ++ k :: post) P N)
        (List.length pre) = Some r
      /\ catIdx r = i
      /\ seriesIdx r = Z.of_nat (ki + List.length pre)
      /\ seriesKey r = k /\ hit_value r = valueOf d k
      /\ hit_label r = s_label d /\ hit_x r = X /\ hit_w r = W
      /\ (0 <= valueOf d k * p ->
          hit_y r = toY c h (P + posAcc d p pre + valueOf d k * p)
          /\ hit_h r = Rmax (toY c h (P + posAcc d p pre) - hit_y r) 0)
      /\ (valueOf d k * p < 0 ->
          hit_y r = toY c h (N + negAcc d p pre)
          /\ hit_h r
             = Rmax (toY c h (N + negAcc d p pre + valueOf d k * p)
                     - hit_y r) 0).
Proof.
  induction pre as [| k0 pre IH]; intros ki P N.
  - cbn [List.app List.length nth_error stackedV posAcc negAcc].
    rewrite Nat.add_0_r, !Rplus_0_r.
    destruct (Rge_dec (valueOf d k * p) 0) as [Hv | Hv];
      eexists; (split; [reflexivity |]);
      cbn [catIdx seriesIdx seriesKey hit_value hit_label hit_x hit_y hit_w
           hit_h];
      repeat split; intros; try reflexivity; lra.
  - cbn [List.app List.length nth_error stackedV posAcc negAcc].
    destruct (Rge_dec (valueOf d k0 * p) 0) as [Hv | Hv].
    + destruct (IH (S ki) (P + valueOf d k0 * p) N) as [r [E Hr]].
      exists r. split; [exact E |].
      replace (ki + S (List.length pre))%nat
        with (S ki + List.length pre)%nat by lia.
      replace (P + (valueOf d k0 * p + posAcc d p pre))
        with (P + valueOf d k0 * p + posAcc d p pre) by lra.
      replace (N + (0 + negAcc d p pre)) with (N + negAcc d p pre) by lra.
      exact Hr.
    + destruct (IH (S ki) P (N + valueOf d k0 * p)) as [r [E Hr]].
      exists r. split; [exact E |].
      replace (ki + S (List.length pre))%nat
        with (S ki + List.length pre)%nat by lia.
      replace (N + (valueOf d k0 * p + negAcc d p pre))
        with (N + valueOf d k0 * p + negAcc d p pre) by lra.
      replace (P + (0 + posAcc d p pre)) with (P + posAcc d p pre) by lra.
      exact Hr.
Qed.

Lemma stackedH_nth (c : Chart) (w : R) (i : nat) (d : BarSeriesDataPoint)
    (Y H p : R) (k : string) (post : list string) (pre : list string) :
  forall (ki : nat) (P N : R),
    exists r,
      nth_error (stackedH c w i d Y H p ki (pre ++ k :: post) P N)
        (List.length pre) = Some r
      /\ catIdx r = i
      /\ seriesIdx r = Z.of_nat (ki + List.length pre)
      /\ seriesKey r = k /\ hit_value r = valueOf d k
      /\ hit_label r = s_label d /\ hit_y r = Y /\ hit_h r = H
      /\ (0 <= valueOf d k * p ->
          hit_x r = toX c w (P + posAcc d p pre)
          /\ hit_w r
             = Rmax (toX c w (P + posAcc d p pre + valueOf d k * p)
                     - hit_x r) 0)
      /\ (valueOf d k * p < 0 ->
          hit_x r = toX c w (N + negAcc d p pre + valueOf d k * p)
          /\ hit_w r = Rmax (toX c w (N + negAcc d p pre) - hit_x r) 0).
Proof.
  induction pre as [| k0 pre IH]; intros ki P N.
  - cbn [List.app List.length nth_error stackedH posAcc negAcc].
    rewrite Nat.add_0_r, !Rplus_0_r.
    destruct (Rge_dec (valueOf d k * p) 0) as [Hv | Hv];
      eexists; (split; [reflexivity |]);
      cbn [catIdx seriesIdx seriesKey hit_value hit_label hit_x hit_y hit_w
           hit_h];
      repeat split; intros; try reflexivity; lra.
  - cbn [List.app List.length nth_error stackedH posAcc negAcc].
    destruct (Rge_dec (valueOf d k0 * p) 0) as [Hv | Hv].
    + destruct (IH (S ki) (P + valueOf d k0 * p) N) as [r [E Hr]].
      exists r. split; [exact E |].
      replace (ki + S (List.length pre))%nat
        with (S ki + List.length pre)%nat by lia.
      replace (P + (valueOf d k0 * p + posAcc d p pre))
        with (P + valueOf d k0 * p + posAcc d p pre) by lra.
      replace (N + (0 + negAcc d p pre)) with (N + negAcc d p pre) by lra.
      exact Hr.
    + destruct (IH (S ki) P (N + valueOf d k0 * p)) as [r [E Hr]].
      exists r. split; [exact E |].
      replace (ki + S (List.length pre))%nat
        with (S ki + List.length pre)%nat by lia.
      replace (N + (valueOf d k0 * p + negAcc d p pre))
        with (N + valueOf d k0 * p + negAcc d p pre) by lra.
      replace (P + (0 + posAcc d p pre)) with (P + posAcc d p pre) by lra.
      exact Hr.
Qed.

(** X27.  In a stacked series chart, with the progress of the bar
    between 0 and 1 and a plot area of non-negative width and height, the
    rectangle of each key of a data point spans, along the value axis,
    from the level that the earlier keys of the same sign have piled up to
    that level plus its own scaled value: the segments of a bar follow one
    another from zero without gap or overlap, upward for positive values
    and downward for negative ones, and every segment lies inside the
    plot area along that axis.  The rectangle carries the category index,
    the index of the key, the key and the raw value. *)
Theorem stacked_segments (c : Chart) (w h : R) (e : Elapsed) (i : nat)
    (d : BarSeriesDataPoint) (pre : list string) (k : string)
    (post : list string) :
  stacked c = true -> In d (seriesData c) ->
  keys c = pre ++ k :: post ->
  0 <= barProgress (anim c) i e <= 1 ->
  0 <= plotW c w -> 0 <= plotH c h ->
  let p := barProgress (anim c) i e in
  let v := valueOf d k * p in
  let below := if Rle_dec 0 v then posAcc d p pre else negAcc d p pre in
  exists r,
    nth_error (category c w h e i d) (List.length pre) = Some r
    /\ catIdx r = i /\ seriesIdx r = Z.of_nat (List.length pre)
    /\ seriesKey r = k /\ hit_value r = valueOf d k
    /\ (horizontal c = false ->
        hit_y r = toY c h (Rmax below (below + v))
        /\ hit_y r + hit_h r = toY c h (Rmin below (below + v))
        /\ mTop (margins c) <= hit_y r
        /\ hit_y r + hit_h r <= mTop (margins c) + plotH c h)
    /\ (horizontal c = true ->
        hit_x r = toX c w (Rmin below (below + v))
        /\ hit_x r + hit_w r = toX c w (Rmax below (below + v))
        /\ mLeft (margins c) <= hit_x r
        /\ hit_x r + hit_w r <= mLeft (margins c) + plotW c w).
Proof.
  intros Hst Hin Hkeys Hp Hw Hh p v below.
  destruct (scale_stacked c Hst) as [Hrange [Htotal Hall]].
  rewrite Forall_forall in Hall. specialize (Hall d Hin).
  destruct Hall as [Hlo Hhi].
  destruct (acc_bounds d p (keys c) Hp) as [[Hk1 Hk2] [Hk3 Hk4]].
  destruct (acc_bounds d p pre Hp) as [[Hp1 _] [_ Hp4]].
  destruct (acc_bounds d p post Hp) as [[Hq1 _] [_ Hq4]].
  destruct (acc_app d p pre (k :: post)) as [Ea1 Ea2].
  rewrite <- Hkeys in Ea1, Ea2. cbn [posAcc negAcc] in Ea1, Ea2.
  fold v in Ea1, Ea2.
  assert (Hlevels : vMin (scale c) <= Rmin below (below + v)
                    /\ Rmin below (below + v) <= Rmax below (below + v)
                    /\ Rmax below (below + v) <= vMax (scale c)
                    /\ (0 <= v -> Rmax below (below + v) = below + v
                                  /\ Rmin below (below + v) = below
                                  /\ below = posAcc d p pre)
                    /\ (v < 0 -> Rmax below (below + v) = below
                                 /\ Rmin below (below + v) = below + v
                                 /\ below = negAcc d p pre)).
  { subst below. destruct (Rle_dec 0 v) as [Hv | Hv].
    - destruct (Rge_dec v 0) as [_ | Hn]; [| lra].
      rewrite Rmax_right, Rmin_left by lra.
      repeat split; intros; try lra.
    - destruct (Rge_dec v 0) as [Hn | _]; [lra |].
      rewrite Rmax_left, Rmin_right by lra.
      repeat split; intros; try lra. }
  destruct Hlevels as [L1 [L2 [L3 [Lpos Lneg]]]].
  unfold category. fold p. rewrite Hst.
  destruct (horizontal c) eqn:Eo.
  - rewrite Hkeys.
    destruct (stackedH_nth c w i d
                (mTop (margins c) + INR i * (plotH c h / INR (n c))
                 + plotH c h / INR (n c) * gap c / 2)
                (plotH c h / INR (n c) - plotH c h / INR (n c) * gap c)
                p k post pre 0%nat 0 0)
      as [r [E [R1 [R2 [R3 [R4 [_ [_ [_ [Rpos Rneg]]]]]]]]]].
    exists r. split; [exact E |]. split; [exact R1 |].
    split; [exact R2 |]. split; [exact R3 |]. split; [exact R4 |].
    split; [intro; discriminate |]. intros _.
    rewrite !Rplus_0_l in Rpos, Rneg. fold v in Rpos, Rneg.
    pose proof (toX_mono c w Hrange _ _ Hw L2) as Hm.
    pose proof (toX_in_plot c w Hrange Htotal (Rmin below (below + v)) Hw
                  ltac:(lra)) as I1.
    pose proof (toX_in_plot c w Hrange Htotal (Rmax below (below + v)) Hw
                  ltac:(lra)) as I2.
    destruct (Rle_dec 0 v) as [Hv | Hv].
    + destruct (Lpos Hv) as [M1 [M2 M3]]. destruct (Rpos Hv) as [Ex Ew].
      rewrite M1, M2 in *. rewrite M3 in *.
      rewrite Ew, Ex, Rmax_left by lra. repeat split; lra.
    + destruct (Lneg ltac:(lra)) as [M1 [M2 M3]].
      destruct (Rneg ltac:(lra)) as [Ex Ew].
      rewrite M1, M2 in *. rewrite M3 in *.
      rewrite Ew, Ex, Rmax_left by lra. repeat split; lra.
  - rewrite Hkeys.
    destruct (stackedV_nth c h i d
                (mLeft (margins c) + INR i * (plotW c w / INR (n c))
                 + plotW c w / INR (n c) * gap c / 2)
                (plotW c w / INR (n c) - plotW c w / INR (n c) * gap c)
                p k post pre 0%nat 0 0)
      as [r [E [R1 [R2 [R3 [R4 [_ [_ [_ [Rpos Rneg]]]]]]]]]].
    exists r. split; [exact E |]. split; [exact R1 |].
    split; [exact R2 |]. split; [exact R3 |]. split; [exact R4 |].
    split; [| intro; discriminate]. intros _.
    rewrite !Rplus_0_l in Rpos, Rneg. fold v in Rpos, Rneg.
    pose proof (toY_anti c h Hrange _ _ Hh L2) as Hm.
    pose proof (toY_in_plot c h Hrange Htotal (Rmin below (below + v)) Hh
                  ltac:(lra)) as I1.
    pose proof (toY_in_plot c h Hrange Htotal (Rmax below (below + v)) Hh
                  ltac:(lra)) as I2.
    destruct (Rle_dec 0 v) as [Hv | Hv].
    + destruct (Lpos Hv) as [M1 [M2 M3]]. destruct (Rpos Hv) as [Ey Eh].
      rewrite M1, M2 in *. rewrite M3 in *.
      rewrite Eh, Ey, Rmax_left by lra. repeat split; lra.
    + destruct (Lneg ltac:(lra)) as [M1 [M2 M3]].
      destruct (Rneg ltac:(lra)) as [Ey Eh].
      rewrite M1, M2 in *. rewrite M3 in *.
      rewrite Eh, Ey, Rmax_left by lra. repeat split; lra.
Qed.

(** One quarter with three series, one of them negative, stacked. *)
Definition quarter : BarSeriesDataPoint :=
  {| s_label := "q1";
     values := [("a", 3); ("b", -1); ("c", 2)]%string;
     colors := [] |}.

Definition stackedChart (horiz : bool) : Chart :=
  {| seriesData := [quarter];
     horizontal := horiz;
     stacked := true;
     gap := 3 / 10;
     dpr := 1;
     showLabels := false;
     showLegend := false;
     anim := resolveAnim RawTrue;
     measureText := fun _ => 0 |}.

Lemma stacked_segments_witness :
  let c := stackedChart false in
  let p := barProgress (anim c) 0 Infinity in
  let v := valueOf quarter "c" * p in
  let below :=
    if Rle_dec 0 v then posAcc quarter p ["a"; "b"]%string
    else negAcc quarter p ["a"; "b"]%string in
  exists r,
    nth_error (category c 400 300 Infinity 0 quarter)
      (List.length ["a"; "b"]%string) = Some r
    /\ catIdx r = 0%nat
    /\ seriesIdx r = Z.of_nat (List.length ["a"; "b"]%string)
    /\ seriesKey r = "c"%string /\ hit_value r = valueOf quarter "c"
    /\ (horizontal c = false ->
        hit_y r = toY c 300 (Rmax below (below + v))
        /\ hit_y r + hit_h r = toY c 300 (Rmin below (below + v))
        /\ mTop (margins c) <= hit_y r
        /\ hit_y r + hit_h r <= mTop (margins c) + plotH c 300)
    /\ (horizontal c = true ->
        hit_x r = toX c 400 (Rmin below (below + v))
        /\ hit_x r + hit_w r = toX c 400 (Rmax below (below + v))
        /\ mLeft (margins c) <= hit_x r
        /\ hit_x r + hit_w r <= mLeft (margins c) + plotW c 400).
Proof.
  apply (stacked_segments (stackedChart false) 400 300 Infinity 0 quarter
           ["a"; "b"]%string "c"%string []).
  - reflexivity.
  - left. reflexivity.
  - reflexivity.
  - cbn. lra.
  - unfold plotW, margins. cbn [stackedChart horizontal dpr mLeft mRight].
    lra.
  - unfold plotH, margins, legendGap, legendBlockH, legendRows.
    cbn [stackedChart horizontal showLabels showLegend dpr mTop mBottom INR].
    lra.
Defined.

(** *** The keys and the rectangles of a series chart *)

Lemma existsb_eqb (k : string) (s : list string) :
  existsb (String.eqb k) s = true <-> In k s.
Proof.
  rewrite existsb_exists. split.
  - intros [x [Hx E]]. apply String.eqb_eq in E. subst x. exact Hx.
  - intro H. exists k. split; [exact H | apply String.eqb_refl].
Qed.

Lemma addKey_spec (s : list string) (k : string) :
  NoDup s ->
  NoDup (addKey s k) /\ forall x, In x (addKey s k) <-> In x s \/ x = k.
Proof.
  intro Hs. unfold addKey.
  destruct (existsb (String.eqb k) s) eqn:E.
  - apply existsb_eqb in E. split; [exact Hs |].
    intro x. split; [auto |]. intros [H | ->]; assumption.
  - assert (Hn : ~ In k s).
    { intro H. apply existsb_eqb in H. congruence. }
    split.
    + apply NoDup_app; [exact Hs | repeat constructor; intros [] |].
      intros x Hx [<- | []]. exact (Hn Hx).
    + intro x. rewrite in_app_iff. cbn [In]. intuition.
Qed.

Lemma addKeys_spec (ks : list string) :
  forall s, NoDup s ->
    NoDup (fold_left addKey ks s)
    /\ forall x, In x (fold_left addKey ks s) <-> In x s \/ In x ks.
Proof.
  induction ks as [| k rest IH]; intros s Hs; cbn [fold_left].
  - split; [exact Hs |]. intro x. cbn [In]. tauto.
  - destruct (addKey_spec s k Hs) as [Hn Hin].
    destruct (IH (addKey s k) Hn) as [Hn' Hin'].
    split; [exact Hn' |]. intro x. rewrite Hin', Hin. cbn [In].
    intuition.
Qed.

Lemma seriesKeys_spec (ds : list BarSeriesDataPoint) :
  forall s, NoDup s ->
    let r := fold_left
               (fun s d => fold_left addKey (map fst (values d)) s) ds s in
    NoDup r
    /\ forall x, In x r
                 <-> In x s \/ exists d, In d ds /\ In x (map fst (values d)).
Proof.
  induction ds as [| d rest IH]; intros s Hs; cbn [fold_left].
  - split; [exact Hs |]. intro x. split; [auto |].
    intros [H | [d [[] _]]]. exact H.
  - destruct (addKeys_spec (map fst (values d)) s Hs) as [Hn Hin].
    destruct (IH _ Hn) as [Hn' Hin']. cbv zeta in Hn', Hin'.
    split; [exact Hn' |]. intro x. rewrite Hin', Hin. split.
    + intros [[H | H] | [d' [Hd' Hx]]].
      * left. exact H.
      * right. exists d. split; [left; reflexivity | exact H].
      * right. exists d'. split; [right; exact Hd' | exact Hx].
    + intros [H | [d' [[<- | Hd'] Hx]]].
      * left. left. exact H.
      * left. right. exact Hx.
      * right. exists d'. split; assumption.
Qed.

Lemma groupedV_nth (c : Chart) (h : R) (i : nat) (d : BarSeriesDataPoint)
    (X W p : R) (k : string) (post : list string) (pre : list string) :
  forall ki : nat,
    exists r,
      nth_error (groupedV c h i d X W p ki (pre ++ k :: post))
        (List.length pre) = Some r
      /\ catIdx r = i
      /\ seriesIdx r = Z.of_nat (ki + List.length pre)
      /\ seriesKey r = k /\ hit_value r = valueOf d k
      /\ hit_label r = s_label d.
Proof.
  induction pre as [| k0 pre IH]; intro ki;
    cbn [List.app List.length nth_error groupedV].
  - rewrite Nat.add_0_r. eexists. split; [reflexivity |].
    repeat split.
  - destruct (IH (S ki)) as [r [E Hr]]. exists r. split; [exact E |].
    replace (ki + S (List.length pre))%nat
      with (S ki + List.length pre)%nat by lia.
    exact Hr.
Qed.

Lemma groupedH_nth (c : Chart) (w : R) (i : nat) (d : BarSeriesDataPoint)
    (Y H p : R) (k : string) (post : list string) (pre : list string) :
  forall ki : nat,
    exists r,
      nth_error (groupedH c w i d Y H p ki (pre ++ k :: post))
        (List.length pre) = Some r
      /\ catIdx r = i
      /\ seriesIdx r = Z.of_nat (ki + List.length pre)
      /\ seriesKey r = k /\ hit_value r = valueOf d k
      /\ hit_label r = s_label d.
Proof.
  induction pre as [| k0 pre IH]; intro ki;
    cbn [List.app List.length nth_error groupedH].
  - rewrite Nat.add_0_r. eexists. split; [reflexivity |].
    repeat split.
  - destruct (IH (S ki)) as [r [E Hr]]. exists r. split; [exact E |].
    replace (ki + S (List.length pre))%nat
      with (S ki + List.length pre)%nat by lia.
    exact Hr.
Qed.

Lemma stackedV_length (c : Chart) (h : R) (i : nat) (d : BarSeriesDataPoint)
    (X W p : R) (ks : list string) :
  forall ki P N,
    List.length (stackedV c h i d X W p ki ks P N) = List.length ks.
Proof.
  induction ks as [| k rest IH]; intros ki P N; cbn [stackedV List.length];
    [reflexivity |].
  destruct (Rge_dec (valueOf d k * p) 0); cbn [List.length]; rewrite IH;
    reflexivity.
Qed.

Lemma stackedH_length (c : Chart) (w : R) (i : nat) (d : BarSeriesDataPoint)
    (Y H p : R) (ks : list string) :
  forall ki P N,
    List.length (stackedH c w i d Y H p ki ks P N) = List.length ks.
Proof.
  induction ks as [| k rest IH]; intros ki P N; cbn [stackedH List.length];
    [reflexivity |].
  destruct (Rge_dec (valueOf d k * p) 0); cbn [List.length]; rewrite IH;
    reflexivity.
Qed.

Lemma groupedV_length (c : Chart) (h : R) (i : nat) (d : BarSeriesDataPoint)
    (X W p : R) (ks : list string) :
  forall ki, List.length (groupedV c h i d X W p ki ks) = List.length ks.
Proof.
  induction ks as [| k rest IH]; intro ki; cbn [groupedV List.length];
    [reflexivity | rewrite IH; reflexivity].
Qed.

Lemma groupedH_length (c : Chart) (w : R) (i : nat) (d : BarSeriesDataPoint)
    (Y H p : R) (ks : list string) :
  forall ki, List.length (groupedH c w i d Y H p ki ks) = List.length ks.
Proof.
  induction ks as [| k rest IH]; intro ki; cbn [groupedH List.length];
    [reflexivity | rewrite IH; reflexivity].
Qed.

Lemma category_length (c : Chart) (w h : R) (e : Elapsed) (i : nat)
    (d : BarSeriesDataPoint) :
  List.length (category c w h e i d) = List.length (keys c).
Proof.
  unfold category. destruct (horizontal c), (stacked c).
  - apply stackedH_length.
  - apply groupedH_length.
  - apply stackedV_length.
  - apply groupedV_length.
Qed.

Lemma category_nth (c : Chart) (w h : R) (e : Elapsed) (i : nat)
    (d : BarSeriesDataPoint) (pre : list string) (k : string)
    (post : list string) :
  keys c = pre ++ k :: post ->
  exists r,
    nth_error (category c w h e i d) (List.length pre) = Some r
    /\ catIdx r = i /\ seriesIdx r = Z.of_nat (List.length pre)
    /\ seriesKey r = k /\ hit_value r = valueOf d k
    /\ hit_label r = s_label d.
Proof.
  intro Hkeys. unfold category. rewrite Hkeys.
  destruct (horizontal c), (stacked c).
  - destruct (stackedH_nth c w i d
                (mTop (margins c) + INR i * (plotH c h / INR (n c))
                 + plotH c h / INR (n c) * gap c / 2)
                (plotH c h / INR (n c) - plotH c h / INR (n c) * gap c)
                (barProgress (anim c) i e) k post pre 0%nat 0 0)
      as [r [E [R1 [R2 [R3 [R4 [R5 _]]]]]]].
    exists r. repeat split; assumption.
  - destruct (groupedH_nth c w i d
                (mTop (margins c) + INR i * (plotH c h / INR (n c))
                 + plotH c h / INR (n c) * gap c / 2)
                ((plotH c h / INR (n c) - plotH c h / INR (n c) * gap c)
                 / INR (List.length (pre ++ k :: post)))
                (barProgress (anim c) i e) k post pre 0%nat)
      as [r [E [R1 [R2 [R3 [R4 R5]]]]]].
    exists r. repeat split; assumption.
  - destruct (stackedV_nth c h i d
                (mLeft (margins c) + INR i * (plotW c w / INR (n c))
                 + plotW c w / INR (n c) * gap c / 2)
                (plotW c w / INR (n c) - plotW c w / INR (n c) * gap c)
                (barProgress (anim c) i e) k post pre 0%nat 0 0)
      as [r [E [R1 [R2 [R3 [R4 [R5 _]]]]]]].
    exists r. repeat split; assumption.
  - destruct (groupedV_nth c h i d
                (mLeft (margins c) + INR i * (plotW c w / INR (n c))
                 + plotW c w / INR (n c) * gap c / 2)
                ((plotW c w / INR (n c) - plotW c w / INR (n c) * gap c)
                 / INR (List.length (pre ++ k :: post)))
                (barProgress (anim c) i e) k post pre 0%nat)
      as [r [E [R1 [R2 [R3 [R4 R5]]]]]].
    exists r. repeat split; assumption.
Qed.

Lemma categories_length (c : Chart) (w h : R) (e : Elapsed)
    (ds : list BarSeriesDataPoint) :
  forall i,
    List.length (categories c w h e i ds)
    = (List.length ds * List.length (keys c))%nat.
Proof.
  induction ds as [| d rest IH]; intro i; cbn [categories List.length].
  - reflexivity.
  - rewrite length_app, category_length, IH. lia.
Qed.

Lemma categories_nth (c : Chart) (w h : R) (e : Elapsed)
    (ds : list BarSeriesDataPoint) :
  forall (i0 j ki : nat) (d : BarSeriesDataPoint),
    nth_error ds j = Some d -> (ki < List.length (keys c))%nat ->
    nth_error (categories c w h e i0 ds) (j * List.length (keys c) + ki)
    = nth_error (category c w h e (i0 + j) d) ki.
Proof.
  induction ds as [| d0 rest IH]; intros i0 j ki d Hj Hki.
  - destruct j; discriminate.
  - cbn [categories]. destruct j as [| j]; cbn [nth_error] in Hj.
    + injection Hj as ->. cbn [Nat.mul Nat.add]. rewrite Nat.add_0_r.
      apply nth_error_app1. rewrite category_length. exact Hki.
    + rewrite nth_error_app2 by (rewrite category_length; lia).
      rewrite category_length.
      replace (S j * List.length (keys c) + ki - List.length (keys c))%nat
        with (j * List.length (keys c) + ki)%nat by lia.
      rewrite (IH (S i0) j ki d Hj Hki).
      replace (S i0 + j)%nat with (i0 + S j)%nat by lia. reflexivity.
Qed.

(** X28.  The keys of a series chart are the keys of its data points,
    each once.  When there are data points, [drawSeriesChart] replaces the
    rectangles by one per data point and key, category by category and
    key by key, stacked or grouped and in either orientation: the
    rectangle of the data point [i] and of the key of index [ki] is the
    one of index [i * keys.length + ki], and it carries that category
    index, that series index, the key, the label of the data point and
    its value for the key, 0 when it has none. *)
Theorem drawSeriesChart_hits (c : Chart) (w h : R) (e : Elapsed)
    (old : list HitRect) :
  seriesData c <> [] ->
  NoDup (keys c)
  /\ (forall k, In k (keys c)
                <-> exists d, In d (seriesData c)
                              /\ In k (map fst (values d)))
  /\ List.length (drawSeriesChart c w h e old)
     = (n c * List.length (keys c))%nat
  /\ forall i d pre k post,
       nth_error (seriesData c) i = Some d ->
       keys c = pre ++ k :: post ->
       exists r,
         nth_error (drawSeriesChart c w h e old)
           (i * List.length (keys c) + List.length pre) = Some r
         /\ catIdx r = i /\ seriesIdx r = Z.of_nat (List.length pre)
         /\ seriesKey r = k /\ hit_value r = valueOf d k
         /\ hit_label r = s_label d.
Proof.
  intro Hne.
  destruct (seriesKeys_spec (seriesData c) [] (NoDup_nil _)) as [Hnd Hin].
  cbv zeta in Hnd, Hin. fold (seriesKeys (seriesData c)) in Hnd, Hin.
  fold (keys c) in Hnd, Hin.
  split; [exact Hnd |]. split.
  - intro k. rewrite Hin. cbn [In]. tauto.
  - assert (Ed : drawSeriesChart c w h e old
                 = categories c w h e 0 (seriesData c)).
    { unfold drawSeriesChart.
      destruct (seriesData c) as [| d0 rest] eqn:Es; [congruence |].
      destruct (keys c) eqn:Ek; [| reflexivity].
      symmetry. apply length_zero_iff_nil.
      rewrite categories_length, Ek. cbn [List.length]. lia. }
    rewrite Ed. split; [apply categories_length |].
    intros i d pre k post Hi Hkeys.
    assert (Hki : (List.length pre < List.length (keys c))%nat).
    { rewrite Hkeys, length_app. cbn [List.length]. lia. }
    rewrite (categories_nth c w h e (seriesData c) 0 i (List.length pre) d
               Hi Hki).
    cbn [Nat.add].
    apply (category_nth c w h e i d pre k post Hkeys).
Qed.

Lemma drawSeriesChart_hits_witness :
  NoDup (keys (stackedChart true))
  /\ (forall k, In k (keys (stackedChart true))
                <-> exists d, In d (seriesData (stackedChart true))
                              /\ In k (map fst (values d)))
  /\ List.length (drawSeriesChart (stackedChart true) 400 300 Infinity [])
     = (n (stackedChart true) * List.length (keys (stackedChart true)))%nat
  /\ forall i d pre k post,
       nth_error (seriesData (stackedChart true)) i = Some d ->
       keys (stackedChart true) = pre ++ k :: post ->
       exists r,
         nth_error (drawSeriesChart (stackedChart true) 400 300 Infinity [])
           (i * List.length (keys (stackedChart true)) + List.length pre)
         = Some r
         /\ catIdx r = i /\ seriesIdx r = Z.of_nat (List.length pre)
         /\ seriesKey r = k /\ hit_value r = valueOf d k
         /\ hit_label r = s_label d.
Proof.
  apply (drawSeriesChart_hits (stackedChart true) 400 300 Infinity []).
  discriminate.
Defined.

End BarSeriesFacts.

(* ===================================================================== *)
(** ** The donut chart: the ring and the legend inside the canvas *)
(* ===================================================================== *)

Module DonutRingFacts.

Import BarChart Donut DonutRing.
Import Lra.
Local Open Scope R_scope.

Lemma legend_row_bound (m i : nat) :
  (i < Nat.min m 12)%nat ->
  (i / Nat.min m 6 + 1 <= (Nat.min m 12 + 5) / 6)%nat.
Proof.
  intro Hi.
  destruct (Nat.le_gt_cases m 6) as [Hm | Hm].
  - assert (E6 : Nat.min m 6 = m) by lia.
    assert (E12 : Nat.min m 12 = m) by lia.
    rewrite E6, E12 in *. rewrite Nat.div_small by exact Hi.
    assert (H : (1 <= (m + 5) / 6)%nat).
    { replace (m + 5)%nat with (m - 1 + 1 * 6)%nat by lia.
      rewrite Nat.div_add by lia. lia. }
    lia.
  - assert (E6 : Nat.min m 6 = 6%nat) by lia. rewrite E6.
    replace (Nat.min m 12 + 5)%nat
      with (Nat.min m 12 - 1 + 1 * 6)%nat by lia.
    rewrite Nat.div_add by lia.
    assert (H : (i / 6 <= (Nat.min m 12 - 1) / 6)%nat)
      by (apply Nat.Div0.div_le_mono; lia).
    lia.
Qed.

(** X29.  The layout of the donut chart, for data of positive total, a
    pixel ratio that is not negative and a canvas that leaves a diameter
    of 20 or more.  The outer radius is half the diameter; the ring with
    its hover margin of [8 dpr], which is also how far outside the ring
    [hitTest] accepts the pointer, lies inside the canvas, and above the
    legend when there is one; every legend item lies between the top of
    the legend and the bottom of the canvas; and the slice angles are
    those computed from the values. *)
Theorem drawPrimaryRing_inside (c : Chart) (w h : R) (g : Geometry) :
  values c <> [] -> 0 < total (values c) -> 0 <= dpr g ->
  20 <= diameter c w h g ->
  let g' := drawPrimaryRing c w h g in
  sliceAngles g' = computeSliceAngles (values c)
  /\ dpr g' = dpr g
  /\ outerR g' = diameter c w h g / 2
  /\ innerR g' = outerR g' * innerRadiusRatio c
  /\ 0 <= chartCx g' - (outerR g' + 8 * dpr g')
  /\ chartCx g' + (outerR g' + 8 * dpr g') <= w
  /\ 0 <= chartCy g' - (outerR g' + 8 * dpr g')
  /\ chartCy g' + (outerR g' + 8 * dpr g') <= h
  /\ (showLegend c = true ->
      chartCy g' + (outerR g' + 8 * dpr g') <= legendTop c w h g
      /\ List.length (legend c w h g)
         = Nat.min (List.length (values c)) 12
      /\ forall i xy,
           nth_error (legend c w h g) i = Some xy ->
           legendTop c w h g + 9 * dpr g <= snd xy
           /\ snd xy + 9 * dpr g <= h).
Proof.
  intros Hne Htot Hd Hdia g'.
  assert (Eg : g' = {| chartCx := w / 2;
                       chartCy := topOffset c w h g
                                  + Rmax (diameter c w h g / 2) 10;
                       outerR := Rmax (diameter c w h g / 2) 10;
                       innerR := Rmax (diameter c w h g / 2) 10
                                 * innerRadiusRatio c;
                       dpr := dpr g;
                       sliceAngles := computeSliceAngles (values c) |}).
  { subst g'. unfold drawPrimaryRing.
    destruct (values c) as [| v rest] eqn:Ev; [congruence |].
    destruct (Rle_dec (total (v :: rest)) 0) as [H | _]; [lra |].
    reflexivity. }
  rewrite Eg. cbn [chartCx chartCy outerR innerR dpr sliceAngles].
  rewrite Rmax_left by lra.
  pose proof (Rmin_l (availW c w g) (availH c h g)) as HW.
  pose proof (Rmin_r (availW c w g) (availH c h g)) as HH.
  fold (diameter c w h g) in HW, HH.
  assert (Hrows : 0 <= legendBlockH c g).
  { unfold legendBlockH, legendRowH.
    apply Rmult_le_pos; [apply pos_INR | lra]. }
  assert (Hgap : 0 <= legendGap c g)
    by (unfold legendGap; destruct (showLegend c); lra).
  assert (Hpad : 0 <= outsideLabelPad c g)
    by (unfold outsideLabelPad; destruct (outsideLabels c); lra).
  unfold availW, availH, hoverPad in HW, HH.
  assert (Etop : topOffset c w h g
                 = (h - diameter c w h g - legendGap c g
                    - legendBlockH c g) / 2).
  { unfold topOffset, compositionH. lra. }
  split; [reflexivity |]. split; [reflexivity |]. split; [reflexivity |].
  split; [reflexivity |].
  split; [lra |]. split; [lra |]. split; [lra |]. split; [lra |].
  intro Hleg.
  assert (Egap : legendGap c g = 10 * dpr g)
    by (unfold legendGap; rewrite Hleg; reflexivity).
  split; [unfold legendTop; lra |].
  assert (Hn : (0 < List.length (values c))%nat).
  { destruct (values c); [congruence | cbn; lia]. }
  assert (Erows : legendRows c
                  = ((Nat.min (List.length (values c)) 12 + 5) / 6)%nat)
    by (unfold legendRows; rewrite Hleg; reflexivity).
  assert (Hrows1 : (1 <= legendRows c)%nat).
  { rewrite Erows.
    pose proof (legend_row_bound (List.length (values c)) 0 ltac:(lia)).
    lia. }
  unfold legend. rewrite Hleg.
  assert (Eb : (0 <? legendRows c)%nat = true)
    by (apply Nat.ltb_lt; lia).
  rewrite Eb. cbn [andb]. split.
  - rewrite length_map, length_seq. reflexivity.
  - intros i xy Hi.
    rewrite nth_error_map in Hi.
    destruct (nth_error (seq 0 (Nat.min (List.length (values c)) 12)) i)
      as [j |] eqn:Ej; [| discriminate].
    cbn [option_map] in Hi. injection Hi as <-.
    assert (Hj : (j < Nat.min (List.length (values c)) 12)%nat).
    { apply nth_error_In in Ej. apply in_seq in Ej. lia. }
    pose proof (legend_row_bound (List.length (values c)) j Hj) as Hrow.
    rewrite <- Erows in Hrow.
    unfold legendItem. cbn [snd].
    set (row := (j / Nat.min (List.length (values c)) 6)%nat) in *.
    assert (Hr0 : 0 <= INR row) by apply pos_INR.
    assert (Hr1 : INR row + 1 <= INR (legendRows c)).
    { rewrite <- S_INR. apply le_INR. lia. }
    unfold legendTop, legendBlockH, legendRowH in *.
    split; nra.
Qed.

Definition threeSlices : Chart :=
  {| values := [1; 1; 1];
     innerRadiusRatio := 55 / 100;
     showLegend := true;
     outsideLabels := false |}.

(** The geometry before the first draw, at a pixel ratio of 1. *)
Definition blank : Geometry :=
  {| chartCx := 0; chartCy := 0; outerR := 0; innerR := 0; dpr := 1;
     sliceAngles := [] |}.

Lemma blank_diameter : diameter threeSlices 300 300 blank = 256.
Proof.
  unfold diameter, availW, availH, hoverPad, outsideLabelPad, legendGap,
    legendBlockH, legendRowH, legendRows.
  cbn [threeSlices values showLegend outsideLabels List.length blank dpr].
  change ((Nat.min 3 12 + 5) / 6)%nat with 1%nat. cbn [INR].
  rewrite Rmin_right by lra. lra.
Qed.

Lemma drawPrimaryRing_inside_witness :
  let g' := drawPrimaryRing threeSlices 300 300 blank in
  sliceAngles g' = computeSliceAngles (values threeSlices)
  /\ dpr g' = dpr blank
  /\ outerR g' = diameter threeSlices 300 300 blank / 2
  /\ innerR g' = outerR g' * innerRadiusRatio threeSlices
  /\ 0 <= chartCx g' - (outerR g' + 8 * dpr g')
  /\ chartCx g' + (outerR g' + 8 * dpr g') <= 300
  /\ 0 <= chartCy g' - (outerR g' + 8 * dpr g')
  /\ chartCy g' + (outerR g' + 8 * dpr g') <= 300
  /\ (showLegend threeSlices = true ->
      chartCy g' + (outerR g' + 8 * dpr g') <= legendTop threeSlices 300 300 blank
      /\ List.length (legend threeSlices 300 300 blank)
         = Nat.min (List.length (values threeSlices)) 12
      /\ forall i xy,
           nth_error (legend threeSlices 300 300 blank) i = Some xy ->
           legendTop threeSlices 300 300 blank + 9 * dpr blank <= snd xy
           /\ snd xy + 9 * dpr blank <= 300).
Proof.
  apply (drawPrimaryRing_inside threeSlices 300 300 blank).
  - discriminate.
  - unfold total. cbn [threeSlices values fold_left]. lra.
  - cbn [blank dpr]. lra.
  - rewrite blank_diameter. lra.
Defined.

End DonutRingFacts.

(* ===================================================================== *)
(** ** The donut chart: nested rings *)
(* ===================================================================== *)

Module DonutStackedFacts.

Import BarChart Donut DonutStacked.
Import Lra.
Local Open Scope R_scope.

(** X30.  The nested rings of the donut chart, for a pixel ratio that is
    not negative, a canvas that leaves a diameter of 20 or more and
    rings few enough for their gaps of [3 dpr] to fit in the seven
    tenths of the radius they share.  The rings have one positive width;
    the first starts at the outer radius, each next one [3 dpr] inside
    the one before it, and the last ends at the inner radius, three
    tenths of the outer one.  The geometry kept for the pointer has
    those two radii and the slice angles of the outermost ring only: a
    pointer over any of the rings is answered with a slice of the
    outermost ring. *)
Theorem drawStackedRings_nested (rings : list (list R)) (showLegend : bool)
    (w h : R) (g : Geometry) :
  rings <> [] -> 0 <= dpr g ->
  20 <= diameter rings showLegend w h g ->
  3 * dpr g * (INR (numRings rings) - 1)
  < 7 / 10 * maxR rings showLegend w h g ->
  let g' := drawStackedRings rings showLegend w h g in
  let n := numRings rings in
  outerR g' = diameter rings showLegend w h g / 2
  /\ innerR g' = outerR g' * (3 / 10)
  /\ 0 < ringWidth rings showLegend w h g
  /\ ringOuterR rings showLegend w h g 0 = outerR g'
  /\ ringInnerR rings showLegend w h g (n - 1) = innerR g'
  /\ (forall ri, (ri < n)%nat ->
        innerR g' <= ringInnerR rings showLegend w h g ri
        /\ ringInnerR rings showLegend w h g ri
           < ringOuterR rings showLegend w h g ri
        /\ ringOuterR rings showLegend w h g ri <= outerR g'
        /\ ((S ri < n)%nat ->
            ringOuterR rings showLegend w h g (S ri)
            = ringInnerR rings showLegend w h g ri - 3 * dpr g))
  /\ (0 < total (outerRingSlices rings) ->
      Forall (fun v => 0 <= v) (outerRingSlices rings) ->
      sliceAngles g' = computeSliceAngles (outerRingSlices rings)
      /\ forall x y,
           innerR g' <= distance g' x y <= outerR g' + 8 * dpr g' ->
           exists k v,
             hitTest g' x y = Z.of_nat k
             /\ nth_error (outerRingSlices rings) k = Some v /\ 0 < v).
Proof.
  intros Hne Hd Hdia Hfit g' n.
  assert (Eg : g' = {| chartCx := w / 2;
                       chartCy := topOffset rings showLegend w h g
                                  + maxR rings showLegend w h g;
                       outerR := maxR rings showLegend w h g;
                       innerR := maxR rings showLegend w h g * (3 / 10);
                       dpr := dpr g;
                       sliceAngles :=
                         if Rle_dec (total (outerRingSlices rings)) 0
                         then sliceAngles g
                         else computeSliceAngles (outerRingSlices rings) |}).
  { subst g'. unfold drawStackedRings, outerRingSlices.
    destruct rings; [congruence | reflexivity]. }
  assert (Emax : maxR rings showLegend w h g
                 = diameter rings showLegend w h g / 2).
  { unfold maxR. apply Rmax_left. lra. }
  assert (Hn1 : (1 <= n)%nat).
  { subst n. unfold numRings. destruct rings; [congruence | cbn; lia]. }
  assert (Hn : 1 <= INR n) by (apply (le_INR 1 n); exact Hn1).
  fold n in Hfit.
  set (M := maxR rings showLegend w h g) in *.
  set (W := ringWidth rings showLegend w h g).
  assert (HM : 10 <= M) by lra.
  assert (EW : W * INR n = M - M * (3 / 10) - 3 * dpr g * (INR n - 1)).
  { subst W. unfold ringWidth, totalRingSpace, ringGap. fold M. fold n.
    field. lra. }
  assert (HW : 0 < W).
  { assert (H : 0 < W * INR n) by lra.
    destruct (Rle_dec W 0) as [Hle | Hgt]; [| lra]. nra. }
  assert (Eout : forall ri, ringOuterR rings showLegend w h g ri
                            = M - INR ri * (W + 3 * dpr g)).
  { intro ri. unfold ringOuterR, ringGap. reflexivity. }
  assert (Ein : forall ri, ringInnerR rings showLegend w h g ri
                           = M - INR ri * (W + 3 * dpr g) - W).
  { intro ri. unfold ringInnerR. rewrite Eout. reflexivity. }
  rewrite Eg. cbn [chartCx chartCy outerR innerR dpr sliceAngles].
  split; [exact Emax |]. split; [reflexivity |]. split; [exact HW |].
  split; [rewrite Eout; cbn [INR]; lra |].
  split.
  { rewrite Ein.
    assert (En1 : INR (n - 1) = INR n - 1)
      by (rewrite minus_INR by exact Hn1; reflexivity).
    rewrite En1. nra. }
  split.
  { intros ri Hri. rewrite Ein, Eout.
    assert (Hr0 : 0 <= INR ri) by apply pos_INR.
    assert (Hr1 : INR ri + 1 <= INR n).
    { rewrite <- S_INR. apply le_INR. lia. }
    split; [nra |]. split; [lra |]. split; [nra |].
    intros _. rewrite Eout, S_INR. lra. }
  intros Htot Hpos.
  destruct (Rle_dec (total (outerRingSlices rings)) 0) as [H | _]; [lra |].
  split; [reflexivity |].
  intros x y Hdist. unfold hitTest. cbv zeta.
  cbn [innerR outerR dpr sliceAngles].
  destruct (Rlt_dec _ (M * (3 / 10))) as [H | _]; [lra |].
  destruct (Rgt_dec _ (M + 8 * dpr g)) as [H | _]; [lra |].
  unfold computeSliceAngles.
  match goal with
  | |- context [findSlice (pointerAngle ?gg x y) _ 0%nat] =>
      pose proof (DonutFacts.pointerAngle_range gg x y) as Hr;
      destruct (DonutExtra.findSlice_covers
                  (total (outerRingSlices rings)) (outerRingSlices rings)
                  Htot Hpos (- PI / 2) (pointerAngle gg x y) 0)
        as [k [v [E [Hk Hv]]]]
  end.
  { split; [lra |]. unfold Rdiv. rewrite Rinv_r by lra. lra. }
  exists k, v. split; [exact E |]. split; assumption.
Qed.

(** Two rings on a canvas of 300 by 300 at a pixel ratio of 1. *)
Definition blank : Geometry :=
  {| chartCx := 0; chartCy := 0; outerR := 0; innerR := 0; dpr := 1;
     sliceAngles := [] |}.

Definition twoRings : list (list R) := [[1; 1; 2]; [3; 1]].

Lemma twoRings_diameter : diameter twoRings true 300 300 blank = 256.
Proof.
  unfold diameter, availW, availH, hoverPad, legendGap, legendBlockH,
    legendRows, outerRingSlices.
  cbn [twoRings hd List.length blank dpr].
  change ((Nat.min 3 12 + 5) / 6)%nat with 1%nat. cbn [INR].
  rewrite Rmin_right by lra. lra.
Qed.

Lemma drawStackedRings_nested_witness :
  let g' := drawStackedRings twoRings true 300 300 blank in
  let n := numRings twoRings in
  outerR g' = diameter twoRings true 300 300 blank / 2
  /\ innerR g' = outerR g' * (3 / 10)
  /\ 0 < ringWidth twoRings true 300 300 blank
  /\ ringOuterR twoRings true 300 300 blank 0 = outerR g'
  /\ ringInnerR twoRings true 300 300 blank (n - 1) = innerR g'
  /\ (forall ri, (ri < n)%nat ->
        innerR g' <= ringInnerR twoRings true 300 300 blank ri
        /\ ringInnerR twoRings true 300 300 blank ri
           < ringOuterR twoRings true 300 300 blank ri
        /\ ringOuterR twoRings true 300 300 blank ri <= outerR g'
        /\ ((S ri < n)%nat ->
            ringOuterR twoRings true 300 300 blank (S ri)
            = ringInnerR twoRings true 300 300 blank ri - 3 * dpr blank))
  /\ (0 < total (outerRingSlices twoRings) ->
      Forall (fun v => 0 <= v) (outerRingSlices twoRings) ->
      sliceAngles g' = computeSliceAngles (outerRingSlices twoRings)
      /\ forall x y,
           innerR g' <= distance g' x y <= outerR g' + 8 * dpr g' ->
           exists k v,
             hitTest g' x y = Z.of_nat k
             /\ nth_error (outerRingSlices twoRings) k = Some v /\ 0 < v).
Proof.
  apply (drawStackedRings_nested twoRings true 300 300 blank).
  - discriminate.
  - cbn [blank dpr]. lra.
  - rewrite twoRings_diameter. lra.
  - unfold maxR. rewrite twoRings_diameter.
    rewrite Rmax_left by lra.
    unfold numRings. cbn [twoRings List.length INR blank dpr]. lra.
Defined.

End DonutStackedFacts.
